(** * Prompt builder: the ordered-component editing core

    A shallow embedding of the page script (the component list, the drop
    handler, the variable engine and the template store) together with the
    properties of its specification.

    Conventions of the embedding.
    - A JavaScript string is a list of code units ([list ascii]; code units
      above 255 are outside the model).
    - An array index is a [nat]; [Array.prototype.splice] clamps its
      arguments to the array, and the clamping is written out.
    - Objects live in a heap: component objects and [Component[]] arrays are
      allocated at locations, so that two references to one object are two
      occurrences of one location.
    - [Date.now()], the drag payload, the position of the drop placeholder and
      the outcome of [localStorage.setItem] are inputs of the handlers. *)

From Stdlib Require Import Ascii String ZArith Lia.
From stdpp Require Import base decidable option list strings gmap fin_maps.

Set Warnings "-clear-no-such-hyp".

Abbreviation str := (list ascii).

(** String literals of the source, as code-unit lists. *)
Definition js (s : string) : str := list_ascii_of_string s.

(** ** Arrays *)

Section Array.
Context {A : Type}.

(** [arr.splice(start, deleteCount, ...items)] for non-negative integer
    arguments: the array after the call, and the array of removed elements
    that the call returns.  [start] is clamped to the length and
    [deleteCount] to what is left after [start]. *)
Definition splice (arr : list A) (start deleteCount : nat) (items : list A)
  : list A * list A :=
  let actualStart := start `min` length arr in
  let actualDeleteCount := deleteCount `min` (length arr - actualStart) in
  (take actualStart arr ++ items ++ drop (actualStart + actualDeleteCount) arr,
   take actualDeleteCount (drop actualStart arr)).

(** The index at which the drop handler re-inserts a dragged element:
    [if (fromIndex < toIndex) toIndex--]. *)
Definition normalizedIndex (fromIndex toIndex : nat) : nat :=
  if fromIndex <? toIndex then toIndex - 1 else toIndex.

(** The reordering branch of the drop handler (the specification's
    [moveWithinList]); [toIndex] is the position of the placeholder among
    the children of the canvas.

    [const [movedComponent] = state.components.splice(fromIndex, 1)] binds
    [undefined] when nothing was removed; the handler then stores
    [undefined] in the array and the following [render()] throws on
    [component.id].  That outcome is [None]. *)
Definition moveWithinList (arr : list A) (fromIndex toIndex : nat)
  : option (list A) :=
  let toIndex := normalizedIndex fromIndex toIndex in
  if fromIndex =? toIndex then Some arr
  else
    match splice arr fromIndex 1 [] with
    | (arr1, movedComponent :: _) =>
        Some (fst (splice arr1 toIndex 0 [movedComponent]))
    | (_, []) => None
    end.

(** The raw placeholder position that [normalizedIndex] maps back to
    [target] for an element now sitting at [current]. *)
Definition inverseIndex (current target : nat) : nat :=
  if current <? target then S target else target.
End Array.

(** ** Strings *)

Definition LF : ascii := ascii_of_nat 10.

(** The character class [[A-Z_]] of [variableRegex]. *)
Definition isNameChar (c : ascii) : bool :=
  let n := nat_of_ascii c in
  ((65 <=? n) && (n <=? 90)) || (n =? 95).

(** White space and line terminators, as [String.prototype.trim] strips
    them: TAB, LF, VT, FF, CR, SP and NBSP (the ones below 256). *)
Definition isWhiteSpace (c : ascii) : bool :=
  let n := nat_of_ascii c in
  ((9 <=? n) && (n <=? 13)) || (n =? 32) || (n =? 160).

Fixpoint trimStart (s : str) : str :=
  match s with
  | c :: s' => if isWhiteSpace c then trimStart s' else s
  | [] => []
  end.

Definition trimEnd (s : str) : str := reverse (trimStart (reverse s)).

(** [s.trim()] *)
Definition trim (s : str) : str := trimEnd (trimStart s).

Fixpoint startsWith (pat s : str) : bool :=
  match pat, s with
  | [], _ => true
  | p :: pat', c :: s' => bool_decide (p = c) && startsWith pat' s'
  | _ :: _, [] => false
  end.

(** *** The regular expression [/\[([A-Z_]+)\]/g] *)

(** The longest run of name characters at the front of [s] (the greedy
    [[A-Z_]+]) and what follows it. *)
Fixpoint nameRun (s : str) : str * str :=
  match s with
  | c :: s' =>
      if isNameChar c then let '(n, r) := nameRun s' in (c :: n, r)
      else ([], s)
  | [] => ([], [])
  end.

(** One attempt of [variableRegex] anchored at the front of [s]: capture
    group 1 when [s] starts with a bracket, one or more name characters and
    a closing bracket.  Giving characters back from the greedy run cannot
    help, since the character after a shorter run is a name character and
    not a closing bracket. *)
Definition matchAt (s : str) : option str :=
  match s with
  | c :: s' =>
      if bool_decide (c = "["%char) then
        match nameRun s' with
        | (n :: ns, d :: _) =>
            if bool_decide (d = "]"%char) then Some (n :: ns) else None
        | _ => None
        end
      else None
  | [] => None
  end.

(** [while ((match = variableRegex.exec(componentText)) !== null)]: the
    successive values of [match[1]].  [exec] starts at [lastIndex], tries
    every index from there on, and after a match sets [lastIndex] to the
    end of the match; [skip] is the number of code units left before
    [lastIndex].  The call that returns [null] resets [lastIndex] to 0, so
    every component text is scanned from its start. *)
Fixpoint execAll (skip : nat) (s : str) : list str :=
  match s with
  | [] => []
  | _ :: rest =>
      match skip with
      | S k => execAll k rest
      | 0 =>
          match matchAt s with
          | Some name => name :: execAll (S (length name)) rest
          | None => execAll 0 rest
          end
      end
  end.

(** [detectedVariables.add(name)] on a [Set], kept in insertion order (the
    order [Array.from] lists it in). *)
Definition setAdd (name : str) (set : list str) : list str :=
  if bool_decide (name ∈ set) then set else set ++ [name].

(** *** [String.prototype.replace] with a replacement string *)

(** GetSubstitution for a regular expression without capture groups: [$$]
    is a dollar sign, [$&] the matched text, [$`] the text before the match,
    [$'] the text after it; a dollar sign followed by anything else
    (digits included, as there is no group to refer to) stands for
    itself. *)
Fixpoint GetSubstitution (matched before after template : str) : str :=
  match template with
  | [] => []
  | c :: t =>
      if bool_decide (c = "$"%char) then
        match t with
        | d :: t' =>
            if bool_decide (d = "$"%char) then
              "$"%char :: GetSubstitution matched before after t'
            else if bool_decide (d = "&"%char) then
              matched ++ GetSubstitution matched before after t'
            else if bool_decide (d = "`"%char) then
              before ++ GetSubstitution matched before after t'
            else if bool_decide (d = "'"%char) then
              after ++ GetSubstitution matched before after t'
            else c :: GetSubstitution matched before after t
        | [] => [c]
        end
      else c :: GetSubstitution matched before after t
  end.

(** The text a placeholder pattern matches: [`[${key}]`]. *)
Definition placeholderOf (key : str) : str := js "[" ++ key ++ js "]".

(** [s.replace(new RegExp('\\[' + key + '\\]', 'g'), replacement)] for a
    [key] made of name characters, where the pattern matches the literal
    text [placeholderOf key].  [before] is the part of the subject already
    passed and [skip] the number of code units left of the last match. *)
Fixpoint replaceFrom (pat replacement before : str) (skip : nat) (s : str) : str :=
  match s with
  | [] => []
  | c :: rest =>
      match skip with
      | S k => replaceFrom pat replacement (before ++ [c]) k rest
      | 0 =>
          if startsWith pat s then
            GetSubstitution pat before (drop (length pat) s) replacement
              ++ replaceFrom pat replacement (before ++ [c]) (length pat - 1) rest
          else c :: replaceFrom pat replacement (before ++ [c]) 0 rest
      end
  end.

Definition replacePlaceholder (key replacement s : str) : str :=
  replaceFrom (placeholderOf key) replacement [] 0 s.

(** ** Data model *)

Module Component.
(** [type Component = { id: number; type: string; content?: string;
    key?: string; value?: string }]; an absent optional field is [None]. *)
Record t := mk {
  id : Z;
  type : str;
  content : option str;
  key : option str;
  value : option str;
}.
End Component.

Abbreviation loc := positive.

Module Template.
(** [type Template = { id: number; name: string; components: Component[] }];
    [components] is a reference to an array. *)
Record t := mk {
  id : Z;
  name : str;
  components : loc;
}.
End Template.

Global Instance Component_inhabited : Inhabited Component.t :=
  populate (Component.mk 0 [] None None None).

Global Instance Component_eq_dec : EqDecision Component.t.
Proof. solve_decision. Defined.

Global Instance Template_eq_dec : EqDecision Template.t.
Proof. solve_decision. Defined.

(** One template of the record that [saveState] writes to [localStorage]
    ([JSON.stringify] follows the references, so the record holds values). *)
Abbreviation SavedTemplate := (Z * str * list Component.t)%type.

(** The heap ([objs] for component objects, [arrs] for [Component[]]
    arrays), the application state ([state.components], [state.templates],
    [state.variables]), [draggedElement] (the [data-index] of the element
    being dragged), and what the handlers read from or write to the page:
    the names of the inputs in the variable form, the text of the live
    preview, whether the save dialog is hidden, the [promptBuilderState]
    record of [localStorage], and the messages shown with [alert].

    [state.variables] is an object used as a dictionary; its keys are
    variable names (never integer-like), which [for ... in] lists in
    insertion order, so it is an association list in that order. *)
Record World := mkWorld {
  objs : gmap loc Component.t;
  arrs : gmap loc (list loc);
  components : loc;
  templates : list Template.t;
  variables : list (str * str);
  draggedElement : option nat;
  variableForm : list str;
  livePreview : str;
  modalHidden : bool;
  localStorage : option (list SavedTemplate);
  alerts : list str;
}.

Definition set_objs (o : gmap loc Component.t) (w : World) : World :=
  mkWorld o (arrs w) (components w) (templates w) (variables w)
    (draggedElement w) (variableForm w) (livePreview w) (modalHidden w)
    (localStorage w) (alerts w).
Definition set_arrs (a : gmap loc (list loc)) (w : World) : World :=
  mkWorld (objs w) a (components w) (templates w) (variables w)
    (draggedElement w) (variableForm w) (livePreview w) (modalHidden w)
    (localStorage w) (alerts w).
Definition set_components (c : loc) (w : World) : World :=
  mkWorld (objs w) (arrs w) c (templates w) (variables w)
    (draggedElement w) (variableForm w) (livePreview w) (modalHidden w)
    (localStorage w) (alerts w).
Definition set_templates (t : list Template.t) (w : World) : World :=
  mkWorld (objs w) (arrs w) (components w) t (variables w)
    (draggedElement w) (variableForm w) (livePreview w) (modalHidden w)
    (localStorage w) (alerts w).
Definition set_variables (v : list (str * str)) (w : World) : World :=
  mkWorld (objs w) (arrs w) (components w) (templates w) v
    (draggedElement w) (variableForm w) (livePreview w) (modalHidden w)
    (localStorage w) (alerts w).
Definition set_draggedElement (d : option nat) (w : World) : World :=
  mkWorld (objs w) (arrs w) (components w) (templates w) (variables w)
    d (variableForm w) (livePreview w) (modalHidden w)
    (localStorage w) (alerts w).
Definition set_variableForm (f : list str) (w : World) : World :=
  mkWorld (objs w) (arrs w) (components w) (templates w) (variables w)
    (draggedElement w) f (livePreview w) (modalHidden w)
    (localStorage w) (alerts w).
Definition set_livePreview (p : str) (w : World) : World :=
  mkWorld (objs w) (arrs w) (components w) (templates w) (variables w)
    (draggedElement w) (variableForm w) p (modalHidden w)
    (localStorage w) (alerts w).
Definition set_modalHidden (h : bool) (w : World) : World :=
  mkWorld (objs w) (arrs w) (components w) (templates w) (variables w)
    (draggedElement w) (variableForm w) (livePreview w) h
    (localStorage w) (alerts w).
Definition set_localStorage (s : option (list SavedTemplate)) (w : World) : World :=
  mkWorld (objs w) (arrs w) (components w) (templates w) (variables w)
    (draggedElement w) (variableForm w) (livePreview w) (modalHidden w)
    s (alerts w).
Definition set_alerts (a : list str) (w : World) : World :=
  mkWorld (objs w) (arrs w) (components w) (templates w) (variables w)
    (draggedElement w) (variableForm w) (livePreview w) (modalHidden w)
    (localStorage w) a.

(** *** Reading and allocating *)

(** The elements of the array at [a]. *)
Definition elements (w : World) (a : loc) : list loc := arrs w !!! a.

(** The component objects an array refers to, by value. *)
Definition contents (w : World) (a : loc) : list Component.t :=
  (λ l, objs w !!! l) <$> elements w a.

(** The live component list, [state.components], by value. *)
Definition live (w : World) : list Component.t := contents w (components w).

(** The components a template stores, by value. *)
Definition stored (w : World) (t : Template.t) : list Component.t :=
  contents w (Template.components t).

(** A new component object: a location the heap does not use yet. *)
Definition allocObj (c : Component.t) (o : gmap loc Component.t)
  : loc * gmap loc Component.t :=
  let l := fresh (dom o) in (l, <[l := c]> o).

Fixpoint allocObjs (cs : list Component.t) (o : gmap loc Component.t)
  : list loc * gmap loc Component.t :=
  match cs with
  | [] => ([], o)
  | c :: cs' =>
      let '(l, o1) := allocObj c o in
      let '(ls, o2) := allocObjs cs' o1 in
      (l :: ls, o2)
  end.

(** A new array with the given elements. *)
Definition allocArr (ls : list loc) (w : World) : loc * World :=
  let a := fresh (dom (arrs w)) in (a, set_arrs (<[a := ls]> (arrs w)) w).

(** A new array of new component objects with the given values: what
    [JSON.parse] builds from the text of a component list. *)
Definition allocComponents (cs : list Component.t) (w : World) : loc * World :=
  let '(ls, o) := allocObjs cs (objs w) in allocArr ls (set_objs o w).

(** [JSON.parse(JSON.stringify(arr))] for the array at [a]. *)
Definition jsonClone (a : loc) (w : World) : loc * World :=
  allocComponents (contents w a) w.

(** ** The variable engine *)

(** A template literal prints an absent field as [undefined]. *)
Definition interpolate (field : option str) : str :=
  default (js "undefined") field.

(** The [switch (comp.type)] of [updatePreviewAndVariables]; a type without
    a case leaves [componentText] empty. *)
Definition componentText (comp : Component.t) : str :=
  if bool_decide (Component.type comp = js "heading") then
    js "# " ++ interpolate (Component.content comp) ++ [LF; LF]
  else if bool_decide (Component.type comp = js "text-block") then
    interpolate (Component.content comp) ++ [LF; LF]
  else if bool_decide (Component.type comp = js "key-value") then
    interpolate (Component.key comp) ++ js ": "
      ++ interpolate (Component.value comp) ++ [LF]
  else [].

(** The [Set] of detected names after the [forEach] over the components:
    every component text is scanned on its own, in list order. *)
Definition detectVariables (comps : list Component.t) : list str :=
  foldl (λ detected comp,
           foldl (λ set name, setAdd name set) detected
                 (execAll 0 (componentText comp)))
        [] comps.

(** [fullText] after the [forEach]. *)
Definition fullText (comps : list Component.t) : str :=
  concat (componentText <$> comps).

(** [obj.hasOwnProperty(name)] *)
Definition hasOwnProperty (obj : list (str * str)) (name : str) : bool :=
  bool_decide (name ∈ obj.*1).

(** [obj[name]] *)
Fixpoint getProperty (obj : list (str * str)) (name : str) : option str :=
  match obj with
  | [] => None
  | (k, v) :: obj' =>
      if bool_decide (k = name) then Some v else getProperty obj' name
  end.

(** [obj[name] = v]: an existing property keeps its place in the
    enumeration order, a new one goes last. *)
Fixpoint setProperty (obj : list (str * str)) (name v : str) : list (str * str) :=
  match obj with
  | [] => [(name, v)]
  | (k, v') :: obj' =>
      if bool_decide (k = name) then (k, v) :: obj'
      else (k, v') :: setProperty obj' name v
  end.

(** The [forEach] of [renderVariableInputs] on [state.variables]. *)
Definition addMissing (obj : list (str * str)) (names : list str) : list (str * str) :=
  foldl (λ o varName, if hasOwnProperty o varName then o else setProperty o varName [])
        obj names.

Definition renderVariableInputs (names : list str) (w : World) : World :=
  match names with
  | [] => set_variableForm [] w
  | _ => set_variableForm names (set_variables (addMissing (variables w) names) w)
  end.

(** The [for (const key in state.variables)] loop: one global replacement
    per stored name, each on the result of the one before;
    [value || placeholder] is the placeholder itself for an empty value. *)
Definition substituteOne (previewText : str) (entry : str * str) : str :=
  let '(key, value) := entry in
  replacePlaceholder key
    (if bool_decide (value = []) then placeholderOf key else value)
    previewText.

Definition substitute (vars : list (str * str)) (text : str) : str :=
  foldl substituteOne text vars.

Definition updatePreviewAndVariables (w : World) : World :=
  let w1 := renderVariableInputs (detectVariables (live w)) w in
  set_livePreview (trim (substitute (variables w1) (fullText (live w)))) w1.

(** [render()]: [renderCanvas] and [renderTemplates] rebuild page elements
    from the state and leave the state alone. *)
Definition render (w : World) : World := updatePreviewAndVariables w.

(** ** Persistence *)

(** [saveState]; [ok] tells whether [localStorage.setItem] succeeded (a
    failure is caught and logged). *)
Definition saveState (ok : bool) (w : World) : World :=
  if ok then
    set_localStorage
      (Some ((λ t, (Template.id t, Template.name t, stored w t)) <$> templates w)) w
  else w.

Fixpoint parseTemplates (saved : list SavedTemplate) (w : World)
  : list Template.t * World :=
  match saved with
  | [] => ([], w)
  | (i, n, cs) :: saved' =>
      let '(a, w1) := allocComponents cs w in
      let '(ts, w2) := parseTemplates saved' w1 in
      (Template.mk i n a :: ts, w2)
  end.

(** [loadState]: the record, when there is one, is parsed into fresh
    objects. *)
Definition loadState (w : World) : World :=
  match localStorage w with
  | Some saved => let '(ts, w1) := parseTemplates saved w in set_templates ts w1
  | None => w
  end.

(** The world when the page has loaded, before [init()]:
    [state = { components: [], templates: [], variables: {} }]. *)
Definition pageLoaded (storage : option (list SavedTemplate)) : World :=
  mkWorld ∅ {[ 1%positive := [] ]} 1%positive [] [] None [] [] true storage [].

Definition init (storage : option (list SavedTemplate)) : World :=
  render (loadState (pageLoaded storage)).

(** ** Event handlers *)

Definition createNewComponent (type : str) (now : Z) : Component.t :=
  if bool_decide (type = js "heading") then
    Component.mk now type (Some (js "New Heading")) None None
  else if bool_decide (type = js "text-block") then
    Component.mk now type
      (Some (js "This is a new text block. You can use variables like [TOPIC]."))
      None None
  else if bool_decide (type = js "key-value") then
    Component.mk now type None (Some (js "Key")) (Some (js "[VALUE]"))
  else Component.mk now type None None None.

(** A handler either runs to its end or throws. *)
Inductive outcome :=
| Done (w : World)
| Thrown.

(** The [drop] listener of the canvas.  [placeholder] is the index of the
    placeholder among the children of the canvas when there is one,
    [componentType] is [e.dataTransfer?.getData('text/plain')] and [now] is
    [Date.now()]. *)
Definition promptCanvas_drop (placeholder : option nat)
    (componentType : option str) (now : Z) (w : World) : outcome :=
  let arr := elements w (components w) in
  match draggedElement w with
  | Some fromIndex =>
      let toIndex := default (length arr) placeholder in
      match moveWithinList arr fromIndex toIndex with
      | Some arr' =>
          Done (render (set_draggedElement None
                  (set_arrs (<[components w := arr']> (arrs w)) w)))
      | None => Thrown
      end
  | None =>
      match componentType with
      | Some (c :: type') =>
          let '(newComponent, o) :=
            allocObj (createNewComponent (c :: type') now) (objs w) in
          let newIndex := default (length arr) placeholder in
          let arr' := fst (splice arr newIndex 0 [newComponent]) in
          Done (render (set_draggedElement None
                  (set_arrs (<[components w := arr']> (arrs w)) (set_objs o w))))
      | _ => Done (render (set_draggedElement None w))
      end
  end.

(** [component[property] = value] *)
Definition setField (property value : str) (c : Component.t) : Component.t :=
  if bool_decide (property = js "content") then
    Component.mk (Component.id c) (Component.type c) (Some value)
      (Component.key c) (Component.value c)
  else if bool_decide (property = js "key") then
    Component.mk (Component.id c) (Component.type c) (Component.content c)
      (Some value) (Component.value c)
  else if bool_decide (property = js "value") then
    Component.mk (Component.id c) (Component.type c) (Component.content c)
      (Component.key c) (Some value)
  else c.

Definition isContentProperty (property : str) : bool :=
  bool_decide (property = js "content") || bool_decide (property = js "key")
  || bool_decide (property = js "value").

(** [state.components.find(c => c.id == componentId)]: the first element
    with that id. *)
Definition findComponent (w : World) (componentId : Z) : option loc :=
  snd <$> list_find (λ l, Component.id (objs w !!! l) = componentId)
            (elements w (components w)).

(** The [input] listener of the canvas, for an input of the component
    element [componentId] whose [data-property] is [property]. *)
Definition promptCanvas_input (componentId : Z) (property value : str)
    (w : World) : World :=
  match findComponent w componentId with
  | Some component =>
      if isContentProperty property then
        updatePreviewAndVariables
          (set_objs (<[component := setField property value (objs w !!! component)]>
                       (objs w)) w)
      else w
  | None => w
  end.

(** The [click] listener of the canvas, on the delete button of the
    component element [componentId]; [filter] builds a new array. *)
Definition promptCanvas_click (componentId : Z) (w : World) : World :=
  let kept := filter (λ l, Component.id (objs w !!! l) ≠ componentId)
                (elements w (components w)) in
  let '(a, w1) := allocArr kept w in
  render (set_components a w1).

(** The [input] listener of the variable form. *)
Definition variableForm_input (varName value : str) (w : World) : World :=
  match varName with
  | [] => w
  | _ => updatePreviewAndVariables
           (set_variables (setProperty (variables w) varName value) w)
  end.

Definition findTemplate (w : World) (templateId : Z) : option Template.t :=
  snd <$> list_find (λ t, Template.id t = templateId) (templates w).

(** The [click] listener of the template list, on a load button. *)
Definition templateList_load (templateId : Z) (w : World) : World :=
  match findTemplate w templateId with
  | Some template =>
      let '(a, w1) := jsonClone (Template.components template) w in
      render (set_components a w1)
  | None => w
  end.

(** The [click] listener of the template list, on a delete button;
    [confirmed] is the answer to [confirm]. *)
Definition templateList_delete (templateId : Z) (confirmed ok : bool)
    (w : World) : World :=
  if confirmed then
    saveState ok
      (set_templates (filter (λ t, Template.id t ≠ templateId) (templates w)) w)
  else w.

Definition closeModal (w : World) : World := set_modalHidden true w.

(** The [click] listener of the save button. *)
Definition saveTemplateButton_click (w : World) : World :=
  if length (elements w (components w)) =? 0 then
    set_alerts
      (alerts w ++ [js "Cannot save an empty prompt. Add some components first."]) w
  else set_modalHidden false w.

(** The [submit] listener of the save form; [input] is the value of the
    name field. *)
Definition saveTemplateForm_submit (input : str) (now : Z) (ok : bool)
    (w : World) : World :=
  let name := trim input in
  match name with
  | [] => w
  | _ =>
      let '(a, w1) := jsonClone (components w) w in
      let newTemplate := Template.mk now name a in
      closeModal (saveState ok (set_templates (templates w1 ++ [newTemplate]) w1))
  end.

(** ** Events *)

Inductive Event :=
| CanvasDragStart (index : nat)
| DragEnd
| DropOnCanvas (placeholder : option nat) (componentType : option str) (now : Z)
| ComponentInput (componentId : Z) (property value : str)
| DeleteComponent (componentId : Z)
| VariableInput (varName value : str)
| LoadTemplate (templateId : Z)
| DeleteTemplate (templateId : Z) (confirmed ok : bool)
| SaveButton
| SaveSubmit (input : str) (now : Z) (ok : bool)
| CancelSave.

(** The listener an event runs.  An event has a target on the page: a
    [dragstart] on the canvas comes from a rendered component element, whose
    [data-index] is below the length of the list; an [input] on the variable
    form comes from one of its inputs.  The [submit] listener of the save
    form looks at the name only, whatever the dialog and the list are. *)
Definition step (e : Event) (w : World) : outcome :=
  match e with
  | CanvasDragStart index =>
      if index <? length (elements w (components w))
      then Done (set_draggedElement (Some index) w) else Done w
  | DragEnd => Done (set_draggedElement None w)
  | DropOnCanvas placeholder componentType now =>
      promptCanvas_drop placeholder componentType now w
  | ComponentInput componentId property value =>
      Done (promptCanvas_input componentId property value w)
  | DeleteComponent componentId => Done (promptCanvas_click componentId w)
  | VariableInput varName value =>
      if bool_decide (varName ∈ variableForm w)
      then Done (variableForm_input varName value w) else Done w
  | LoadTemplate templateId => Done (templateList_load templateId w)
  | DeleteTemplate templateId confirmed ok =>
      Done (templateList_delete templateId confirmed ok w)
  | SaveButton => Done (saveTemplateButton_click w)
  | SaveSubmit input now ok => Done (saveTemplateForm_submit input now ok w)
  | CancelSave => Done (closeModal w)
  end.

(** The worlds the page can be in: [init()] on any stored record, followed
    by events whose listeners ran to their end. *)
Inductive reachable : World → Prop :=
| reachable_init storage : reachable (init storage)
| reachable_step w e w' : reachable w → step e w = Done w' → reachable w'.

(** * The specification's vocabulary *)

(** A variable name: one or more uppercase ASCII letters or underscores. *)
Definition isName (n : str) : bool :=
  match n with
  | [] => false
  | _ => forallb isNameChar n
  end.

(** The text [s] has the variable token [[n]] at position [p]. *)
Definition tokenAt (n s : str) (p : nat) : Prop :=
  isName n = true ∧ ∃ post, drop p s = placeholderOf n ++ post.

(** Every position of [s] tried in turn, from position [p] on: the
    positions where the pattern matches, with the captured names. *)
Fixpoint tokensFrom (p : nat) (s : str) : list (nat * str) :=
  match s with
  | [] => []
  | _ :: rest =>
      match matchAt s with
      | Some n => (p, n) :: tokensFrom (S p) rest
      | None => tokensFrom (S p) rest
      end
  end.

(** Each distinct element once, in order of first appearance. *)
Definition dedupe (names : list str) : list str :=
  foldl (λ set name, setAdd name set) [] names.

(** The text [tok] occurs in [s]. *)
Definition occursIn (tok s : str) : Prop := ∃ pre post, s = pre ++ tok ++ post.

(** No square bracket in [n]. *)
Definition bracketFree (n : str) : Prop :=
  Forall (λ c, c ≠ "["%char ∧ c ≠ "]"%char) n.

(** Every key of the variable mapping is a variable name. *)
Definition namesOnly (vars : list (str * str)) : Prop :=
  Forall (λ entry, isName entry.1 = true) vars.

(** ** Runs *)

(** The listeners of a sequence of events, one after the other. *)
Fixpoint runEvents (es : list Event) (w : World) : outcome :=
  match es with
  | [] => Done w
  | e :: es' =>
      match step e w with
      | Done w' => runEvents es' w'
      | Thrown => Thrown
      end
  end.

(** The world a run ended in. *)
Definition worldOf (o : outcome) : World :=
  match o with
  | Done w => w
  | Thrown => pageLoaded None
  end.

(** The page after the specification's example: a heading is dropped on the
    empty canvas, its content is set to [Topic: [TOPIC]], and the variable
    [TOPIC] is given the value [Rust]. *)
Definition topicWorld : World :=
  worldOf (runEvents
    [DropOnCanvas None (Some (js "heading")) 1700000000000;
     ComponentInput 1700000000000 (js "content") (js "Topic: [TOPIC]");
     VariableInput (js "TOPIC") (js "Rust")]
    (init None)).

(** The substitution as the specification words it: every token of the
    rendered text whose name has a non-empty stored value is replaced by
    that value, in one pass over the rendered text; everything else, the
    tokens of names with an empty stored value included, stays. *)
Fixpoint simultaneous (vars : list (str * str)) (skip : nat) (s : str) : str :=
  match s with
  | [] => []
  | c :: rest =>
      match skip with
      | S k => simultaneous vars k rest
      | 0 =>
          match matchAt s with
          | Some n =>
              match getProperty vars n with
              | Some (v :: vs) => (v :: vs) ++ simultaneous vars (S (length n)) rest
              | _ => c :: simultaneous vars 0 rest
              end
          | None => c :: simultaneous vars 0 rest
          end
      end
  end.

(** A text block [[A] [B]] where the value stored for [A] is the token of
    [B]. *)
Definition chainedWorld : World :=
  worldOf (runEvents
    [DropOnCanvas None (Some (js "text-block")) 1700000000000;
     ComponentInput 1700000000000 (js "content") (js "[A] [B]");
     VariableInput (js "A") (js "[B]");
     VariableInput (js "B") (js "x")]
    (init None)).

(** A text block [[FOO]] where the value stored for [FOO] holds a dollar
    sign. *)
Definition dollarWorld : World :=
  worldOf (runEvents
    [DropOnCanvas None (Some (js "text-block")) 1700000000000;
     ComponentInput 1700000000000 (js "content") (js "[FOO]");
     VariableInput (js "FOO") (js "US$$ 5 ($&)")]
    (init None)).

(** ** Heap discipline *)

(** The live array and the arrays of the templates are allocated, no array
    of a template is the live array, no component object is in the live
    array twice, every object an array refers to is allocated, and no
    object of a template is in the live array. *)
Definition wellFormed (w : World) : Prop :=
  components w ∈ dom (arrs w)
  ∧ NoDup (elements w (components w))
  ∧ (∀ l, l ∈ elements w (components w) → l ∈ dom (objs w))
  ∧ (∀ t, t ∈ templates w →
       Template.components t ∈ dom (arrs w)
       ∧ Template.components t ≠ components w
       ∧ (∀ l, l ∈ elements w (Template.components t) →
            l ∈ dom (objs w) ∧ l ∉ elements w (components w))).

(** The ids of the live components, in list order. *)
Definition liveIds (w : World) : list Z := Component.id <$> live w.

(** What a listener may change in the heap of [w]: the live array, the live
    component objects, and what it allocates. *)
Definition preserves (w w' : World) : Prop :=
  (∀ a, a ∈ dom (arrs w) → a ≠ components w → arrs w' !! a = arrs w !! a)
  ∧ (∀ l, l ∈ dom (objs w) → l ∉ elements w (components w) →
       objs w' !! l = objs w !! l).

(** The events that edit the live component list: drags and drops on the
    canvas (insert and move), deletions and field edits. *)
Definition liveMutation (e : Event) : Prop :=
  match e with
  | CanvasDragStart _ | DragEnd | DropOnCanvas _ _ _
  | ComponentInput _ _ _ | DeleteComponent _ => True
  | _ => False
  end.

(** The component list after [f] is applied to its first element with the
    given id, if there is one. *)
Fixpoint updateFirst (componentId : Z) (f : Component.t → Component.t)
    (cs : list Component.t) : list Component.t :=
  match cs with
  | [] => []
  | c :: cs' =>
      if bool_decide (Component.id c = componentId) then f c :: cs'
      else c :: updateFirst componentId f cs'
  end.

(** The kinds of component the palette offers. *)
Definition recognizedKinds : list str :=
  [js "heading"; js "text-block"; js "key-value"].

(** The content fields of a kind, as the specification has them: [content]
    for a heading and a text block, [key] and [value] for a key/value
    pair. *)
Definition validField (type property : str) : bool :=
  if bool_decide (type = js "heading") || bool_decide (type = js "text-block")
  then bool_decide (property = js "content")
  else if bool_decide (type = js "key-value")
  then bool_decide (property = js "key") || bool_decide (property = js "value")
  else false.

(** The page after one heading was dropped on the empty canvas. *)
Definition headingWorld : World :=
  worldOf (runEvents [DropOnCanvas None (Some (js "heading")) 1700000000000]
             (init None)).

(** ** Operations on the component list *)

(** The list operations of the specification, as the gestures that perform
    them: a drop from the palette, a click on a delete button, an edit of an
    input of a component. *)
Inductive ListOp :=
| InsertAt (placeholder : option nat) (type : str) (now : Z)
| RemoveById (componentId : Z)
| UpdateField (componentId : Z) (property value : str).

Definition eventOf (op : ListOp) : Event :=
  match op with
  | InsertAt placeholder type now => DropOnCanvas placeholder (Some type) now
  | RemoveById componentId => DeleteComponent componentId
  | UpdateField componentId property value =>
      ComponentInput componentId property value
  end.

(** The clock readings of the inserts of a run (a drop with an empty
    payload inserts nothing). *)
Fixpoint clocks (ops : list ListOp) : list Z :=
  match ops with
  | [] => []
  | InsertAt _ (_ :: _) now :: ops' => now :: clocks ops'
  | _ :: ops' => clocks ops'
  end.

(** The number of inserts performed. *)
Definition inserts (ops : list ListOp) : nat := length (clocks ops).

(** The number of removes of a run from [w] that found their id in the
    list. *)
Fixpoint matchedRemoves (ops : list ListOp) (w : World) : nat :=
  match ops with
  | [] => 0
  | op :: ops' =>
      match op with
      | RemoveById componentId =>
          if bool_decide (componentId ∈ liveIds w) then 1 else 0
      | _ => 0
      end + matchedRemoves ops' (worldOf (step (eventOf op) w))
  end.

(** The save gesture: a click on the save button, then the submission of
    the form with a name. *)
Definition saveAttempt (input : str) (now : Z) (ok : bool) (w : World) : outcome :=
  runEvents [SaveButton; SaveSubmit input now ok] w.

(** The keys of the variable mapping and the inputs of the variable form
    are variable names. *)
Definition variablesNamed (w : World) : Prop :=
  namesOnly (variables w) ∧ Forall (λ n, isName n = true) (variableForm w).

(** * The rest of the page script *)

(** ** [escapeHTML] *)

Definition DQUOTE : ascii := ascii_of_nat 34.

(** The replacer function of [escapeHTML]: the entity of one of the five
    characters of the class (ampersand, angle brackets, double and single
    quote). *)
Definition escapeChar (c : ascii) : str :=
  if bool_decide (c = "&"%char) then js "&amp;"
  else if bool_decide (c = "<"%char) then js "&lt;"
  else if bool_decide (c = ">"%char) then js "&gt;"
  else if bool_decide (c = DQUOTE) then js "&quot;"
  else if bool_decide (c = "'"%char) then js "&#39;"
  else [c].

(** [str.replace(regex, replacer)] with the global flag: every character of
    the class is replaced by what the replacer returns for it (the result of
    a replacer is taken as it is), the others stay. *)
Definition escapeHTML (s : str) : str := concat (escapeChar <$> s).

(** ** [createComponentElement] and [renderCanvas] *)

(** [type.replace('-', ' ')]: a pattern that is a string replaces its first
    occurrence only. *)
Fixpoint replaceHyphen (s : str) : str :=
  match s with
  | [] => []
  | c :: s' =>
      if bool_decide (c = "-"%char) then " "%char :: s' else c :: replaceHyphen s'
  end.

(** A text that [innerHTML] parses, inside an element, to a text node and
    nothing else: only [<] opens a tag there (a character reference gives a
    character, not an element). *)
Definition isPlainText (s : str) : bool :=
  forallb (λ c, negb (bool_decide (c = "<"%char))) s.

Module CanvasElement.
(** A component element of the canvas: its [data-component-id], its
    [data-index], the markup written into its title, which is the type of
    the component as it is, not escaped, and for each input of
    [contentHtml] the [data-property] and the text written as its value. *)
Record t := mk {
  componentId : Z;
  index : nat;
  title : str;
  body : list (str * str);
}.

(** The inputs of class [component-input] inside the element.  When the
    title is a plain text they are the inputs of [contentHtml].  A title
    with a [<] is parsed as markup of its own: it can add inputs, or
    swallow those of [contentHtml]; what the HTML parser makes of it is
    outside this development, hence [None]. *)
Definition inputs (el : t) : option (list (str * str)) :=
  if isPlainText (title el) then Some (body el) else None.
End CanvasElement.

(** [escapeHTML(field || '')] *)
Definition shownValue (field : option str) : str := escapeHTML (default [] field).

(** The [switch (component.type)] of [createComponentElement]: the inputs
    of [contentHtml]. *)
Definition componentInputs (component : Component.t) : list (str * str) :=
  if bool_decide (Component.type component = js "heading") then
    [(js "content", shownValue (Component.content component))]
  else if bool_decide (Component.type component = js "text-block") then
    [(js "content", shownValue (Component.content component))]
  else if bool_decide (Component.type component = js "key-value") then
    [(js "key", shownValue (Component.key component));
     (js "value", shownValue (Component.value component))]
  else [].

Definition createComponentElement (component : Component.t) (index : nat)
  : CanvasElement.t :=
  CanvasElement.mk (Component.id component) index
    (replaceHyphen (Component.type component)) (componentInputs component).

(** The component elements [renderCanvas] puts on the canvas (an empty list
    gets a message instead). *)
Definition renderCanvas (w : World) : list CanvasElement.t :=
  imap (λ index component, createComponentElement component index) (live w).

(** ** Derived notions *)

(** What [saveState] would write for the template store of [w]. *)
Definition snapshot (w : World) : list SavedTemplate :=
  (λ t, (Template.id t, Template.name t, stored w t)) <$> templates w.

(** [parsedState.templates || []] for the record of [localStorage]. *)
Definition persisted (w : World) : list SavedTemplate :=
  default [] (localStorage w).

(** The events whose write to [localStorage], if they make one,
    succeeds. *)
Definition writeSucceeds (e : Event) : Prop :=
  match e with
  | DeleteTemplate _ _ ok | SaveSubmit _ _ ok => ok = true
  | _ => True
  end.

(** The variable form, the mapping and the preview are those of the
    components: the form lists the detected names, each of them has an
    entry, and the preview is the substituted, trimmed text. *)
Definition inSync (w : World) : Prop :=
  variableForm w = detectVariables (live w)
  ∧ Forall (λ n, hasOwnProperty (variables w) n = true) (detectVariables (live w))
  ∧ livePreview w = trim (substitute (variables w) (fullText (live w))).

(** The array at [a] and the objects it refers to are allocated. *)
Definition allocated (w : World) (a : loc) : Prop :=
  a ∈ dom (arrs w) ∧ ∀ l, l ∈ elements w a → l ∈ dom (objs w).

(** The page of the example after its prompt was saved as a template. *)
Definition savedWorld : World :=
  worldOf (saveAttempt (js "topic") 1700000000001 true topicWorld).

(** * Properties *)

(** ** Reordering *)

Section ArrayFacts.
Context {A : Type}.
Implicit Types arr pre post : list A.

Lemma splice_remove_at (pre post : list A) (x : A) :
  splice (pre ++ x :: post) (length pre) 1 [] = (pre ++ post, [x]).
Proof.
  unfold splice. rewrite length_app. cbn [length].
  replace (length pre `min` (length pre + S (length post))) with (length pre) by lia.
  replace (1 `min` (length pre + S (length post) - length pre)) with 1 by lia.
  rewrite take_app_length, <- drop_drop, drop_app_length. done.
Qed.

Lemma splice_insert_at (pre post : list A) (x : A) :
  fst (splice (pre ++ post) (length pre) 0 [x]) = pre ++ x :: post.
Proof.
  unfold splice. cbn [fst]. rewrite length_app.
  replace (length pre `min` (length pre + length post)) with (length pre) by lia.
  replace (0 `min` _) with 0 by lia.
  rewrite Nat.add_0_r, take_app_length, drop_app_length. done.
Qed.

Lemma inverseIndex_normalized (current target : nat) :
  normalizedIndex current (inverseIndex current target) = target.
Proof.
  unfold normalizedIndex, inverseIndex.
  destruct (current <? target) eqn:E.
  - apply Nat.ltb_lt in E.
    destruct (current <? S target) eqn:E'; [lia|].
    apply Nat.ltb_ge in E'. lia.
  - by rewrite E.
Qed.

Lemma moveWithinList_backward (p1 p2 post : list A) (x : A) :
  p2 ≠ [] →
  moveWithinList (p1 ++ p2 ++ x :: post) (length (p1 ++ p2)) (length p1)
  = Some (p1 ++ x :: p2 ++ post).
Proof.
  intros Hne. unfold moveWithinList, normalizedIndex.
  assert (0 < length p2) by (destruct p2; [done | cbn; lia]).
  rewrite length_app.
  destruct (length p1 + length p2 <? length p1) eqn:E1;
    [apply Nat.ltb_lt in E1; lia|].
  destruct (length p1 + length p2 =? length p1) eqn:E2;
    [apply Nat.eqb_eq in E2; lia|].
  rewrite <- length_app, (assoc_L (++) p1 p2), splice_remove_at.
  rewrite <- (assoc_L (++) p1 p2), splice_insert_at. done.
Qed.

Lemma moveWithinList_forward (pre q1 q2 : list A) (x : A) :
  q1 ≠ [] →
  moveWithinList (pre ++ x :: q1 ++ q2) (length pre) (S (length (pre ++ q1)))
  = Some (pre ++ q1 ++ x :: q2).
Proof.
  intros Hne. unfold moveWithinList, normalizedIndex.
  assert (0 < length q1) by (destruct q1; [done | cbn; lia]).
  rewrite length_app.
  destruct (length pre <? S (length pre + length q1)) eqn:E1;
    [|apply Nat.ltb_ge in E1; lia].
  replace (S (length pre + length q1) - 1) with (length (pre ++ q1))
    by (rewrite length_app; lia).
  destruct (length pre =? length (pre ++ q1)) eqn:E2;
    [apply Nat.eqb_eq in E2; rewrite length_app in E2; lia|].
  rewrite splice_remove_at.
  rewrite (assoc_L (++) pre q1 q2), splice_insert_at.
  by rewrite <- (assoc_L (++)).
Qed.
Lemma moveWithinList_same arr (i j : nat) :
  normalizedIndex i j = i → moveWithinList arr i j = Some arr.
Proof. intros E. unfold moveWithinList. by rewrite E, Nat.eqb_refl. Qed.

Lemma split_at arr (n : nat) :
  n ≤ length arr → ∃ l1 l2, arr = l1 ++ l2 ∧ length l1 = n.
Proof.
  intros Hn. exists (take n arr), (drop n arr).
  split; [by rewrite take_drop | rewrite length_take; lia].
Qed.

Lemma split_elem arr (i : nat) :
  i < length arr → ∃ pre x post, arr = pre ++ x :: post ∧ length pre = i.
Proof.
  intros Hi. destruct (lookup_lt_is_Some_2 arr i Hi) as [x Hx].
  exists (take i arr), x, (drop (S i) arr). split.
  - by rewrite take_drop_middle.
  - rewrite length_take. lia.
Qed.

(** C1. Moving the element at a valid position [i] to a valid placeholder
    position [j] succeeds, puts that element at the normalized index and
    keeps the order of the others; moving it back from there, with the
    target index adjusted for the shift, restores the original list; and
    a move whose normalized target is the source position changes
    nothing. *)
Theorem moveWithinList_round_trip arr (i j : nat) :
  i < length arr → j ≤ length arr →
  ∃ arr',
    moveWithinList arr i j = Some arr'
    ∧ arr' !! normalizedIndex i j = arr !! i
    ∧ delete (normalizedIndex i j) arr' = delete i arr
    ∧ moveWithinList arr' (normalizedIndex i j)
        (inverseIndex (normalizedIndex i j) i) = Some arr
    ∧ (normalizedIndex i j = i → arr' = arr).
Proof.
  intros Hi Hj.
  destruct (decide (normalizedIndex i j = i)) as [E|E].
  { exists arr. rewrite E. split_and!; try done.
    - by apply moveWithinList_same.
    - apply moveWithinList_same, inverseIndex_normalized. }
  destruct (split_elem arr i Hi) as (pre & x & post & -> & Hpre).
  unfold normalizedIndex in E |- *. unfold inverseIndex.
  destruct (i <? j) eqn:Hij.
  - apply Nat.ltb_lt in Hij.
    rewrite length_app in Hj. cbn in Hj.
    destruct (split_at post (j - 1 - i)) as (q1 & q2 & -> & Hq1); [lia|].
    assert (q1 ≠ []) by (intros ->; cbn in Hq1; lia).
    assert (Hj' : j = S (length (pre ++ q1))) by (rewrite length_app; lia).
    assert (Hj1 : j - 1 = length (pre ++ q1)) by lia.
    exists (pre ++ q1 ++ x :: q2).
    rewrite Hj1. rewrite <- Hpre.
    destruct (length (pre ++ q1) <? length pre) eqn:E';
      [apply Nat.ltb_lt in E'; rewrite length_app in E'; lia|].
    split_and!.
    + rewrite Hj'. by apply moveWithinList_forward.
    + rewrite (assoc_L (++) pre q1), !list_lookup_middle; done.
    + rewrite (assoc_L (++) pre q1), !delete_middle. by rewrite (assoc_L (++)).
    + by apply moveWithinList_backward.
    + intros E''. rewrite length_app in E''.
      destruct q1; [done | cbn in E''; lia].
  - apply Nat.ltb_ge in Hij.
    destruct (split_at pre j) as (p1 & p2 & -> & Hp1); [lia|].
    assert (p2 ≠ []).
    { intros ->. rewrite app_nil_r in Hpre. lia. }
    exists (p1 ++ x :: p2 ++ post).
    rewrite <- Hpre, <- Hp1.
    destruct (length p1 <? length (p1 ++ p2)) eqn:E';
      [|apply Nat.ltb_ge in E'; rewrite length_app in E';
        destruct p2; [done | cbn in E'; lia]].
    split_and!.
    + rewrite <- (assoc_L (++) p1 p2). by apply moveWithinList_backward.
    + rewrite !list_lookup_middle; done.
    + rewrite !delete_middle. by rewrite (assoc_L (++)).
    + rewrite <- (assoc_L (++) p1 p2). by apply moveWithinList_forward.
    + intros E''. rewrite length_app in E''.
      destruct p2; [done | cbn in E''; lia].
Qed.
End ArrayFacts.

(** The move of the specification's example: A dragged to the placeholder
    between B and C. *)
Lemma moveWithinList_round_trip_example :
  0 < length [1; 2; 3] ∧ 2 ≤ length [1; 2; 3] ∧
  ∃ arr',
    moveWithinList [1; 2; 3] 0 2 = Some arr'
    ∧ arr' !! normalizedIndex 0 2 = [1; 2; 3] !! 0
    ∧ delete (normalizedIndex 0 2) arr' = delete 0 [1; 2; 3]
    ∧ moveWithinList arr' (normalizedIndex 0 2)
        (inverseIndex (normalizedIndex 0 2) 0) = Some [1; 2; 3]
    ∧ (normalizedIndex 0 2 = 0 → arr' = [1; 2; 3]).
Proof.
  split; [cbn; lia|]. split; [cbn; lia|].
  apply (moveWithinList_round_trip [1; 2; 3] 0 2); cbn; lia.
Defined.

(** ** Variable detection *)

Lemma isNameChar_open : isNameChar "["%char = false.
Proof. reflexivity. Qed.

Lemma isNameChar_close : isNameChar "]"%char = false.
Proof. reflexivity. Qed.

Lemma isNameChar_LF : isNameChar LF = false.
Proof. reflexivity. Qed.

Lemma isName_chars (n : str) : isName n = true → Forall (λ c, isNameChar c = true) n.
Proof.
  destruct n as [|c n]; [done|]. unfold isName.
  intros H. apply Forall_forall. intros x Hx.
  rewrite forallb_forall in H. apply H. by apply list_elem_of_In.
Qed.

Lemma isName_intro (n : str) :
  n ≠ [] → Forall (λ c, isNameChar c = true) n → isName n = true.
Proof.
  intros Hn H. destruct n as [|c n]; [done|]. unfold isName.
  apply forallb_forall. intros x Hx.
  rewrite Forall_forall in H. apply H. by apply list_elem_of_In.
Qed.

Lemma nameRun_split (s n r : str) :
  nameRun s = (n, r) → s = n ++ r ∧ Forall (λ c, isNameChar c = true) n.
Proof.
  revert n r. induction s as [|c s IH]; intros n r; cbn.
  - intros [= <- <-]. by split.
  - destruct (isNameChar c) eqn:Hc.
    + destruct (nameRun s) as [n' r'] eqn:E. intros [= <- <-].
      destruct (IH _ _ eq_refl) as [-> Hn]. split; [done|]. by constructor.
    + intros [= <- <-]. by split.
Qed.

Lemma nameRun_stop (n r : str) (c : ascii) :
  Forall (λ c, isNameChar c = true) n → isNameChar c = false →
  nameRun (n ++ c :: r) = (n, c :: r).
Proof.
  intros Hn Hc. induction Hn as [|x n Hx Hn IH]; cbn.
  - by rewrite Hc.
  - by rewrite Hx, IH.
Qed.

(** What one anchored attempt of the pattern recognises. *)
Lemma matchAt_Some (s n : str) :
  matchAt s = Some n ↔ isName n = true ∧ ∃ post, s = placeholderOf n ++ post.
Proof.
  split.
  - destruct s as [|c s]; [done|]. cbn.
    case_bool_decide as Hc; [subst c | done].
    destruct (nameRun s) as [[|x n'] [|d r]] eqn:E; try done.
    case_bool_decide as Hd; [subst d | done].
    intros [= <-]. apply nameRun_split in E as [-> Hn].
    split; [by apply isName_intro|]. exists r. unfold placeholderOf.
    cbn. by rewrite <- (assoc_L (++)).
  - intros [Hn [post ->]]. unfold placeholderOf. cbn.
    rewrite <- (assoc_L (++)). cbn.
    rewrite (nameRun_stop n post "]"%char (isName_chars n Hn) isNameChar_close).
    destruct n; [done|]. done.
Qed.

Lemma matchAt_not_open (c : ascii) (s : str) :
  c ≠ "["%char → matchAt (c :: s) = None.
Proof. intros Hc. cbn. by case_bool_decide. Qed.

Lemma tokensFrom_elem (s : str) (p q : nat) (n : str) :
  (q, n) ∈ tokensFrom p s ↔ p ≤ q ∧ matchAt (drop (q - p) s) = Some n.
Proof.
  revert p. induction s as [|c s IH]; intros p.
  - cbn. rewrite drop_nil. split; [by intros ?%elem_of_nil | by intros [_ ?]].
  - cbn [tokensFrom].
    assert (Hrest : (q, n) ∈ tokensFrom (S p) s
                    ↔ p < q ∧ matchAt (drop (q - p) (c :: s)) = Some n).
    { rewrite IH. split.
      - intros [Hq Hm]. split; [lia|].
        replace (q - p) with (S (q - S p)) by lia. done.
      - intros [Hq Hm]. split; [lia|].
        replace (q - p) with (S (q - S p)) in Hm by lia. done. }
    destruct (matchAt (c :: s)) as [m|] eqn:E.
    + rewrite elem_of_cons, Hrest. split.
      * intros [[= -> ->] | [Hq Hm]]; [|split; [lia|done]].
        split; [lia|]. by rewrite Nat.sub_diag.
      * intros [Hq Hm]. destruct (decide (q = p)) as [->|Hne].
        -- left. rewrite Nat.sub_diag in Hm. cbn [drop] in Hm. congruence.
        -- right. split; [lia|done].
    + rewrite Hrest. split.
      * intros [Hq Hm]. split; [lia|done].
      * intros [Hq Hm]. split; [|done].
        destruct (decide (q = p)) as [->|Hne]; [|lia].
        rewrite Nat.sub_diag in Hm. cbn [drop] in Hm. congruence.
Qed.

(** The positions the scan reports are exactly the token positions. *)
Lemma tokensFrom_tokenAt (s : str) (q : nat) (n : str) :
  (q, n) ∈ tokensFrom 0 s ↔ tokenAt n s q.
Proof.
  rewrite tokensFrom_elem, Nat.sub_0_r, matchAt_Some. unfold tokenAt.
  split; [intros [_ H]; exact H | intros H; split; [lia | exact H]].
Qed.

Lemma tokensFrom_ge (s : str) (p : nat) (x : nat * str) :
  x ∈ tokensFrom p s → p ≤ x.1.
Proof. destruct x as [q n]. rewrite tokensFrom_elem. by intros [? _]. Qed.

(** The scan reports positions in increasing order. *)
Lemma tokensFrom_sorted (s : str) (p q : nat) (n : str) (l1 l2 : list (nat * str)) :
  tokensFrom p s = l1 ++ (q, n) :: l2 →
  (∀ x, x ∈ l1 → x.1 < q) ∧ (∀ x, x ∈ l2 → q < x.1).
Proof.
  revert p l1. induction s as [|c s IH]; intros p l1; cbn [tokensFrom].
  - by destruct l1.
  - destruct (matchAt (c :: s)) as [m|]; [|by apply IH].
    destruct l1 as [|y l1]; cbn.
    + intros [= <- <- <-]. split; [by intros x ?%elem_of_nil|].
      intros x Hx%tokensFrom_ge. lia.
    + intros [= <- E]. pose proof (IH _ _ E) as [H1 H2]. split; [|done].
      intros x [->|Hx]%elem_of_cons; [|by apply H1].
      assert ((q, n) ∈ tokensFrom (S p) s) as Hq%tokensFrom_ge
        by (rewrite E; apply elem_of_app; right; left).
      cbn in *. lia.
Qed.

(** No token starts where there is no opening bracket. *)
Lemma tokensFrom_skip (u v : str) (p : nat) :
  Forall (λ c, c ≠ "["%char) u →
  tokensFrom p (u ++ v) = tokensFrom (p + length u) v.
Proof.
  intros Hu. revert p. induction Hu as [|c u Hc Hu IH]; intros p; cbn.
  - by rewrite Nat.add_0_r.
  - case_bool_decide; [done|]. rewrite IH. f_equal. lia.
Qed.

Lemma execAll_drop (k : nat) (s : str) : execAll k s = execAll 0 (drop k s).
Proof.
  revert k. induction s as [|c s IH]; intros [|k]; try done.
  cbn [execAll drop]. apply IH.
Qed.

Lemma name_chars_not_open (n : str) :
  Forall (λ c, isNameChar c = true) n → Forall (λ c, c ≠ "["%char) n.
Proof.
  intros H. eapply Forall_impl; [exact H|].
  intros c Hc ->. by rewrite isNameChar_open in Hc.
Qed.

(** Resuming at [lastIndex] finds what trying every position finds: no
    token starts inside a token. *)
Lemma execAll_tokens (s : str) (p : nat) : execAll 0 s = (tokensFrom p s).*2.
Proof.
  remember (length s) as k eqn:Hk.
  revert s p Hk. induction (lt_wf k) as [k _ IH]; intros s p ->.
  destruct s as [|c s]; [done|]. cbn [execAll tokensFrom].
  destruct (matchAt (c :: s)) as [n|] eqn:E.
  - apply matchAt_Some in E as [Hn [post E]].
    unfold placeholderOf in E. cbn in E. rewrite <- (assoc_L (++)) in E.
    injection E as -> ->. cbn [fmap list_fmap snd]. f_equal.
    rewrite execAll_drop.
    replace (S (length n)) with (length (n ++ ["]"%char]))
      by (rewrite length_app; cbn; lia).
    replace (n ++ "]"%char :: post) with ((n ++ ["]"%char]) ++ post)
      by (by rewrite <- (assoc_L (++))).
    rewrite drop_app_length, tokensFrom_skip.
    + eapply IH; [|done]. cbn. rewrite !length_app. cbn. lia.
    + apply Forall_app. split.
      * by apply name_chars_not_open, isName_chars.
      * by repeat constructor.
  - eapply IH; [|done]. cbn. lia.
Qed.

Lemma nameRun_app_closed (t t2 : str) (c : ascii) :
  isNameChar c = false →
  ∃ n r, nameRun (t ++ [c]) = (n, r ++ [c])
         ∧ nameRun ((t ++ [c]) ++ t2) = (n, (r ++ [c]) ++ t2).
Proof.
  intros Hc. induction t as [|a t (n & r & E1 & E2)]; cbn.
  - rewrite Hc. by exists [], [].
  - rewrite E1, E2. destruct (isNameChar a).
    + by exists (a :: n), r.
    + by exists [], (a :: t).
Qed.

Lemma matchAt_app_closed (t t2 : str) (c : ascii) :
  isNameChar c = false → c ≠ "["%char →
  matchAt ((t ++ [c]) ++ t2) = matchAt (t ++ [c]).
Proof.
  intros Hc Hc'. destruct t as [|a t]; cbn.
  - by case_bool_decide.
  - case_bool_decide; [|done].
    destruct (nameRun_app_closed t t2 c Hc) as (n & r & -> & ->).
    destruct n; [done|]. by destruct r.
Qed.

(** A text that ends with a character outside names and brackets closes
    every token it holds: scanning it together with what follows is
    scanning the two one after the other. *)
Lemma tokensFrom_app_closed (t t2 : str) (c : ascii) (p : nat) :
  isNameChar c = false → c ≠ "["%char →
  tokensFrom p ((t ++ [c]) ++ t2)
  = tokensFrom p (t ++ [c]) ++ tokensFrom (p + length (t ++ [c])) t2.
Proof.
  intros Hc Hc'. revert p. induction t as [|a t IH]; intros p.
  - change (([] ++ [c]) ++ t2) with (c :: t2). change ([] ++ [c]) with [c].
    cbn [tokensFrom]. rewrite !matchAt_not_open by done. cbn.
    f_equal. lia.
  - change (((a :: t) ++ [c]) ++ t2) with (a :: (t ++ [c]) ++ t2).
    change ((a :: t) ++ [c]) with (a :: t ++ [c]).
    cbn [tokensFrom length].
    change (a :: (t ++ [c]) ++ t2) with (((a :: t) ++ [c]) ++ t2).
    change (a :: t ++ [c]) with ((a :: t) ++ [c]).
    rewrite matchAt_app_closed by done.
    rewrite IH. replace (S p + length (t ++ [c])) with (p + S (length (t ++ [c]))) by lia.
    by destruct (matchAt ((a :: t) ++ [c])).
Qed.

(** Every component text is empty or ends with a line feed. *)
Lemma componentText_closed (comp : Component.t) :
  componentText comp = [] ∨ ∃ t, componentText comp = t ++ [LF].
Proof.
  unfold componentText. repeat case_bool_decide; [right..|by left].
  - exists (js "# " ++ interpolate (Component.content comp) ++ [LF]).
    by rewrite <- !(assoc_L (++)).
  - exists (interpolate (Component.content comp) ++ [LF]).
    by rewrite <- !(assoc_L (++)).
  - exists (interpolate (Component.key comp) ++ js ": "
            ++ interpolate (Component.value comp)).
    by rewrite <- !(assoc_L (++)).
Qed.

Lemma LF_not_open : LF ≠ "["%char.
Proof. done. Qed.

Lemma execAll_app_componentText (comp : Component.t) (rest : str) :
  execAll 0 (componentText comp ++ rest)
  = execAll 0 (componentText comp) ++ execAll 0 rest.
Proof.
  destruct (componentText_closed comp) as [-> | [t ->]]; [done|].
  rewrite !(execAll_tokens _ 0).
  rewrite (tokensFrom_app_closed t rest LF 0 isNameChar_LF LF_not_open).
  rewrite fmap_app. f_equal.
  transitivity (execAll 0 rest); [symmetry|]; apply execAll_tokens.
Qed.

(** Scanning the component texts one by one finds what one scan of the
    concatenated text finds. *)
Lemma execAll_fullText (comps : list Component.t) :
  concat ((λ comp, execAll 0 (componentText comp)) <$> comps)
  = execAll 0 (fullText comps).
Proof.
  unfold fullText. induction comps as [|comp comps IH]; [done|].
  cbn. by rewrite execAll_app_componentText, IH.
Qed.

Lemma foldl_setAdd_concat {B} (g : B → list str) (l : list B) (acc : list str) :
  foldl (λ detected x, foldl (λ set name, setAdd name set) detected (g x)) acc l
  = foldl (λ set name, setAdd name set) acc (concat (g <$> l)).
Proof.
  revert acc. induction l as [|x l IH]; intros acc; [done|].
  cbn. by rewrite foldl_app, IH.
Qed.

Lemma detectVariables_dedupe (comps : list Component.t) :
  detectVariables comps = dedupe (execAll 0 (fullText comps)).
Proof.
  unfold detectVariables, dedupe.
  by rewrite (foldl_setAdd_concat (λ comp, execAll 0 (componentText comp))),
    execAll_fullText.
Qed.

Lemma dedupe_snoc (l : list str) (x : str) :
  dedupe (l ++ [x]) = setAdd x (dedupe l).
Proof. unfold dedupe. by rewrite foldl_app. Qed.

Lemma elem_of_setAdd (x y : str) (set : list str) :
  x ∈ setAdd y set ↔ x = y ∨ x ∈ set.
Proof.
  unfold setAdd. case_bool_decide.
  - split; [by right | by intros [->|?]].
  - rewrite elem_of_app, list_elem_of_singleton. tauto.
Qed.

Lemma NoDup_setAdd (y : str) (set : list str) : NoDup set → NoDup (setAdd y set).
Proof.
  intros H. unfold setAdd. case_bool_decide; [done|].
  apply NoDup_app. split_and!; [done| |apply NoDup_singleton].
  intros x Hx ->%list_elem_of_singleton. done.
Qed.

Lemma elem_of_dedupe (l : list str) (x : str) : x ∈ dedupe l ↔ x ∈ l.
Proof.
  induction l as [|y l IH] using rev_ind; [done|].
  rewrite dedupe_snoc, elem_of_setAdd, IH, elem_of_app, list_elem_of_singleton.
  tauto.
Qed.

Lemma NoDup_dedupe (l : list str) : NoDup (dedupe l).
Proof.
  induction l as [|y l IH] using rev_ind; [apply NoDup_nil_2|].
  rewrite dedupe_snoc. by apply NoDup_setAdd.
Qed.

(** [dedupe] lists names in order of first appearance: the first
    appearance of an earlier name comes before every appearance of a later
    one. *)
Lemma dedupe_order (l : list str) (i j : nat) (n m : str) :
  i < j → dedupe l !! i = Some n → dedupe l !! j = Some m →
  ∃ l1 l2, l = l1 ++ n :: l2 ∧ (n ∉ l1) ∧ (m ∉ l1) ∧ n ≠ m.
Proof.
  revert i j n m. induction l as [|y l IH] using rev_ind; intros i j n m Hij.
  { done. }
  rewrite dedupe_snoc. unfold setAdd. case_bool_decide as Hy.
  - intros Hi Hj. destruct (IH _ _ _ _ Hij Hi Hj) as (l1 & l2 & -> & H1 & H2 & H3).
    exists l1, (l2 ++ [y]). by rewrite <- (assoc_L (++)).
  - intros Hi Hj.
    assert (Hi' : dedupe l !! i = Some n).
    { rewrite lookup_app_l in Hi; [done|].
      apply lookup_lt_Some in Hj. rewrite length_app in Hj. cbn in Hj. lia. }
    destruct (decide (j < length (dedupe l))) as [Hlt|Hge].
    + rewrite lookup_app_l in Hj by done.
      destruct (IH _ _ _ _ Hij Hi' Hj) as (l1 & l2 & -> & H1 & H2 & H3).
      exists l1, (l2 ++ [y]). by rewrite <- (assoc_L (++)).
    + rewrite lookup_app_r in Hj by lia.
      apply list_lookup_singleton_Some in Hj as [_ <-].
      assert (Hn : n ∈ l).
      { apply elem_of_dedupe, list_elem_of_lookup. eauto. }
      apply list_elem_of_split_l in Hn as (l1 & l2 & -> & Hn).
      exists l1, (l2 ++ [y]). split_and!.
      * by rewrite <- (assoc_L (++)).
      * done.
      * intros Hin. apply Hy, elem_of_dedupe, elem_of_app. by left.
      * intros ->. apply Hy, elem_of_dedupe. set_solver.
Qed.

(** ** Substitution *)

Lemma startsWith_true (pat s : str) :
  startsWith pat s = true ↔ ∃ r, s = pat ++ r.
Proof.
  revert s. induction pat as [|p pat IH]; intros s; cbn.
  - split; [by exists s | done].
  - destruct s as [|c s].
    + split; [done | by intros [r ?]].
    + rewrite andb_true_iff, bool_decide_eq_true, IH. split.
      * intros [-> [r ->]]. by exists r.
      * intros [r [= -> ->]]. split; [done | by exists r].
Qed.

Lemma startsWith_app (pat r : str) : startsWith pat (pat ++ r) = true.
Proof. apply startsWith_true. by exists r. Qed.

(** Skipping to [lastIndex] is dropping the matched text. *)
Lemma replaceFrom_skip (pat repl before : str) (k : nat) (s : str) :
  replaceFrom pat repl before k s
  = replaceFrom pat repl (before ++ take k s) 0 (drop k s).
Proof.
  revert before k. induction s as [|c s IH]; intros before k.
  - by destruct k.
  - destruct k as [|k]; cbn [take drop].
    + by rewrite app_nil_r.
    + cbn [replaceFrom]. rewrite IH. by rewrite <- (assoc_L (++)).
Qed.

Lemma replaceFrom_match (pat repl before r : str) :
  pat ≠ [] →
  replaceFrom pat repl before 0 (pat ++ r)
  = GetSubstitution pat before r repl
      ++ replaceFrom pat repl (before ++ pat) 0 r.
Proof.
  intros Hpat. destruct pat as [|p pat]; [done|].
  change ((p :: pat) ++ r) with (p :: pat ++ r). cbn [replaceFrom].
  change (p :: pat ++ r) with ((p :: pat) ++ r).
  rewrite startsWith_app, drop_app_length. cbn [length].
  replace (S (length pat) - 1) with (length pat) by lia.
  rewrite (replaceFrom_skip _ _ _ (length pat)).
  by rewrite take_app_length, drop_app_length, <- (assoc_L (++)).
Qed.

Lemma replaceFrom_no_match (pat repl before : str) (c : ascii) (s : str) :
  startsWith pat (c :: s) = false →
  replaceFrom pat repl before 0 (c :: s)
  = c :: replaceFrom pat repl (before ++ [c]) 0 s.
Proof. intros H. cbn [replaceFrom]. by rewrite H. Qed.

Lemma startsWith_placeholder_head (k : str) (c : ascii) (s : str) :
  c ≠ "["%char → startsWith (placeholderOf k) (c :: s) = false.
Proof.
  intros Hc. cbn. case_bool_decide; [congruence | done].
Qed.

Lemma placeholderOf_not_nil (k : str) : placeholderOf k ≠ [].
Proof. done. Qed.

(** Where there is no opening bracket nothing is replaced. *)
Lemma replaceFrom_no_open (k repl before u v : str) :
  Forall (λ c, c ≠ "["%char) u →
  replaceFrom (placeholderOf k) repl before 0 (u ++ v)
  = u ++ replaceFrom (placeholderOf k) repl (before ++ u) 0 v.
Proof.
  intros Hu. revert before. induction Hu as [|c u Hc Hu IH]; intros before.
  - by rewrite app_nil_r.
  - change ((c :: u) ++ v) with (c :: u ++ v).
    rewrite replaceFrom_no_match by by apply startsWith_placeholder_head.
    rewrite IH, <- (assoc_L (++)). done.
Qed.

Lemma delimited_inj (d : ascii) (k n r b : str) :
  Forall (λ c, c ≠ d) k → Forall (λ c, c ≠ d) n →
  k ++ d :: r = n ++ d :: b → k = n ∧ r = b.
Proof.
  intros Hk. revert n. induction Hk as [|x k Hx Hk IH]; intros n Hn.
  - destruct Hn as [|y n Hy Hn]; cbn; [by intros [= ->] | congruence].
  - destruct Hn as [|y n Hy Hn]; cbn; [congruence|].
    intros [= -> E]. destruct (IH _ Hn E) as [-> ->]. done.
Qed.

Lemma bracketFree_not_open (n : str) :
  bracketFree n → Forall (λ c, c ≠ "["%char) n.
Proof. intros H. eapply Forall_impl; [exact H|]. by intros c [? _]. Qed.

Lemma bracketFree_not_close (n : str) :
  bracketFree n → Forall (λ c, c ≠ "]"%char) n.
Proof. intros H. eapply Forall_impl; [exact H|]. by intros c [_ ?]. Qed.

Lemma isName_bracketFree (k : str) : isName k = true → bracketFree k.
Proof.
  intros H%isName_chars. eapply Forall_impl; [exact H|].
  intros c Hc. split; intros ->; [by rewrite isNameChar_open in Hc|
                                  by rewrite isNameChar_close in Hc].
Qed.

(** Two bracketed texts that start at the same place are the same. *)
Lemma placeholder_prefix_inj (k n r b : str) :
  bracketFree k → bracketFree n →
  placeholderOf k ++ r = placeholderOf n ++ b → k = n.
Proof.
  intros Hk Hn. unfold placeholderOf. cbn. rewrite <- !(assoc_L (++)). cbn.
  intros [= E].
  by destruct (delimited_inj _ _ _ _ _ (bracketFree_not_close _ Hk)
                 (bracketFree_not_close _ Hn) E).
Qed.

(** A placeholder that starts before a bracketed text ends before it. *)
Lemma placeholder_no_straddle (k : str) (a : str) (tail r : str) :
  bracketFree k → a ≠ [] →
  placeholderOf k ++ r = a ++ "["%char :: tail →
  ∃ a', a = placeholderOf k ++ a'.
Proof.
  intros Hk Ha E.
  destruct (decide (length (placeholderOf k) ≤ length a)) as [Hle|Hgt].
  - exists (drop (length (placeholderOf k)) a).
    apply (f_equal (take (length (placeholderOf k)))) in E.
    rewrite take_app_length, take_app_le in E by done.
    transitivity (take (length (placeholderOf k)) a
                  ++ drop (length (placeholderOf k)) a);
      [by rewrite take_drop | by rewrite <- E].
  - exfalso.
    assert (Hlook : (placeholderOf k ++ r) !! length a = Some "["%char)
      by (rewrite E; apply list_lookup_middle; done).
    rewrite lookup_app_l in Hlook by lia.
    destruct a as [|x a]; [done|]. unfold placeholderOf in Hlook. cbn in Hlook.
    apply list_elem_of_lookup_2, elem_of_app in Hlook as [Hin | Hin].
    + apply bracketFree_not_open in Hk. rewrite Forall_forall in Hk.
      by apply (Hk _ Hin).
    + by apply list_elem_of_singleton in Hin.
Qed.

Lemma GetSubstitution_plain (matched before after repl : str) :
  "$"%char ∉ repl → GetSubstitution matched before after repl = repl.
Proof.
  induction repl as [|c repl IH]; [done|].
  intros Hin. apply not_elem_of_cons in Hin as [Hc Hin]. cbn.
  case_bool_decide; [congruence|]. by rewrite IH.
Qed.

Lemma isName_no_dollar (k : str) : isName k = true → "$"%char ∉ placeholderOf k.
Proof.
  intros Hk%isName_chars. unfold placeholderOf. cbn.
  rewrite not_elem_of_cons, not_elem_of_app, not_elem_of_cons.
  split_and!; try done; [|apply not_elem_of_nil].
  intros Hin. rewrite Forall_forall in Hk. by apply Hk in Hin.
Qed.

Section PlainReplacement.
(** A replacement text without dollar signs stands for itself, and the
    result of a replacement no longer depends on where a match sits. *)
Context (k v : str) (Hk : bracketFree k) (Hv : "$"%char ∉ v).

Lemma replaceFrom_before (b1 b2 : str) (n : nat) (s : str) :
  replaceFrom (placeholderOf k) v b1 n s = replaceFrom (placeholderOf k) v b2 n s.
Proof using Hv.
  revert b1 b2 n. induction s as [|c s IH]; intros b1 b2 n; [done|].
  cbn [replaceFrom]. destruct n as [|n]; [|apply IH].
  rewrite !GetSubstitution_plain by done.
  rewrite (IH (b1 ++ [c]) (b2 ++ [c]) 0).
  by rewrite (IH (b1 ++ [c]) (b2 ++ [c]) (length (placeholderOf k) - 1)).
Qed.

Lemma replacePlaceholder_match (r : str) :
  replacePlaceholder k v (placeholderOf k ++ r) = v ++ replacePlaceholder k v r.
Proof using Hv.
  unfold replacePlaceholder.
  rewrite replaceFrom_match by apply placeholderOf_not_nil.
  rewrite GetSubstitution_plain by done. f_equal. apply replaceFrom_before.
Qed.

Lemma replacePlaceholder_no_match (c : ascii) (s : str) :
  startsWith (placeholderOf k) (c :: s) = false →
  replacePlaceholder k v (c :: s) = c :: replacePlaceholder k v s.
Proof using Hv.
  intros H. unfold replacePlaceholder.
  rewrite replaceFrom_no_match by done. f_equal. apply replaceFrom_before.
Qed.

(** An occurrence of the placeholder is replaced by [v], whatever stands
    around it. *)
Lemma replacePlaceholder_occurrence (pre post : str) :
  replacePlaceholder k v (pre ++ placeholderOf k ++ post)
  = replacePlaceholder k v pre ++ v ++ replacePlaceholder k v post.
Proof using Hk Hv.
  remember (length pre) as n eqn:Hn. revert pre Hn.
  induction (lt_wf n) as [n _ IH]. intros pre ->.
  destruct pre as [|c pre].
  { cbn [app]. by rewrite replacePlaceholder_match. }
  destruct (startsWith (placeholderOf k) ((c :: pre) ++ placeholderOf k ++ post))
    eqn:E.
  - apply startsWith_true in E as [r E].
    destruct (placeholder_no_straddle k (c :: pre)
                ((k ++ js "]") ++ post) r Hk) as [a' Ha']; [done|by rewrite <- E|].
    rewrite Ha', <- (assoc_L (++)), !replacePlaceholder_match.
    rewrite (IH (length a')); [by rewrite <- (assoc_L (++))| |done].
    rewrite Ha', length_app. unfold placeholderOf. cbn. lia.
  - change ((c :: pre) ++ placeholderOf k ++ post)
      with (c :: pre ++ placeholderOf k ++ post) in E |- *.
    rewrite replacePlaceholder_no_match by done.
    rewrite (IH (length pre)); [|cbn; lia|done].
    rewrite replacePlaceholder_no_match; [done|].
    destruct (startsWith (placeholderOf k) (c :: pre)) eqn:E'; [|done].
    apply startsWith_true in E' as [r E'].
    assert (startsWith (placeholderOf k) (c :: pre ++ placeholderOf k ++ post) = true);
      [|congruence].
    apply startsWith_true. exists (r ++ placeholderOf k ++ post).
    change (c :: pre ++ placeholderOf k ++ post)
      with ((c :: pre) ++ placeholderOf k ++ post).
    by rewrite E', <- (assoc_L (++)).
Qed.

(** A text without the placeholder is left as it is. *)
Lemma replacePlaceholder_absent (text : str) :
  ¬ occursIn (placeholderOf k) text → replacePlaceholder k v text = text.
Proof using Hv.
  induction text as [|c text IH]; [done|]. intros Habs.
  rewrite replacePlaceholder_no_match.
  - rewrite IH; [done|]. intros (pre & post & ->). apply Habs.
    by exists (c :: pre), post.
  - destruct (startsWith (placeholderOf k) (c :: text)) eqn:E; [|done].
    apply startsWith_true in E as [r E]. exfalso. apply Habs.
    by exists [], r.
Qed.
End PlainReplacement.

(** Replacing a placeholder by itself changes nothing. *)
Lemma replacePlaceholder_self (k text : str) :
  isName k = true → replacePlaceholder k (placeholderOf k) text = text.
Proof.
  intros Hk. pose proof (isName_no_dollar k Hk) as Hd.
  remember (length text) as n eqn:Hn. revert text Hn.
  induction (lt_wf n) as [n _ IH]. intros text ->.
  destruct text as [|c text]; [done|].
  destruct (startsWith (placeholderOf k) (c :: text)) eqn:E.
  - apply startsWith_true in E as [r E].
    assert (Hlen : length r < length (c :: text))
      by (rewrite E, length_app; unfold placeholderOf; cbn; lia).
    rewrite E, replacePlaceholder_match by done. f_equal.
    by eapply IH.
  - rewrite replacePlaceholder_no_match by done. f_equal.
    eapply IH; [|done]. cbn. lia.
Qed.

(** *** Texts the substitution does not touch *)

Lemma placeholderOf_cons (n : str) :
  placeholderOf n = "["%char :: n ++ ["]"%char].
Proof. done. Qed.

(** A bracketed text that is not the placeholder survives a replacement,
    whatever the replacement text is. *)
Lemma replaceFrom_keeps_other (k n repl : str) :
  bracketFree k → bracketFree n → n ≠ k →
  ∀ a b before, ∃ a' b',
    replaceFrom (placeholderOf k) repl before 0 (a ++ placeholderOf n ++ b)
    = a' ++ placeholderOf n ++ b'.
Proof.
  intros Hk Hn Hne a. remember (length a) as m eqn:Hm. revert a Hm.
  induction (lt_wf m) as [m _ IH]. intros a -> b before.
  destruct a as [|c a].
  - exists [], (replaceFrom (placeholderOf k) repl (before ++ placeholderOf n) 0 b).
    rewrite (placeholderOf_cons n). cbn [app].
    rewrite replaceFrom_no_match.
    + rewrite (replaceFrom_no_open k repl _ (n ++ ["]"%char]) b).
      * by rewrite <- (assoc_L (++) before).
      * apply Forall_app. split; [by apply bracketFree_not_open|].
        by repeat constructor.
    + destruct (startsWith _ _) eqn:E; [|done].
      apply startsWith_true in E as [r E]. exfalso. apply Hne. symmetry.
      apply (placeholder_prefix_inj k n r b Hk Hn).
      by rewrite <- E, (placeholderOf_cons n).
  - destruct (startsWith (placeholderOf k) ((c :: a) ++ placeholderOf n ++ b))
      eqn:E.
    + apply startsWith_true in E as [r E].
      destruct (placeholder_no_straddle k (c :: a)
                  ((n ++ js "]") ++ b) r Hk) as [a' Ha']; [done|by rewrite <- E|].
      rewrite Ha', <- (assoc_L (++)).
      rewrite replaceFrom_match by apply placeholderOf_not_nil.
      destruct (IH (length a')) with (a := a') (b := b)
        (before := before ++ placeholderOf k) as (a1 & b1 & ->); [|done|].
      { rewrite Ha', length_app. unfold placeholderOf. cbn. lia. }
      eexists (_ ++ a1), b1. by rewrite <- (assoc_L (++)).
    + change ((c :: a) ++ placeholderOf n ++ b)
        with (c :: a ++ placeholderOf n ++ b) in E |- *.
      rewrite replaceFrom_no_match by done.
      destruct (IH (length a)) with (a := a) (b := b)
        (before := before ++ [c]) as (a1 & b1 & ->); [cbn; lia|done|].
      by exists (c :: a1), b1.
Qed.

Lemma substituteOne_keeps_other (n text : str) (entry : str * str) :
  isName entry.1 = true → bracketFree n → isName n = false →
  occursIn (placeholderOf n) text →
  occursIn (placeholderOf n) (substituteOne text entry).
Proof.
  destruct entry as [key value]. cbn [fst].
  intros Hkey Hn Hnot (a & b & ->). unfold substituteOne, replacePlaceholder.
  apply replaceFrom_keeps_other; [by apply isName_bracketFree|done|congruence].
Qed.

Lemma substitute_keeps_other (n : str) (vars : list (str * str)) (text : str) :
  namesOnly vars → bracketFree n → isName n = false →
  occursIn (placeholderOf n) text →
  occursIn (placeholderOf n) (substitute vars text).
Proof.
  intros Hvars Hn Hnot. revert text. unfold substitute.
  induction Hvars as [|entry vars Hentry Hvars IH]; intros text Hocc; [done|].
  cbn [foldl]. apply IH. by apply substituteOne_keeps_other.
Qed.

Lemma trimStart_keeps (a : str) (c : ascii) (y z : str) :
  isWhiteSpace c = false →
  ∃ a', trimStart (a ++ (c :: y) ++ z) = a' ++ (c :: y) ++ z.
Proof.
  intros Hc. induction a as [|x a [a' IH]]; cbn.
  - rewrite Hc. by exists [].
  - destruct (isWhiteSpace x); [by exists a' | by exists (x :: a)].
Qed.

Lemma trim_keeps_placeholder (n s : str) :
  occursIn (placeholderOf n) s → occursIn (placeholderOf n) (trim s).
Proof.
  intros (a & b & ->). unfold trim, trimEnd.
  rewrite (placeholderOf_cons n).
  destruct (trimStart_keeps a "["%char (n ++ ["]"%char]) b eq_refl) as [a' ->].
  assert (Hrev : reverse ("["%char :: n ++ ["]"%char])
                 = "]"%char :: reverse ("["%char :: n)).
  { by rewrite app_comm_cons, reverse_app. }
  rewrite !reverse_app, Hrev.
  rewrite <- (assoc_L (++)).
  destruct (trimStart_keeps (reverse b) "]"%char (reverse ("["%char :: n))
              (reverse a') eq_refl) as [b' ->].
  rewrite <- Hrev, !reverse_app, !reverse_involutive.
  exists a', (reverse b'). by rewrite <- (assoc_L (++)).
Qed.

(** *** The variable mapping *)

Lemma hasOwnProperty_getProperty (obj : list (str * str)) (name : str) :
  hasOwnProperty obj name = true ↔ is_Some (getProperty obj name).
Proof.
  unfold hasOwnProperty. rewrite bool_decide_eq_true.
  induction obj as [|[k v] obj IH]; cbn.
  - split; [by intros ?%elem_of_nil | by intros [? ?]].
  - rewrite elem_of_cons. case_bool_decide as Hk.
    + split; [by eauto | by left].
    + rewrite <- IH. split; [intros [?|?]; [congruence|done] | by right].
Qed.

Lemma getProperty_setProperty (obj : list (str * str)) (name v name' : str) :
  getProperty (setProperty obj name v) name'
  = if bool_decide (name = name') then Some v else getProperty obj name'.
Proof.
  induction obj as [|[k v'] obj IH]; cbn.
  - done.
  - destruct (decide (k = name)) as [->|Hk].
    + rewrite bool_decide_eq_true_2 by done. cbn. by case_bool_decide.
    + rewrite bool_decide_eq_false_2 by done. cbn. rewrite IH.
      repeat case_bool_decide; congruence.
Qed.

Lemma namesOnly_setProperty (obj : list (str * str)) (name v : str) :
  namesOnly obj → isName name = true → namesOnly (setProperty obj name v).
Proof.
  intros Hobj Hname. induction Hobj as [|[k v'] obj Hk Hobj IH]; cbn.
  - by repeat constructor.
  - case_bool_decide; constructor; done.
Qed.

Lemma namesOnly_addMissing (obj : list (str * str)) (names : list str) :
  namesOnly obj → Forall (λ n, isName n = true) names →
  namesOnly (addMissing obj names).
Proof.
  intros Hobj Hnames. revert obj Hobj. unfold addMissing.
  induction Hnames as [|n names Hn Hnames IH]; intros obj Hobj; [done|].
  cbn [foldl]. apply IH. destruct (hasOwnProperty obj n); [done|].
  by apply namesOnly_setProperty.
Qed.

(** Stored values survive [addMissing]. *)
Lemma getProperty_addMissing_Some (obj : list (str * str)) (names : list str)
    (name v : str) :
  getProperty obj name = Some v → getProperty (addMissing obj names) name = Some v.
Proof.
  revert obj. unfold addMissing.
  induction names as [|n names IH]; intros obj Hget; [done|].
  cbn [foldl]. apply IH. destruct (hasOwnProperty obj n) eqn:E; [done|].
  rewrite getProperty_setProperty. case_bool_decide as Hn; [|done]. subst n.
  assert (hasOwnProperty obj name = true); [|congruence].
  apply hasOwnProperty_getProperty. by rewrite Hget.
Qed.

(** A name without a stored value gets the empty string. *)
Lemma getProperty_addMissing_None (obj : list (str * str)) (names : list str)
    (name : str) :
  name ∈ names → getProperty obj name = None →
  getProperty (addMissing obj names) name = Some [].
Proof.
  revert obj. unfold addMissing.
  induction names as [|n names IH]; intros obj Hin Hget.
  { by apply elem_of_nil in Hin. }
  cbn [foldl]. apply elem_of_cons in Hin as [<- | Hin].
  - destruct (hasOwnProperty obj name) eqn:E.
    + apply hasOwnProperty_getProperty in E as [v E]. congruence.
    + apply (getProperty_addMissing_Some _ names).
      rewrite getProperty_setProperty. by case_bool_decide.
  - destruct (hasOwnProperty obj n) eqn:E; [by apply IH|].
    destruct (decide (n = name)) as [->|Hne].
    + apply (getProperty_addMissing_Some _ names).
      rewrite getProperty_setProperty. by case_bool_decide.
    + apply IH; [done|]. rewrite getProperty_setProperty. by case_bool_decide.
Qed.

(** Names that all have an entry add nothing. *)
Lemma addMissing_present (obj : list (str * str)) (names : list str) :
  Forall (λ n, hasOwnProperty obj n = true) names → addMissing obj names = obj.
Proof.
  unfold addMissing. induction 1 as [|n names Hn Hnames IH]; [done|].
  cbn [foldl]. by rewrite Hn.
Qed.

Lemma hasOwnProperty_addMissing (obj : list (str * str)) (names : list str) :
  Forall (λ n, hasOwnProperty (addMissing obj names) n = true) names.
Proof.
  apply Forall_forall. intros n Hn. apply hasOwnProperty_getProperty.
  destruct (getProperty obj n) as [v|] eqn:E.
  - rewrite (getProperty_addMissing_Some _ _ _ _ E). by eexists.
  - rewrite (getProperty_addMissing_None _ _ _ Hn E). by eexists.
Qed.

Lemma addMissing_idempotent (obj : list (str * str)) (names : list str) :
  addMissing (addMissing obj names) names = addMissing obj names.
Proof. apply addMissing_present, hasOwnProperty_addMissing. Qed.

(** ** The engine as a whole *)

Lemma live_renderVariableInputs (names : list str) (w : World) :
  live (renderVariableInputs names w) = live w.
Proof. by destruct names. Qed.

Lemma variables_renderVariableInputs (names : list str) (w : World) :
  variables (renderVariableInputs names w) = addMissing (variables w) names.
Proof. by destruct names. Qed.

Lemma variableForm_renderVariableInputs (names : list str) (w : World) :
  variableForm (renderVariableInputs names w) = names.
Proof. by destruct names. Qed.

Lemma elem_of_detectVariables (comps : list Component.t) (n : str) :
  n ∈ detectVariables comps ↔ ∃ p, tokenAt n (fullText comps) p.
Proof.
  rewrite detectVariables_dedupe, elem_of_dedupe, (execAll_tokens _ 0).
  rewrite list_elem_of_fmap. split.
  - intros [[q n'] [-> Hin]]. exists q. by apply tokensFrom_tokenAt.
  - intros [p Hp]. exists (p, n). split; [done|]. by apply tokensFrom_tokenAt.
Qed.

Lemma detectVariables_names (comps : list Component.t) :
  Forall (λ n, isName n = true) (detectVariables comps).
Proof.
  apply Forall_forall. intros n [p [Hn _]]%elem_of_detectVariables. done.
Qed.

Lemma detectVariables_order (comps : list Component.t) (i j : nat) (n m : str) :
  i < j →
  detectVariables comps !! i = Some n → detectVariables comps !! j = Some m →
  ∃ p, tokenAt n (fullText comps) p
       ∧ (∀ q, tokenAt n (fullText comps) q → p ≤ q)
       ∧ (∀ q, tokenAt m (fullText comps) q → p < q).
Proof.
  intros Hij Hi Hj. rewrite detectVariables_dedupe, (execAll_tokens _ 0) in Hi, Hj.
  destruct (dedupe_order _ _ _ _ _ Hij Hi Hj) as (l1 & l2 & E & Hn1 & Hm1 & Hne).
  apply fmap_app_inv in E as (t1 & t2' & -> & E2 & E).
  symmetry in E2. apply fmap_cons_inv in E2 as ([p n'] & t2 & Hn' & -> & ->).
  cbn in Hn'. subst n'.
  destruct (tokensFrom_sorted _ _ _ _ _ _ E) as [_ Hafter].
  assert (Hsplit : ∀ q x, (q, x) ∈ tokensFrom 0 (fullText comps) →
                   x ∉ t1.*2 → (q, x) = (p, n) ∨ p < q).
  { intros q x Hin Hx. rewrite E in Hin.
    apply elem_of_app in Hin as [Hin | Hin].
    - exfalso. apply Hx. apply list_elem_of_fmap. by exists (q, x).
    - apply elem_of_cons in Hin as [-> | Hin]; [by left|].
      right. by apply (Hafter (q, x)). }
  exists p. split_and!.
  - apply tokensFrom_tokenAt. rewrite E. apply elem_of_app. right. left.
  - intros q Hq%tokensFrom_tokenAt.
    destruct (Hsplit _ _ Hq Hn1) as [[= ->] | ?]; lia.
  - intros q Hq%tokensFrom_tokenAt.
    destruct (Hsplit _ _ Hq Hm1) as [[= _ ->] | ?]; [done | lia].
Qed.

Lemma livePreview_updatePreviewAndVariables (w : World) :
  livePreview (updatePreviewAndVariables w)
  = trim (substitute (variables (updatePreviewAndVariables w)) (fullText (live w))).
Proof. unfold updatePreviewAndVariables. by destruct (detectVariables (live w)). Qed.

Lemma variables_updatePreviewAndVariables (w : World) :
  variables (updatePreviewAndVariables w)
  = addMissing (variables w) (detectVariables (live w)).
Proof. unfold updatePreviewAndVariables. by destruct (detectVariables (live w)). Qed.

Lemma variableForm_updatePreviewAndVariables (w : World) :
  variableForm (updatePreviewAndVariables w) = detectVariables (live w).
Proof. unfold updatePreviewAndVariables. by destruct (detectVariables (live w)). Qed.

Lemma live_updatePreviewAndVariables (w : World) :
  live (updatePreviewAndVariables w) = live w.
Proof. unfold updatePreviewAndVariables. by destruct (detectVariables (live w)). Qed.

Lemma namesOnly_updatePreviewAndVariables (w : World) :
  namesOnly (variables w) → namesOnly (variables (updatePreviewAndVariables w)).
Proof.
  intros H. rewrite variables_updatePreviewAndVariables.
  apply namesOnly_addMissing; [done | apply detectVariables_names].
Qed.

(** C4. Detection over the component texts lists exactly the names of the
    variable tokens of the concatenated rendered text (a bracketed run of
    one or more uppercase letters or underscores), each once, in the order
    of their first positions in that text; a bracketed text that is not
    such a token, like [[value]], is not detected, and where it occurs in
    the rendered text it occurs in the preview. *)
Theorem variable_detection (w : World) :
  namesOnly (variables w) →
  let names := detectVariables (live w) in
  let text := fullText (live w) in
  let w' := updatePreviewAndVariables w in
  variableForm w' = names
  ∧ NoDup names
  ∧ (∀ n, n ∈ names ↔ ∃ p, tokenAt n text p)
  ∧ (∀ i j n m, i < j → names !! i = Some n → names !! j = Some m →
       ∃ p, tokenAt n text p
            ∧ (∀ q, tokenAt n text q → p ≤ q)
            ∧ (∀ q, tokenAt m text q → p < q))
  ∧ (∀ n, isName n = false →
       (n ∉ names)
       ∧ (bracketFree n → occursIn (placeholderOf n) text →
          occursIn (placeholderOf n) (livePreview w'))).
Proof.
  intros Hvars names text w'. split_and!.
  - apply variableForm_updatePreviewAndVariables.
  - unfold names. rewrite detectVariables_dedupe. apply NoDup_dedupe.
  - apply elem_of_detectVariables.
  - apply detectVariables_order.
  - intros n Hn. split.
    + intros [p [Hp _]]%elem_of_detectVariables. congruence.
    + intros Hfree Hocc. unfold w'. rewrite livePreview_updatePreviewAndVariables.
      apply trim_keeps_placeholder, substitute_keeps_other; try done.
      by apply namesOnly_updatePreviewAndVariables.
Qed.

Lemma variable_detection_witness :
  namesOnly (variables topicWorld)
  ∧ variableForm (updatePreviewAndVariables topicWorld)
    = detectVariables (live topicWorld).
Proof.
  assert (H : namesOnly (variables topicWorld))
    by (vm_compute; repeat constructor).
  split; [exact H|]. exact (proj1 (variable_detection topicWorld H)).
Defined.

(** The lower-case token of the specification. *)
Example lowercase_token_example :
  detectVariables [Component.mk 1 (js "text-block") (Some (js "[value] [VALUE]")) None None]
  = [js "VALUE"].
Proof. reflexivity. Qed.


(** *** Substitution, pass by pass *)

(** The claim C3 as it is worded fails: the passes run one after the other,
    so the value substituted for [[A]] is itself substituted when it holds
    the token of a later name. *)
Lemma substitution_not_simultaneous :
  variables chainedWorld
  = [(js "TOPIC", []); (js "A", js "[B]"); (js "B", js "x")]
  ∧ fullText (live chainedWorld) = js "[A] [B]" ++ [LF; LF]
  ∧ livePreview (updatePreviewAndVariables chainedWorld) = js "x x"
  ∧ trim (simultaneous (variables chainedWorld) 0 (fullText (live chainedWorld)))
    = js "[B] x"
  ∧ livePreview (updatePreviewAndVariables chainedWorld)
    ≠ trim (simultaneous (variables chainedWorld) 0 (fullText (live chainedWorld))).
Proof.
  split_and!; [by vm_compute..|].
  intros H. vm_compute in H. discriminate H.
Qed.

(** A dollar sign in a stored value is read as a replacement pattern. *)
Example substitution_dollar_example :
  variables dollarWorld = [(js "TOPIC", []); (js "FOO", js "US$$ 5 ($&)")]
  ∧ fullText (live dollarWorld) = js "[FOO]" ++ [LF; LF]
  ∧ livePreview (updatePreviewAndVariables dollarWorld) = js "US$ 5 ([FOO])".
Proof. split_and!; by vm_compute. Qed.

Lemma substituteOne_empty (key text : str) :
  isName key = true → substituteOne text (key, []) = text.
Proof. intros Hk. cbn. by apply replacePlaceholder_self. Qed.

Lemma substituteOne_value (key value text : str) :
  value ≠ [] → substituteOne text (key, value) = replacePlaceholder key value text.
Proof. intros Hv. cbn. by rewrite bool_decide_eq_false_2. Qed.

(** C3, amended. The preview is the rendered text after one pass per
    stored name, in the order of the mapping, each pass on the result of the
    one before, and trimmed.  The pass of a name whose stored value is empty
    changes nothing.  The pass of a name whose stored value is not empty and
    holds no dollar sign replaces every occurrence of its token in the text
    it is given by that value and leaves the rest of that text as it is. *)
Theorem substitution_passes (w : World) (key value : str) (rest : list (str * str)) :
  isName key = true →
  let w' := updatePreviewAndVariables w in
  livePreview w' = trim (substitute (variables w') (fullText (live w)))
  ∧ (∀ text, substitute ((key, value) :: rest) text
             = substitute rest (substituteOne text (key, value)))
  ∧ (∀ text, substitute [(key, value)] text = substituteOne text (key, value))
  ∧ (value = [] → ∀ text, substituteOne text (key, value) = text)
  ∧ (value ≠ [] → "$"%char ∉ value →
       (∀ pre post,
          substituteOne (pre ++ placeholderOf key ++ post) (key, value)
          = substituteOne pre (key, value) ++ value
              ++ substituteOne post (key, value))
       ∧ (∀ text, ¬ occursIn (placeholderOf key) text →
            substituteOne text (key, value) = text)).
Proof.
  intros Hkey w'. split_and!.
  - apply livePreview_updatePreviewAndVariables.
  - done.
  - done.
  - intros -> text. by apply substituteOne_empty.
  - intros Hv Hd. split.
    + intros pre post. rewrite !substituteOne_value by done.
      apply replacePlaceholder_occurrence; [by apply isName_bracketFree | done].
    + intros text Habs. rewrite substituteOne_value by done.
      by apply replacePlaceholder_absent.
Qed.

Lemma substitution_passes_witness :
  isName (js "FOO") = true
  ∧ ∀ text, substitute [(js "FOO", js "bar")] text
            = substituteOne text (js "FOO", js "bar").
Proof.
  split; [reflexivity|].
  exact (proj1 (proj2 (proj2
           (substitution_passes topicWorld (js "FOO") (js "bar") [] eq_refl)))).
Defined.

(** The two cases the specification names: [bar] stored for [FOO], and the
    empty string stored for [FOO]. *)
Example substitution_foo_example :
  trim (substitute [(js "FOO", js "bar")] (js "[FOO] and [FOO]" ++ [LF; LF]))
  = js "bar and bar"
  ∧ trim (substitute [(js "FOO", [])] (js "[FOO] and [FOO]" ++ [LF; LF]))
    = js "[FOO] and [FOO]".
Proof. split; by vm_compute. Qed.

(** ** Detection is idempotent *)

(** C10. Running the detection a second time on unchanged components
    yields the same names and the same mapping (the world is the same);
    a stored value is kept by the detection, and a detected name without a
    stored value gets the empty string. *)
Theorem detection_idempotent (w : World) :
  let w1 := updatePreviewAndVariables w in
  let w2 := updatePreviewAndVariables w1 in
  variableForm w1 = detectVariables (live w)
  ∧ variableForm w2 = variableForm w1
  ∧ variables w2 = variables w1
  ∧ w2 = w1
  ∧ (∀ name v, getProperty (variables w) name = Some v →
               getProperty (variables w1) name = Some v)
  ∧ (∀ name, name ∈ detectVariables (live w) →
             getProperty (variables w) name = None →
             getProperty (variables w1) name = Some []).
Proof.
  intros w1 w2.
  assert (Hform : variableForm w1 = detectVariables (live w))
    by apply variableForm_updatePreviewAndVariables.
  assert (Hvars : variables w1 = addMissing (variables w) (detectVariables (live w)))
    by apply variables_updatePreviewAndVariables.
  assert (Hlive : live w1 = live w) by apply live_updatePreviewAndVariables.
  assert (Hsame : w2 = w1).
  { unfold w2, updatePreviewAndVariables at 1. fold w1.
    unfold renderVariableInputs. rewrite Hlive.
    destruct (detectVariables (live w)) as [|n names] eqn:Hnames.
    - unfold w1, updatePreviewAndVariables, renderVariableInputs.
      rewrite Hnames. by destruct w.
    - rewrite Hvars, <- Hnames, addMissing_idempotent.
      unfold w1, updatePreviewAndVariables, renderVariableInputs.
      rewrite Hnames. by destruct w. }
  split_and!.
  - done.
  - by rewrite Hsame.
  - by rewrite Hsame.
  - done.
  - intros name v Hget. rewrite Hvars. by apply getProperty_addMissing_Some.
  - intros name Hin Hget. rewrite Hvars. by apply getProperty_addMissing_None.
Qed.

(** ** The heap *)

Lemma allocObjs_spec (cs : list Component.t) (o o' : gmap loc Component.t)
    (ls : list loc) :
  allocObjs cs o = (ls, o') →
  NoDup ls
  ∧ (∀ l, l ∈ ls → l ∉ dom o)
  ∧ (∀ l, l ∈ dom o' ↔ l ∈ dom o ∨ l ∈ ls)
  ∧ (∀ l, l ∈ dom o → o' !! l = o !! l)
  ∧ (λ l, o' !!! l) <$> ls = cs.
Proof.
  revert o o' ls. induction cs as [|c cs IH]; intros o o' ls; cbn.
  - intros [= <- <-]. split_and!.
    + apply NoDup_nil_2.
    + by intros l ?%elem_of_nil.
    + intros l. split; [by left | by intros [?|?%elem_of_nil]].
    + done.
    + done.
  - destruct (allocObjs cs (<[fresh (dom o) := c]> o)) as [ls' o2] eqn:E.
    intros [= <- <-].
    destruct (IH _ _ _ E) as (Hnd & Hfresh & Hdom & Hkeep & Hval).
    pose proof (is_fresh (dom o)) as Hl.
    assert (Hl1 : fresh (dom o) ∈ dom (<[fresh (dom o) := c]> o))
      by (rewrite dom_insert_L; set_solver).
    split_and!.
    + apply NoDup_cons. split; [|done]. intros Hin. by apply (Hfresh _ Hin).
    + intros l [->|Hin]%elem_of_cons; [done|].
      intros Hd. apply (Hfresh _ Hin). rewrite dom_insert_L. set_solver.
    + intros l. rewrite Hdom, dom_insert_L, elem_of_cons. set_solver.
    + intros l Hd. rewrite Hkeep by (rewrite dom_insert_L; set_solver).
      apply lookup_insert_ne. by intros <-.
    + cbn. f_equal; [|done].
      rewrite lookup_total_alt, (Hkeep _ Hl1), lookup_insert_eq. done.
Qed.

Lemma contents_frame (w w' : World) (a : loc) :
  arrs w' !!! a = arrs w !!! a →
  (∀ l, l ∈ elements w a → objs w' !!! l = objs w !!! l) →
  contents w' a = contents w a.
Proof.
  intros Ha Ho. unfold contents, elements in *. rewrite Ha.
  apply list_fmap_ext. intros i l Hl. apply Ho.
  by apply list_elem_of_lookup_2 in Hl.
Qed.

Lemma heap_updatePreviewAndVariables (w : World) :
  objs (updatePreviewAndVariables w) = objs w
  ∧ arrs (updatePreviewAndVariables w) = arrs w
  ∧ components (updatePreviewAndVariables w) = components w
  ∧ templates (updatePreviewAndVariables w) = templates w.
Proof. unfold updatePreviewAndVariables. by destruct (detectVariables (live w)). Qed.

Lemma page_updatePreviewAndVariables (w : World) :
  draggedElement (updatePreviewAndVariables w) = draggedElement w
  ∧ modalHidden (updatePreviewAndVariables w) = modalHidden w
  ∧ localStorage (updatePreviewAndVariables w) = localStorage w
  ∧ alerts (updatePreviewAndVariables w) = alerts w.
Proof. unfold updatePreviewAndVariables. by destruct (detectVariables (live w)). Qed.

Lemma wellFormed_ext (w w' : World) :
  objs w' = objs w → arrs w' = arrs w → components w' = components w →
  templates w' = templates w → wellFormed w → wellFormed w'.
Proof.
  unfold wellFormed, elements. by intros -> -> -> ->.
Qed.

Lemma contents_ext (w w' : World) (a : loc) :
  objs w' = objs w → arrs w' = arrs w → contents w' a = contents w a.
Proof. unfold contents, elements. by intros -> ->. Qed.

Lemma wellFormed_updatePreviewAndVariables (w : World) :
  wellFormed w → wellFormed (updatePreviewAndVariables w).
Proof.
  destruct (heap_updatePreviewAndVariables w) as (? & ? & ? & ?).
  by apply wellFormed_ext.
Qed.

Lemma contents_updatePreviewAndVariables (w : World) (a : loc) :
  contents (updatePreviewAndVariables w) a = contents w a.
Proof.
  destruct (heap_updatePreviewAndVariables w) as (? & ? & ? & ?).
  by apply contents_ext.
Qed.

(** *** [splice] and [moveWithinList] rearrange *)

Lemma splice_Permutation {A} (arr : list A) (start deleteCount : nat) (items : list A) :
  (splice arr start deleteCount items).1 ++ (splice arr start deleteCount items).2
  ≡ₚ arr ++ items.
Proof.
  unfold splice. cbn [fst snd].
  set (s := start `min` length arr).
  set (d := deleteCount `min` (length arr - s)).
  assert (E : arr = take s arr ++ take d (drop s arr) ++ drop (s + d) arr).
  { by rewrite <- drop_drop, !take_drop. }
  transitivity ((take s arr ++ take d (drop s arr) ++ drop (s + d) arr) ++ items);
    [solve_Permutation | by rewrite <- E].
Qed.

Lemma splice_insert_Permutation {A} (arr : list A) (start : nat) (x : A) :
  (splice arr start 0 [x]).1 ≡ₚ x :: arr.
Proof.
  pose proof (splice_Permutation arr start 0 [x]) as H.
  unfold splice in H |- *. cbn [fst snd] in *.
  rewrite take_0, app_nil_r in H. rewrite H.
  by rewrite Permutation_app_comm.
Qed.

Lemma moveWithinList_Permutation {A} (arr arr' : list A) (i j : nat) :
  moveWithinList arr i j = Some arr' → arr' ≡ₚ arr.
Proof.
  unfold moveWithinList. destruct (_ =? _); [by intros [= ->]|].
  pose proof (splice_Permutation arr i 1 []) as H.
  destruct (splice arr i 1 []) as [arr1 removed] eqn:E.
  assert (Hlen : length removed ≤ 1).
  { unfold splice in E. injection E as _ <-. rewrite length_take.
    etransitivity; [apply Nat.le_min_l|]. destruct (_ - _); lia. }
  destruct removed as [|m [|m' removed]]; [done| |cbn in Hlen; lia].
  intros Heq. apply (inj Some) in Heq. subst arr'.
  rewrite splice_insert_Permutation.
  cbn [fst snd] in H. rewrite app_nil_r in H. rewrite <- H.
  by rewrite Permutation_app_comm.
Qed.

Lemma fmap_splice_pair {A B} (f : A → B) (arr : list A) (start deleteCount : nat)
    (items : list A) :
  splice (fmap (M:=list) f arr) start deleteCount (fmap (M:=list) f items)
  = (fmap (M:=list) f (splice arr start deleteCount items).1,
     fmap (M:=list) f (splice arr start deleteCount items).2).
Proof.
  unfold splice. cbn [fst snd].
  by rewrite !fmap_app, !fmap_take, !fmap_drop, length_fmap.
Qed.

Lemma fmap_splice_fst {A B} (f : A → B) (arr : list A) (start deleteCount : nat)
    (items : list A) :
  fmap (M:=list) f (splice arr start deleteCount items).1
  = (splice (fmap (M:=list) f arr) start deleteCount (fmap (M:=list) f items)).1.
Proof. by rewrite fmap_splice_pair. Qed.


(** *** Projections of a world after [updatePreviewAndVariables] *)

Lemma objs_upd (w : World) : objs (updatePreviewAndVariables w) = objs w.
Proof. apply heap_updatePreviewAndVariables. Qed.
Lemma arrs_upd (w : World) : arrs (updatePreviewAndVariables w) = arrs w.
Proof. apply heap_updatePreviewAndVariables. Qed.
Lemma components_upd (w : World) :
  components (updatePreviewAndVariables w) = components w.
Proof. apply heap_updatePreviewAndVariables. Qed.
Lemma templates_upd (w : World) :
  templates (updatePreviewAndVariables w) = templates w.
Proof. apply heap_updatePreviewAndVariables. Qed.
Lemma draggedElement_upd (w : World) :
  draggedElement (updatePreviewAndVariables w) = draggedElement w.
Proof. apply page_updatePreviewAndVariables. Qed.
Lemma modalHidden_upd (w : World) :
  modalHidden (updatePreviewAndVariables w) = modalHidden w.
Proof. apply page_updatePreviewAndVariables. Qed.
Lemma localStorage_upd (w : World) :
  localStorage (updatePreviewAndVariables w) = localStorage w.
Proof. apply page_updatePreviewAndVariables. Qed.
Lemma alerts_upd (w : World) : alerts (updatePreviewAndVariables w) = alerts w.
Proof. apply page_updatePreviewAndVariables. Qed.

Ltac world_simpl :=
  unfold render, closeModal, elements in *;
  rewrite ?objs_upd, ?arrs_upd, ?components_upd, ?templates_upd,
    ?draggedElement_upd, ?modalHidden_upd, ?localStorage_upd, ?alerts_upd in *;
  cbn [objs arrs components templates variables
    draggedElement variableForm livePreview modalHidden localStorage alerts
    set_objs set_arrs set_components set_templates set_variables
    set_draggedElement set_variableForm set_livePreview set_modalHidden
    set_localStorage set_alerts] in *.

Lemma preserves_refl (w w' : World) :
  objs w' = objs w → arrs w' = arrs w → preserves w w'.
Proof. intros Ho Ha. split; intros; by rewrite ?Ho, ?Ha. Qed.

(** The arrays and the objects of the stored templates are out of reach of
    a listener that [preserves] the rest of the heap. *)
Lemma stored_preserved (w w' : World) (t : Template.t) :
  wellFormed w → preserves w w' → t ∈ templates w →
  elements w' (Template.components t) = elements w (Template.components t)
  ∧ stored w' t = stored w t.
Proof.
  intros (_ & _ & _ & Hts) [Harr Hobj] Ht.
  destruct (Hts t Ht) as (Hdom & Hne & Hls).
  assert (E : elements w' (Template.components t)
              = elements w (Template.components t)).
  { unfold elements. by rewrite !lookup_total_alt, Harr. }
  split; [done|]. unfold stored, contents. rewrite E.
  apply list_fmap_ext. intros i l Hl%list_elem_of_lookup_2.
  destruct (Hls l Hl) as [Hd Hnl]. by rewrite !lookup_total_alt, Hobj.
Qed.

(** *** Allocation of a component list *)

Lemma allocComponents_spec (cs : list Component.t) (w w1 : World) (a : loc) :
  allocComponents cs w = (a, w1) →
  ∃ ls o,
    allocObjs cs (objs w) = (ls, o)
    ∧ a = fresh (dom (arrs w))
    ∧ w1 = set_arrs (<[a := ls]> (arrs w)) (set_objs o w).
Proof.
  unfold allocComponents, allocArr.
  destruct (allocObjs cs (objs w)) as [ls o] eqn:E. cbn.
  intros [= <- <-]. by exists ls, o.
Qed.

Lemma allocComponents_heap (cs : list Component.t) (w w1 : World) (a : loc) :
  allocComponents cs w = (a, w1) →
  (a ∉ dom (arrs w))
  ∧ a ∈ dom (arrs w1)
  ∧ preserves w w1
  ∧ (∀ a', a' ∈ dom (arrs w) → a' ∈ dom (arrs w1) ∧ arrs w1 !! a' = arrs w !! a')
  ∧ (∀ l, l ∈ dom (objs w) → l ∈ dom (objs w1) ∧ objs w1 !! l = objs w !! l)
  ∧ NoDup (elements w1 a)
  ∧ (∀ l, l ∈ elements w1 a → l ∈ dom (objs w1) ∧ l ∉ dom (objs w))
  ∧ contents w1 a = cs.
Proof.
  intros (ls & o & E & -> & ->)%allocComponents_spec.
  destruct (allocObjs_spec _ _ _ _ E) as (Hnd & Hfresh & Hdom & Hkeep & Hval).
  pose proof (is_fresh (dom (arrs w))) as Ha.
  unfold preserves, contents, elements. cbn.
  rewrite lookup_total_insert_eq.
  split_and!; try done.
  - rewrite dom_insert_L. set_solver.
  - intros a' Ha' _. apply lookup_insert_ne. by intros <-.
  - intros l Hl _. by apply Hkeep.
  - intros a' Ha'. split; [rewrite dom_insert_L; set_solver|].
    apply lookup_insert_ne. by intros <-.
  - intros l Hl. split; [apply Hdom; by left | by apply Hkeep].
  - intros l Hl. split; [apply Hdom; by right | by apply Hfresh].
Qed.

Lemma preserves_wellFormed_templates (w w' : World) (t : Template.t) :
  wellFormed w → preserves w w' → t ∈ templates w →
  (∀ a, a ∈ dom (arrs w) → a ∈ dom (arrs w')) →
  (∀ l, l ∈ dom (objs w) → l ∈ dom (objs w')) →
  Template.components t ∈ dom (arrs w')
  ∧ (∀ l, l ∈ elements w' (Template.components t) →
       l ∈ dom (objs w') ∧ l ∈ dom (objs w)
       ∧ l ∉ elements w (components w)).
Proof.
  intros Hwf Hp Ht Ha Ho.
  destruct (stored_preserved w w' t Hwf Hp Ht) as [-> _].
  destruct Hwf as (_ & _ & _ & Hts). destruct (Hts t Ht) as (Hdom & Hne & Hls).
  split; [by apply Ha|]. intros l Hl. destruct (Hls l Hl) as [? ?].
  split_and!; [by apply Ho | done | done].
Qed.

(** *** Three ways to a well-formed world *)

(** The live array is overwritten in place. *)
Lemma wellFormed_set_live (w : World) (arr' : list loc) (o' : gmap loc Component.t) :
  wellFormed w → NoDup arr' →
  (∀ l, l ∈ arr' → l ∈ dom o') →
  (∀ l, l ∈ dom (objs w) → l ∈ dom o') →
  (∀ l, l ∈ dom (objs w) → l ∉ elements w (components w) → l ∉ arr') →
  wellFormed (set_arrs (<[components w := arr']> (arrs w)) (set_objs o' w)).
Proof.
  intros (Hc & Hnd & Hlive & Hts) Hnd' Harr Hmono Hout.
  unfold wellFormed, elements in *. cbn.
  rewrite lookup_total_insert_eq. split_and!; try done.
  - rewrite dom_insert_L. set_solver.
  - intros t Ht. destruct (Hts t Ht) as (Hd & Hne & Hls).
    rewrite lookup_total_insert_ne by done. split_and!; [|done|].
    + rewrite dom_insert_L. set_solver.
    + intros l Hl. destruct (Hls l Hl) as [? ?]. split; [by apply Hmono|].
      by apply Hout.
Qed.

(** The live list becomes a new array. *)
Lemma wellFormed_new_live (w : World) (a : loc) (ls : list loc)
    (o' : gmap loc Component.t) :
  wellFormed w → a ∉ dom (arrs w) → NoDup ls →
  (∀ l, l ∈ ls → l ∈ dom o') →
  (∀ l, l ∈ dom (objs w) → l ∈ dom o') →
  (∀ l, l ∈ dom (objs w) → l ∉ elements w (components w) → l ∉ ls) →
  wellFormed (set_components a (set_arrs (<[a := ls]> (arrs w)) (set_objs o' w))).
Proof.
  intros (Hc & Hnd & Hlive & Hts) Ha Hnd' Harr Hmono Hout.
  unfold wellFormed, elements in *. cbn.
  rewrite lookup_total_insert_eq. split_and!; try done.
  - rewrite dom_insert_L. set_solver.
  - intros t Ht. destruct (Hts t Ht) as (Hd & Hne & Hls).
    assert (a ≠ Template.components t) by (by intros ->).
    rewrite lookup_total_insert_ne by done. split_and!; [|done|].
    + rewrite dom_insert_L. set_solver.
    + intros l Hl. destruct (Hls l Hl) as [? ?]. split; [by apply Hmono|].
      by apply Hout.
Qed.

(** A template is added whose array and objects are new. *)
Lemma wellFormed_add_template (w : World) (a : loc) (ls : list loc)
    (o' : gmap loc Component.t) (i : Z) (n : str) :
  wellFormed w → a ∉ dom (arrs w) →
  (∀ l, l ∈ ls → l ∈ dom o' ∧ l ∉ dom (objs w)) →
  (∀ l, l ∈ dom (objs w) → l ∈ dom o') →
  wellFormed (set_templates (templates w ++ [Template.mk i n a])
                (set_arrs (<[a := ls]> (arrs w)) (set_objs o' w))).
Proof.
  intros (Hc & Hnd & Hlive & Hts) Ha Hls Hmono.
  assert (Hac : a ≠ components w) by (by intros ->).
  unfold wellFormed, elements in *. cbn.
  rewrite lookup_total_insert_ne by done. split_and!; try done.
  - rewrite dom_insert_L. set_solver.
  - intros l Hl. by apply Hmono, Hlive.
  - intros t [Ht | ->%list_elem_of_singleton]%elem_of_app.
    + destruct (Hts t Ht) as (Hd & Hne & Hls').
      assert (a ≠ Template.components t) by (by intros ->).
      rewrite lookup_total_insert_ne by done. split_and!; [|done|].
      * rewrite dom_insert_L. set_solver.
      * intros l Hl. destruct (Hls' l Hl) as [? ?]. split; [by apply Hmono|done].
    + cbn. rewrite lookup_total_insert_eq. split_and!; [|done|].
      * rewrite dom_insert_L. set_solver.
      * intros l Hl. destruct (Hls l Hl) as [? Hfresh]. split; [done|].
        intros Hin. by apply Hfresh, Hlive.
Qed.

Lemma wellFormed_set_live' (w w' : World) (arr' : list loc) :
  wellFormed w →
  arrs w' = <[components w := arr']> (arrs w) →
  components w' = components w → templates w' = templates w →
  NoDup arr' →
  (∀ l, l ∈ arr' → l ∈ dom (objs w')) →
  (∀ l, l ∈ dom (objs w) → l ∈ dom (objs w')) →
  (∀ l, l ∈ dom (objs w) → l ∉ elements w (components w) → l ∉ arr') →
  wellFormed w'.
Proof.
  intros Hwf Ha Hc Ht Hnd H1 H2 H3.
  apply (wellFormed_ext
           (set_arrs (<[components w := arr']> (arrs w)) (set_objs (objs w') w)));
    [done..|].
  by apply wellFormed_set_live.
Qed.

Lemma wellFormed_new_live' (w w' : World) (a : loc) (ls : list loc) :
  wellFormed w → a ∉ dom (arrs w) →
  arrs w' = <[a := ls]> (arrs w) →
  components w' = a → templates w' = templates w →
  NoDup ls →
  (∀ l, l ∈ ls → l ∈ dom (objs w')) →
  (∀ l, l ∈ dom (objs w) → l ∈ dom (objs w')) →
  (∀ l, l ∈ dom (objs w) → l ∉ elements w (components w) → l ∉ ls) →
  wellFormed w'.
Proof.
  intros Hwf Hfresh Ha Hc Ht Hnd H1 H2 H3.
  apply (wellFormed_ext
           (set_components a
              (set_arrs (<[a := ls]> (arrs w)) (set_objs (objs w') w))));
    [done..|].
  by apply wellFormed_new_live.
Qed.

Lemma wellFormed_add_template' (w w' : World) (a : loc) (ls : list loc)
    (i : Z) (n : str) :
  wellFormed w → a ∉ dom (arrs w) →
  arrs w' = <[a := ls]> (arrs w) →
  components w' = components w →
  templates w' = templates w ++ [Template.mk i n a] →
  (∀ l, l ∈ ls → l ∈ dom (objs w') ∧ l ∉ dom (objs w)) →
  (∀ l, l ∈ dom (objs w) → l ∈ dom (objs w')) →
  wellFormed w'.
Proof.
  intros Hwf Hfresh Ha Hc Ht H1 H2.
  apply (wellFormed_ext
           (set_templates (templates w ++ [Template.mk i n a])
              (set_arrs (<[a := ls]> (arrs w)) (set_objs (objs w') w))));
    [done..|].
  by apply wellFormed_add_template.
Qed.

Lemma wellFormed_same_dom (w w' : World) :
  wellFormed w → dom (objs w') = dom (objs w) → arrs w' = arrs w →
  components w' = components w → templates w' = templates w →
  wellFormed w'.
Proof. unfold wellFormed, elements. by intros Hwf -> -> -> ->. Qed.

(** *** The listeners keep the heap discipline *)

Lemma findComponent_elem (w : World) (componentId : Z) (l : loc) :
  findComponent w componentId = Some l →
  l ∈ elements w (components w) ∧ Component.id (objs w !!! l) = componentId.
Proof.
  unfold findComponent. destruct (list_find _ _) as [[i l']|] eqn:E; [|done].
  intros [= <-]. apply list_find_Some in E as (Hl & Hid & _).
  split; [by apply list_elem_of_lookup_2 in Hl | done].
Qed.

Lemma drop_heap (placeholder : option nat) (componentType : option str)
    (now : Z) (w w' : World) :
  wellFormed w →
  promptCanvas_drop placeholder componentType now w = Done w' →
  wellFormed w' ∧ preserves w w' ∧ templates w' = templates w.
Proof.
  intros Hwf. pose proof Hwf as (Hc & Hnd & Hlive & Hts).
  unfold promptCanvas_drop.
  destruct (draggedElement w) as [fromIndex|].
  - destruct (moveWithinList _ _ _) as [arr'|] eqn:E; [|done].
    intros [= <-]. apply moveWithinList_Permutation in E.
    split_and!.
    + apply (wellFormed_set_live' w _ arr'); world_simpl; try done.
      * by rewrite E.
      * intros l. rewrite E. apply Hlive.
      * intros l _. by rewrite E.
    + split; world_simpl; [|done].
      intros a _ Ha. by apply lookup_insert_ne.
    + by world_simpl.
  - destruct componentType as [[|c type']|].
    + intros [= <-]. split_and!; world_simpl; try done.
      * apply wellFormed_updatePreviewAndVariables.
        by apply (wellFormed_ext w).
      * by apply preserves_refl; world_simpl.
    + pose proof (is_fresh (dom (objs w))) as Hfresh.
      set (l := fresh (dom (objs w))) in *.
      unfold allocObj. fold l. cbv zeta.
      intros [= <-].
      pose proof (splice_insert_Permutation (elements w (components w))
                    (default (length (elements w (components w))) placeholder) l)
        as Hperm.
      assert (Hl : l ∉ elements w (components w))
        by (intros Hin; by apply Hfresh, Hlive).
      split_and!.
      * eapply (wellFormed_set_live' w); world_simpl; try done.
        -- rewrite Hperm. apply NoDup_cons. by split.
        -- intros l0. rewrite Hperm, dom_insert_L, elem_of_cons.
           intros [->|Hin]; [set_solver|]. apply Hlive in Hin. set_solver.
        -- intros l0 Hl0. rewrite dom_insert_L. set_solver.
        -- intros l0 Hl0 Hout. rewrite Hperm, elem_of_cons.
           intros [->|Hin]; done.
      * split; world_simpl.
        -- intros a _ Ha. by apply lookup_insert_ne.
        -- intros l0 Hl0 _. apply lookup_insert_ne. by intros <-.
      * by world_simpl.
    + intros [= <-]. split_and!; world_simpl; try done.
      * apply wellFormed_updatePreviewAndVariables.
        by apply (wellFormed_ext w).
      * by apply preserves_refl; world_simpl.
Qed.

Lemma input_heap (componentId : Z) (property value : str) (w : World) :
  wellFormed w →
  wellFormed (promptCanvas_input componentId property value w)
  ∧ preserves w (promptCanvas_input componentId property value w)
  ∧ templates (promptCanvas_input componentId property value w) = templates w.
Proof.
  intros Hwf. pose proof Hwf as (Hc & Hnd & Hlive & Hts).
  unfold promptCanvas_input.
  destruct (findComponent w componentId) as [l|] eqn:E;
    [|split_and!; [done | by apply preserves_refl | done]].
  destruct (isContentProperty property);
    [|split_and!; [done | by apply preserves_refl | done]].
  apply findComponent_elem in E as [Hl _].
  split_and!.
  - apply (wellFormed_same_dom w); world_simpl; try done.
    rewrite dom_insert_L. apply Hlive in Hl. set_solver.
  - split; world_simpl; [done|].
    intros l0 _ Hout. apply lookup_insert_ne. by intros <-.
  - by world_simpl.
Qed.

Lemma click_heap (componentId : Z) (w : World) :
  wellFormed w →
  wellFormed (promptCanvas_click componentId w)
  ∧ preserves w (promptCanvas_click componentId w)
  ∧ templates (promptCanvas_click componentId w) = templates w.
Proof.
  intros Hwf. pose proof Hwf as (Hc & Hnd & Hlive & Hts).
  unfold promptCanvas_click, allocArr.
  pose proof (is_fresh (dom (arrs w))) as Hfresh.
  set (a := fresh (dom (arrs w))) in *.
  set (kept := filter _ _).
  split_and!.
  - apply (wellFormed_new_live' w _ a kept); world_simpl; try done.
    + by apply NoDup_filter.
    + intros l [_ Hl]%list_elem_of_filter. by apply Hlive.
    + intros l _ Hout [_ Hl]%list_elem_of_filter. done.
  - split; world_simpl; [|done].
    intros a' Ha' _. apply lookup_insert_ne. by intros <-.
  - by world_simpl.
Qed.

Lemma load_heap (templateId : Z) (w : World) :
  wellFormed w →
  wellFormed (templateList_load templateId w)
  ∧ preserves w (templateList_load templateId w)
  ∧ templates (templateList_load templateId w) = templates w.
Proof.
  intros Hwf. pose proof Hwf as (Hc & Hnd & Hlive & Hts).
  unfold templateList_load, jsonClone.
  destruct (findTemplate w templateId) as [t|];
    [|split_and!; [done | by apply preserves_refl | done]].
  destruct (allocComponents _ w) as [a w1] eqn:E.
  pose proof (allocComponents_spec _ _ _ _ E) as (ls & o & Eo & -> & ->).
  destruct (allocComponents_heap _ _ _ _ E)
    as (Hfresh & _ & Hpres & _ & Hobjs & Hnd' & Hls & _).
  world_simpl. rewrite lookup_total_insert_eq in Hnd', Hls.
  split_and!.
  - eapply (wellFormed_new_live' w _ _ ls); world_simpl; try done.
    + intros l Hl. by apply Hls.
    + intros l Hl. by apply Hobjs.
    + intros l Hl _ Hin. by apply (Hls l Hin).
  - destruct Hpres as [Hp1 Hp2]. split; world_simpl; done.
  - by world_simpl.
Qed.

Lemma saveState_heap (ok : bool) (w : World) :
  objs (saveState ok w) = objs w ∧ arrs (saveState ok w) = arrs w
  ∧ components (saveState ok w) = components w
  ∧ templates (saveState ok w) = templates w
  ∧ variables (saveState ok w) = variables w
  ∧ alerts (saveState ok w) = alerts w
  ∧ modalHidden (saveState ok w) = modalHidden w.
Proof. by destruct ok. Qed.

Lemma deleteTemplate_heap (templateId : Z) (confirmed ok : bool) (w : World) :
  wellFormed w →
  wellFormed (templateList_delete templateId confirmed ok w)
  ∧ preserves w (templateList_delete templateId confirmed ok w).
Proof.
  intros Hwf. pose proof Hwf as (Hc & Hnd & Hlive & Hts).
  unfold templateList_delete.
  destruct confirmed; [|split; [done | by apply preserves_refl]].
  destruct (saveState_heap ok
              (set_templates (filter (λ t, Template.id t ≠ templateId) (templates w)) w))
    as (Ho & Ha & Hcs & Ht & _).
  split.
  - unfold wellFormed, elements. rewrite Ho, Ha, Hcs, Ht. cbn.
    split_and!; try done.
    intros t [_ Hin]%list_elem_of_filter. by apply Hts.
  - apply preserves_refl; by rewrite ?Ho, ?Ha.
Qed.

Lemma submit_heap (input : str) (now : Z) (ok : bool) (w : World) :
  wellFormed w →
  wellFormed (saveTemplateForm_submit input now ok w)
  ∧ preserves w (saveTemplateForm_submit input now ok w).
Proof.
  intros Hwf. pose proof Hwf as (Hc & Hnd & Hlive & Hts).
  unfold saveTemplateForm_submit, jsonClone.
  destruct (trim input) as [|c name]; [split; [done | by apply preserves_refl]|].
  destruct (allocComponents _ w) as [a w1] eqn:E.
  pose proof (allocComponents_spec _ _ _ _ E) as (ls & o & Eo & -> & ->).
  destruct (allocComponents_heap _ _ _ _ E)
    as (Hfresh & _ & Hpres & _ & Hobjs & Hnd' & Hls & _).
  world_simpl. rewrite lookup_total_insert_eq in Hnd', Hls.
  set (w2 := set_templates _ _).
  destruct (saveState_heap ok w2) as (Ho & Ha & Hcs & Ht & _).
  split.
  - eapply (wellFormed_add_template' w _ _ ls); world_simpl;
      rewrite ?Ho, ?Ha, ?Hcs, ?Ht; try done.
    intros l Hl. by apply Hobjs.
  - destruct Hpres as [Hp1 Hp2]. split; world_simpl; by rewrite ?Ho, ?Ha.
Qed.

Lemma step_heap (e : Event) (w w' : World) :
  wellFormed w → step e w = Done w' → wellFormed w' ∧ preserves w w'.
Proof.
  intros Hwf. destruct e; cbn [step].
  - destruct (_ <? _); intros [= <-];
      (split; [by apply (wellFormed_ext w) | by apply preserves_refl]).
  - intros [= <-].
    split; [by apply (wellFormed_ext w) | by apply preserves_refl].
  - intros H. by destruct (drop_heap _ _ _ _ _ Hwf H) as (? & ? & _).
  - intros [= <-]. by destruct (input_heap componentId property value w Hwf)
      as (? & ? & _).
  - intros [= <-]. by destruct (click_heap componentId w Hwf) as (? & ? & _).
  - destruct (bool_decide _); intros [= <-];
      [|split; [done | by apply preserves_refl]].
    unfold variableForm_input. destruct varName as [|c varName];
      [split; [done | by apply preserves_refl]|].
    split.
    + apply wellFormed_updatePreviewAndVariables. by apply (wellFormed_ext w).
    + apply preserves_refl; by world_simpl.
  - intros [= <-]. by destruct (load_heap templateId w Hwf) as (? & ? & _).
  - intros [= <-]. by apply deleteTemplate_heap.
  - intros [= <-]. unfold saveTemplateButton_click.
    destruct (_ =? _);
      (split; [by apply (wellFormed_ext w) | by apply preserves_refl]).
  - intros [= <-]. by apply submit_heap.
  - intros [= <-].
    split; [by apply (wellFormed_ext w) | by apply preserves_refl].
Qed.

(** *** Every reachable world is well formed *)

Lemma parseTemplates_heap (saved : list SavedTemplate) :
  ∀ (ts0 : list Template.t) (w w' : World) (ts : list Template.t),
    wellFormed (set_templates ts0 w) →
    parseTemplates saved w = (ts, w') →
    wellFormed (set_templates (ts0 ++ ts) w').
Proof.
  induction saved as [|[[i n] cs] saved IH]; intros ts0 w w' ts Hwf; cbn.
  - intros [= <- <-]. by rewrite app_nil_r.
  - destruct (allocComponents cs w) as [a w1] eqn:E.
    destruct (parseTemplates saved w1) as [ts' w2] eqn:E'.
    intros [= <- <-].
    pose proof (allocComponents_spec _ _ _ _ E) as (ls & o & Eo & Ha & Hw1).
    destruct (allocComponents_heap _ _ _ _ E)
      as (Hfresh & _ & _ & _ & Hobjs & _ & Hls & _).
    rewrite (cons_middle _ ts0 ts'), (assoc_L (++)).
    eapply IH; [|exact E'].
    subst w1. world_simpl. rewrite lookup_total_insert_eq in Hls.
    eapply (wellFormed_add_template' (set_templates ts0 w) _ a ls);
      world_simpl; try done.
    intros l Hl. by apply Hobjs.
Qed.

Lemma wellFormed_pageLoaded (storage : option (list SavedTemplate)) :
  wellFormed (pageLoaded storage).
Proof.
  unfold wellFormed, elements. cbn. rewrite lookup_total_singleton.
  split_and!.
  - rewrite dom_singleton_L. set_solver.
  - apply NoDup_nil_2.
  - by intros l ?%elem_of_nil.
  - by intros t ?%elem_of_nil.
Qed.

Lemma wellFormed_init (storage : option (list SavedTemplate)) :
  wellFormed (init storage).
Proof.
  unfold init, render. apply wellFormed_updatePreviewAndVariables.
  unfold loadState. cbn [localStorage pageLoaded].
  destruct storage as [saved|]; [|apply wellFormed_pageLoaded].
  destruct (parseTemplates saved _) as [ts w1] eqn:E.
  apply (parseTemplates_heap saved [] _ _ _ (wellFormed_pageLoaded _) E).
Qed.

Lemma reachable_wellFormed (w : World) : reachable w → wellFormed w.
Proof.
  induction 1 as [storage | w e w' _ IH Hstep].
  - apply wellFormed_init.
  - by destruct (step_heap e w w' IH Hstep).
Qed.

Lemma reachable_runEvents (es : list Event) (w w' : World) :
  reachable w → runEvents es w = Done w' → reachable w'.
Proof.
  revert w. induction es as [|e es IH]; intros w Hw; cbn.
  - by intros [= <-].
  - destruct (step e w) as [w1|] eqn:E; [|done].
    apply IH. by apply (reachable_step w e).
Qed.

(** ** The component list, by value *)

Lemma fmap_filter_id (o : gmap loc Component.t) (componentId : Z) (arr : list loc) :
  (λ l, o !!! l) <$> filter (λ l, Component.id (o !!! l) ≠ componentId) arr
  = filter (λ c, Component.id c ≠ componentId) ((λ l, o !!! l) <$> arr).
Proof.
  induction arr as [|l arr IH]; [done|].
  cbn [fmap list_fmap]. rewrite !filter_cons.
  destruct (decide (Component.id (o !!! l) ≠ componentId)); cbn; by rewrite <- IH.
Qed.

(** Deleting filters the list by id. *)
Lemma live_click (componentId : Z) (w : World) :
  live (promptCanvas_click componentId w)
  = filter (λ c, Component.id c ≠ componentId) (live w).
Proof.
  unfold promptCanvas_click, allocArr, live, contents. world_simpl.
  rewrite lookup_total_insert_eq.
  apply fmap_filter_id.
Qed.

(** An insertion splices the new component into the list. *)
Lemma live_drop_insert (placeholder : option nat) (c : ascii) (type' : str)
    (now : Z) (w : World) :
  wellFormed w → draggedElement w = None →
  ∃ w', promptCanvas_drop placeholder (Some (c :: type')) now w = Done w'
        ∧ live w'
          = (splice (live w) (default (length (live w)) placeholder) 0
               [createNewComponent (c :: type') now]).1.
Proof.
  intros (Hc & Hnd & Hlive & Hts) Hdrag. unfold promptCanvas_drop.
  rewrite Hdrag. unfold allocObj. cbv zeta.
  pose proof (is_fresh (dom (objs w))) as Hfresh.
  set (l := fresh (dom (objs w))) in *.
  eexists. split; [done|].
  unfold live, contents. world_simpl. rewrite lookup_total_insert_eq.
  rewrite fmap_splice_fst, length_fmap. cbn [fmap list_fmap].
  rewrite lookup_total_insert_eq.
  assert (E : (λ l0, <[l:=createNewComponent (c :: type') now]> (objs w) !!! l0)
                <$> arrs w !!! components w
              = (λ l0, objs w !!! l0) <$> arrs w !!! components w).
  { apply list_fmap_ext. intros i l0 Hl0%list_elem_of_lookup_2.
    apply lookup_total_insert_ne. intros <-. by apply Hfresh, Hlive. }
  by rewrite E.
Qed.

(** A drop without a dragged element and without a payload changes
    nothing in the list. *)
Lemma live_drop_nothing (placeholder : option nat) (componentType : option str)
    (now : Z) (w : World) :
  draggedElement w = None →
  componentType = None ∨ componentType = Some [] →
  promptCanvas_drop placeholder componentType now w
  = Done (render (set_draggedElement None w))
  ∧ live (render (set_draggedElement None w)) = live w
  ∧ elements (render (set_draggedElement None w)) (components w)
    = elements w (components w).
Proof.
  intros Hdrag Hct. unfold promptCanvas_drop. rewrite Hdrag.
  split; [by destruct Hct as [-> | ->]|].
  unfold live, contents. by world_simpl.
Qed.


Lemma id_setField (property value : str) (c : Component.t) :
  Component.id (setField property value c) = Component.id c.
Proof. unfold setField. by repeat case_bool_decide. Qed.

Lemma type_setField (property value : str) (c : Component.t) :
  Component.type (setField property value c) = Component.type c.
Proof. unfold setField. by repeat case_bool_decide. Qed.

Lemma updateFirst_absent (componentId : Z) (f : Component.t → Component.t)
    (cs : list Component.t) :
  componentId ∉ Component.id <$> cs → updateFirst componentId f cs = cs.
Proof.
  induction cs as [|c cs IH]; [done|]. cbn.
  rewrite not_elem_of_cons. intros [Hne Hin].
  rewrite bool_decide_eq_false_2 by done. by rewrite IH.
Qed.

Lemma updateFirst_ids (componentId : Z) (f : Component.t → Component.t)
    (cs : list Component.t) :
  (∀ c, Component.id (f c) = Component.id c) →
  Component.id <$> updateFirst componentId f cs = Component.id <$> cs.
Proof.
  intros Hf. induction cs as [|c cs IH]; [done|]. cbn.
  case_bool_decide; cbn; by rewrite ?Hf, ?IH.
Qed.

Lemma length_updateFirst (componentId : Z) (f : Component.t → Component.t)
    (cs : list Component.t) :
  length (updateFirst componentId f cs) = length cs.
Proof.
  induction cs as [|c cs IH]; [done|]. cbn. case_bool_decide; cbn; by rewrite ?IH.
Qed.

(** Writing to the first object with the id, seen from the list. *)
Lemma find_update_first (o : gmap loc Component.t) (componentId : Z)
    (f : Component.t → Component.t) (arr : list loc) :
  NoDup arr →
  match list_find (λ l, Component.id (o !!! l) = componentId) arr with
  | Some (_, l) =>
      (λ x, <[l := f (o !!! l)]> o !!! x) <$> arr
      = updateFirst componentId f ((λ x, o !!! x) <$> arr)
  | None =>
      updateFirst componentId f ((λ x, o !!! x) <$> arr) = (λ x, o !!! x) <$> arr
  end.
Proof.
  induction 1 as [|x arr Hx Hnd IH]; [done|].
  cbn [list_find fmap list_fmap updateFirst].
  destruct (decide (Component.id (o !!! x) = componentId)) as [Hid|Hid].
  - rewrite bool_decide_eq_true_2 by done. cbn.
    rewrite lookup_total_insert_eq. f_equal.
    apply list_fmap_ext. intros i y Hy%list_elem_of_lookup_2.
    apply lookup_total_insert_ne. by intros <-.
  - rewrite bool_decide_eq_false_2 by done.
    destruct (list_find _ arr) as [[k l]|] eqn:E; cbn.
    + apply list_find_Some in E as (Hl%list_elem_of_lookup_2 & _).
      rewrite lookup_total_insert_ne by (by intros ->). by rewrite IH.
    + by rewrite IH.
Qed.

(** A field edit, seen from the list. *)
Lemma live_input (componentId : Z) (property value : str) (w : World) :
  NoDup (elements w (components w)) →
  live (promptCanvas_input componentId property value w)
  = if isContentProperty property
    then updateFirst componentId (setField property value) (live w)
    else live w.
Proof.
  intros Hnd. unfold promptCanvas_input, findComponent.
  pose proof (find_update_first (objs w) componentId (setField property value)
                _ Hnd) as H.
  destruct (list_find _ _) as [[k l]|]; cbn [fmap option_fmap option_map snd].
  - destruct (isContentProperty property); [|done].
    unfold live, contents in *. by world_simpl.
  - unfold live, contents in *. unfold elements in *.
    destruct (isContentProperty property); by rewrite ?H.
Qed.

(** ** Drops *)

(** The claim C2 as it is worded fails: any non-empty payload is taken as
    the type of a new component. *)
Lemma drop_unrecognized_kind_inserts :
  draggedElement (init None) = None
  ∧ (js "hello" ∉ recognizedKinds)
  ∧ live (init None) = []
  ∧ ∃ w', promptCanvas_drop None (Some (js "hello")) 1700000000000 (init None)
          = Done w'
          ∧ live w' = [Component.mk 1700000000000 (js "hello") None None None].
Proof.
  split_and!; [by vm_compute | | by vm_compute |].
  - unfold recognizedKinds. rewrite !not_elem_of_cons.
    split_and!; [by vm_compute..|apply not_elem_of_nil].
  - eexists. split; [reflexivity | by vm_compute].
Qed.

Lemma createNewComponent_unrecognized (type : str) (now : Z) :
  type ∉ recognizedKinds →
  createNewComponent type now = Component.mk now type None None None.
Proof.
  unfold recognizedKinds. rewrite !not_elem_of_cons. intros (? & ? & ? & _).
  unfold createNewComponent. by rewrite !bool_decide_eq_false_2.
Qed.

(** C2, amended. A drop with no dragged element and an absent or empty
    payload ends without an error and leaves the component list as it was.
    A drop with no dragged element and a non-empty payload ends without an
    error and inserts a component of the type the payload names at the
    placeholder position, clamped to the list; for a payload that is not a
    recognized kind that component has no content field. *)
Theorem drop_without_dragged_element (placeholder : option nat)
    (componentType : option str) (now : Z) (w : World) :
  wellFormed w → draggedElement w = None →
  (componentType = None ∨ componentType = Some [] →
     ∃ w', promptCanvas_drop placeholder componentType now w = Done w'
           ∧ live w' = live w
           ∧ elements w' (components w') = elements w (components w))
  ∧ (∀ c type', componentType = Some (c :: type') →
       ∃ w', promptCanvas_drop placeholder componentType now w = Done w'
             ∧ live w'
               = (splice (live w) (default (length (live w)) placeholder) 0
                    [createNewComponent (c :: type') now]).1
             ∧ ((c :: type') ∉ recognizedKinds →
                createNewComponent (c :: type') now
                = Component.mk now (c :: type') None None None)).
Proof.
  intros Hwf Hdrag. split.
  - intros Hct.
    destruct (live_drop_nothing placeholder componentType now w Hdrag Hct)
      as (E & Hlive & Hel).
    eexists. split; [exact E|]. split; [done|].
    unfold render. by rewrite components_upd.
  - intros c type' ->.
    destruct (live_drop_insert placeholder c type' now w Hwf Hdrag)
      as (w' & E & Hlive).
    exists w'. split_and!; [done..|]. apply createNewComponent_unrecognized.
Qed.

Lemma drop_without_dragged_element_witness :
  wellFormed (init None) ∧ draggedElement (init None) = None
  ∧ ∃ w', promptCanvas_drop None (Some []) 0 (init None) = Done w'
          ∧ live w' = live (init None)
          ∧ elements w' (components w') = elements (init None) (components (init None)).
Proof.
  split; [apply wellFormed_init|]. split; [reflexivity|].
  apply (drop_without_dragged_element None (Some []) 0 (init None)
           (wellFormed_init None) eq_refl).
  by right.
Defined.

(** ** Field edits *)

(** The claim C9 as it is worded fails: the listener accepts [key] on a
    heading, whose content field is [content]. *)
Lemma updateField_ignores_kind :
  live headingWorld
  = [Component.mk 1700000000000 (js "heading") (Some (js "New Heading")) None None]
  ∧ validField (js "heading") (js "key") = false
  ∧ live (promptCanvas_input 1700000000000 (js "key") (js "x") headingWorld)
    = [Component.mk 1700000000000 (js "heading") (Some (js "New Heading"))
         (Some (js "x")) None]
  ∧ live (promptCanvas_input 1700000000000 (js "key") (js "x") headingWorld)
    ≠ live headingWorld.
Proof.
  split_and!; [by vm_compute..|].
  intros H. vm_compute in H. discriminate H.
Qed.

(** C9, amended. A field edit sets the named field on the first component
    with the given id when the field name is [content], [key] or [value],
    whatever the kind of the component; it changes nothing when no
    component has the id, and nothing when the field name is any other. *)
Theorem updateField_spec (componentId : Z) (property value : str) (w : World) :
  wellFormed w →
  let w' := promptCanvas_input componentId property value w in
  live w' = (if isContentProperty property
             then updateFirst componentId (setField property value) (live w)
             else live w)
  ∧ (componentId ∉ liveIds w → live w' = live w)
  ∧ (isContentProperty property = false → w' = w)
  ∧ (isContentProperty property = true ↔
       property ∈ [js "content"; js "key"; js "value"])
  ∧ (∀ c, setField (js "content") value c
          = Component.mk (Component.id c) (Component.type c) (Some value)
              (Component.key c) (Component.value c))
  ∧ (∀ c, setField (js "key") value c
          = Component.mk (Component.id c) (Component.type c)
              (Component.content c) (Some value) (Component.value c))
  ∧ (∀ c, setField (js "value") value c
          = Component.mk (Component.id c) (Component.type c)
              (Component.content c) (Component.key c) (Some value))
  ∧ liveIds w' = liveIds w
  ∧ templates w' = templates w
  ∧ (∀ t, t ∈ templates w → stored w' t = stored w t).
Proof.
  intros Hwf w'. pose proof Hwf as (_ & Hnd & _).
  assert (Hlive : live w' = if isContentProperty property
                            then updateFirst componentId (setField property value) (live w)
                            else live w)
    by by apply live_input.
  destruct (input_heap componentId property value w Hwf) as (_ & Hpres & Hts).
  split_and!; try done.
  - intros Hid. rewrite Hlive. destruct (isContentProperty property); [|done].
    by apply updateFirst_absent.
  - intros Hp. unfold w', promptCanvas_input. rewrite Hp.
    by destruct (findComponent w componentId).
  - unfold isContentProperty. rewrite !orb_true_iff, !bool_decide_eq_true.
    rewrite !elem_of_cons. split; [|intros [?|[?|[?|?%elem_of_nil]]]; tauto].
    tauto.
  - unfold liveIds. rewrite Hlive. destruct (isContentProperty property); [|done].
    apply updateFirst_ids. intros c. apply id_setField.
  - intros t Ht. by apply (stored_preserved w w' t).
Qed.

Lemma updateField_spec_witness :
  wellFormed headingWorld
  ∧ live (promptCanvas_input 1700000000000 (js "content") (js "Topic") headingWorld)
    = (if isContentProperty (js "content")
       then updateFirst 1700000000000 (setField (js "content") (js "Topic"))
              (live headingWorld)
       else live headingWorld).
Proof.
  assert (H : wellFormed headingWorld).
  { apply reachable_wellFormed.
    apply (reachable_runEvents
             [DropOnCanvas None (Some (js "heading")) 1700000000000] (init None));
      [apply reachable_init | by vm_compute]. }
  split; [exact H|].
  exact (proj1 (updateField_spec 1700000000000 (js "content") (js "Topic")
                  headingWorld H)).
Defined.

(** ** Templates are deep copies *)

Lemma liveMutation_templates (e : Event) (w w' : World) :
  wellFormed w → liveMutation e → step e w = Done w' →
  templates w' = templates w.
Proof.
  intros Hwf. destruct e; cbn [liveMutation step]; try done; intros _.
  - by destruct (_ <? _); intros [= <-].
  - by intros [= <-].
  - intros H. by destruct (drop_heap _ _ _ _ _ Hwf H) as (_ & _ & ?).
  - intros [= <-]. by destruct (input_heap componentId property value w Hwf)
      as (_ & _ & ?).
  - intros [= <-]. by destruct (click_heap componentId w Hwf) as (_ & _ & ?).
Qed.

(** No run of edits of the live list reaches a stored template. *)
Lemma liveMutations_frame (es : list Event) (w w' : World) :
  wellFormed w → Forall liveMutation es → runEvents es w = Done w' →
  wellFormed w' ∧ templates w' = templates w
  ∧ (∀ t, t ∈ templates w → stored w' t = stored w t).
Proof.
  intros Hwf Hes. revert w Hwf.
  induction Hes as [|e es He Hes IH]; intros w Hwf; cbn.
  - by intros [= <-].
  - destruct (step e w) as [w1|] eqn:E; [|done]. intros Hrun.
    destruct (step_heap e w w1 Hwf E) as [Hwf1 Hpres].
    pose proof (liveMutation_templates e w w1 Hwf He E) as Hts.
    destruct (IH w1 Hwf1 Hrun) as (Hwf' & Hts' & Hframe).
    split_and!; [done | congruence |].
    intros t Ht. rewrite Hframe by (by rewrite Hts).
    by apply (stored_preserved w w1 t).
Qed.

Lemma contents_alloc_frame (cs : list Component.t) (w w1 : World) (a a' : loc) :
  allocComponents cs w = (a, w1) →
  a' ∈ dom (arrs w) →
  (∀ l, l ∈ elements w a' → l ∈ dom (objs w)) →
  elements w1 a' = elements w a' ∧ contents w1 a' = contents w a'.
Proof.
  intros E Ha' Hls.
  destruct (allocComponents_heap _ _ _ _ E) as (_ & _ & _ & Harrs & Hobjs & _).
  assert (El : elements w1 a' = elements w a').
  { unfold elements. rewrite !lookup_total_alt. by destruct (Harrs a' Ha') as [_ ->]. }
  split; [done|]. unfold contents. rewrite El.
  apply list_fmap_ext. intros i l Hl%list_elem_of_lookup_2.
  rewrite !lookup_total_alt. by destruct (Hobjs l (Hls l Hl)) as [_ ->].
Qed.

(** What a submitted save does. *)
Lemma submit_spec (input : str) (now : Z) (ok : bool) (w : World) :
  wellFormed w → trim input ≠ [] →
  let w' := saveTemplateForm_submit input now ok w in
  ∃ a,
    (a ∉ dom (arrs w))
    ∧ templates w' = templates w ++ [Template.mk now (trim input) a]
    ∧ stored w' (Template.mk now (trim input) a) = live w
    ∧ (∀ l, l ∈ elements w' a → l ∉ dom (objs w))
    ∧ live w' = live w
    ∧ components w' = components w
    ∧ variables w' = variables w
    ∧ alerts w' = alerts w
    ∧ modalHidden w' = true
    ∧ localStorage w'
      = (if ok
         then Some ((λ t, (Template.id t, Template.name t, stored w' t))
                      <$> templates w')
         else localStorage w).
Proof.
  intros Hwf Hname w'. pose proof Hwf as (Hc & Hnd & Hlive & Hts).
  unfold w', saveTemplateForm_submit, jsonClone.
  destruct (trim input) as [|c name] eqn:Etrim; [done|].
  destruct (allocComponents _ w) as [a w1] eqn:E.
  destruct (allocComponents_heap _ _ _ _ E)
    as (Hfresh & _ & _ & _ & _ & _ & Hls & Hval).
  destruct (contents_alloc_frame _ _ _ _ (components w) E Hc Hlive) as [_ Hkeep].
  pose proof (allocComponents_spec _ _ _ _ E) as (ls & o & Eo & Ha & Hw1).
  exists a. destruct ok; subst w1; cbn in *.
  all: split_and!; try done.
  all: intros l Hl; by apply Hls.
Qed.

(** What loading a template does. *)
Lemma load_spec (templateId : Z) (t : Template.t) (w : World) :
  wellFormed w → findTemplate w templateId = Some t →
  t ∈ templates w
  ∧ Template.id t = templateId
  ∧ live (templateList_load templateId w) = stored w t
  ∧ (components (templateList_load templateId w) ∉ dom (arrs w))
  ∧ (∀ l, l ∈ elements (templateList_load templateId w)
              (components (templateList_load templateId w)) →
          l ∉ dom (objs w)).
Proof.
  intros Hwf Hfind. unfold templateList_load, jsonClone. rewrite Hfind.
  destruct (allocComponents _ w) as [a w1] eqn:E.
  destruct (allocComponents_heap _ _ _ _ E)
    as (Hfresh & _ & _ & _ & _ & _ & Hls & Hval).
  unfold findTemplate in Hfind.
  destruct (list_find _ _) as [[k t']|] eqn:Ef; [|done].
  injection Hfind as ->. apply list_find_Some in Ef as (Hk & Hid & _).
  split_and!.
  - by apply list_elem_of_lookup_2 in Hk.
  - done.
  - unfold live, contents in *. by world_simpl.
  - by world_simpl.
  - world_simpl. intros l Hl. by apply Hls.
Qed.

(** C6. In a reachable world, no sequence of edits of the live list
    (inserts, moves, removes, field updates) changes the components a
    template stores.  A save stores the values of the live components in an
    array and in objects that did not exist before, so the template it adds
    keeps those values through every later edit; loading a template makes
    the live list a copy, in a new array of new objects, of what the
    template stores, and later edits leave the template as it was. *)
Theorem deep_copy_isolation (w : World) (es : list Event) :
  reachable w → Forall liveMutation es →
  (∀ w', runEvents es w = Done w' →
     templates w' = templates w
     ∧ ∀ t, t ∈ templates w → stored w' t = stored w t)
  ∧ (∀ input now ok w',
       trim input ≠ [] →
       runEvents es (saveTemplateForm_submit input now ok w) = Done w' →
       ∃ t, templates w' = templates w ++ [t]
            ∧ (Template.components t ∉ dom (arrs w))
            ∧ stored (saveTemplateForm_submit input now ok w) t = live w
            ∧ stored w' t = live w)
  ∧ (∀ templateId t w',
       findTemplate w templateId = Some t →
       runEvents es (templateList_load templateId w) = Done w' →
       live (templateList_load templateId w) = stored w t
       ∧ (components (templateList_load templateId w) ∉ dom (arrs w))
       ∧ t ∈ templates w'
       ∧ stored w' t = stored w t).
Proof.
  intros Hw%reachable_wellFormed Hes. split_and!.
  - intros w' Hrun.
    by destruct (liveMutations_frame es w w' Hw Hes Hrun) as (_ & ? & ?).
  - intros input now ok w' Hname Hrun.
    destruct (submit_heap input now ok w Hw) as [Hwf1 _].
    destruct (submit_spec input now ok w Hw Hname)
      as (a & Hfresh & Hts & Hst & _).
    destruct (liveMutations_frame es _ w' Hwf1 Hes Hrun) as (_ & Hts' & Hframe).
    exists (Template.mk now (trim input) a). split_and!; try done.
    + by rewrite Hts', Hts.
    + rewrite Hframe; [done|]. rewrite Hts. apply elem_of_app. right. left.
  - intros templateId t w' Hfind Hrun.
    destruct (load_heap templateId w Hw) as (Hwf1 & Hpres & Hts).
    destruct (load_spec templateId t w Hw Hfind) as (Ht & _ & Hlive & Hfresh & _).
    destruct (liveMutations_frame es _ w' Hwf1 Hes Hrun) as (_ & Hts' & Hframe).
    split_and!; try done.
    + by rewrite Hts', Hts.
    + rewrite Hframe by (by rewrite Hts).
      by apply (stored_preserved w _ t).
Qed.

(** ** Ids and lengths along a run *)

Lemma id_createNewComponent (type : str) (now : Z) :
  Component.id (createNewComponent type now) = now.
Proof. unfold createNewComponent. by repeat case_bool_decide. Qed.

Lemma clocks_app (ops1 ops2 : list ListOp) :
  clocks (ops1 ++ ops2) = clocks ops1 ++ clocks ops2.
Proof.
  induction ops1 as [|[p [|c t] now | i | i p v] ops1 IH]; cbn; by rewrite ?IH.
Qed.

Lemma filter_id_length (componentId : Z) (cs : list Component.t) :
  NoDup (Component.id <$> cs) →
  length (filter (λ c, Component.id c ≠ componentId) cs)
  + (if bool_decide (componentId ∈ Component.id <$> cs) then 1 else 0)
  = length cs.
Proof.
  induction cs as [|c cs IH]; [done|]. cbn [fmap list_fmap].
  intros [Hc Hnd]%NoDup_cons. specialize (IH Hnd). rewrite filter_cons.
  destruct (decide (Component.id c ≠ componentId)) as [Hne|Heq].
  - assert (bool_decide (componentId ∈ Component.id c :: (Component.id <$> cs))
            = bool_decide (componentId ∈ Component.id <$> cs)) as ->.
    { apply bool_decide_ext. rewrite elem_of_cons. naive_solver. }
    cbn [length]. destruct (bool_decide _); lia.
  - apply dec_stable in Heq. subst componentId.
    rewrite bool_decide_eq_true_2 by by left.
    rewrite bool_decide_eq_false_2 in IH by done. cbn. lia.
Qed.

Lemma filter_id_ids (componentId : Z) (cs : list Component.t) :
  Component.id <$> filter (λ c, Component.id c ≠ componentId) cs
  = filter (λ i, i ≠ componentId) (Component.id <$> cs).
Proof.
  induction cs as [|c cs IH]; [done|]. cbn [fmap list_fmap].
  rewrite !filter_cons. destruct (decide (Component.id c ≠ componentId)); cbn;
    by rewrite IH.
Qed.

Lemma draggedElement_drop (placeholder : option nat) (componentType : option str)
    (now : Z) (w w' : World) :
  promptCanvas_drop placeholder componentType now w = Done w' →
  draggedElement w' = None.
Proof.
  unfold promptCanvas_drop. destruct (draggedElement w).
  - destruct (moveWithinList _ _ _); [|done]. intros [= <-]. by world_simpl.
  - destruct componentType as [[|c t]|]; intros [= <-]; by world_simpl.
Qed.

Lemma draggedElement_input (componentId : Z) (property value : str) (w : World) :
  draggedElement (promptCanvas_input componentId property value w)
  = draggedElement w.
Proof.
  unfold promptCanvas_input. destruct (findComponent _ _); [|done].
  destruct (isContentProperty _); [|done]. by world_simpl.
Qed.

Lemma draggedElement_click (componentId : Z) (w : World) :
  draggedElement (promptCanvas_click componentId w) = draggedElement w.
Proof. unfold promptCanvas_click, allocArr. by world_simpl. Qed.

(** One operation of a run whose clock readings are fresh. *)
Lemma runOp (op : ListOp) (w : World) :
  wellFormed w → draggedElement w = None → NoDup (liveIds w) →
  (∀ i, i ∈ liveIds w → i ∉ clocks [op]) →
  ∃ w', step (eventOf op) w = Done w'
        ∧ wellFormed w' ∧ draggedElement w' = None ∧ NoDup (liveIds w')
        ∧ (∀ i, i ∈ liveIds w' → i ∈ liveIds w ∨ i ∈ clocks [op])
        ∧ length (live w') + matchedRemoves [op] w
          = length (live w) + inserts [op].
Proof.
  intros Hwf Hdrag Hnd Hfresh. unfold inserts.
  destruct op as [placeholder [|c type'] now | componentId
                 | componentId property value]; cbn [eventOf step clocks length
                                                      matchedRemoves].
  - destruct (live_drop_nothing placeholder (Some []) now w Hdrag)
      as (E & Hlive & _); [by right|].
    eexists. split; [exact E|].
    destruct (step_heap (DropOnCanvas placeholder (Some []) now) w _ Hwf E)
      as [Hwf' _].
    pose proof (draggedElement_drop _ _ _ _ _ E) as Hdrag'.
    unfold liveIds. rewrite Hlive.
    split_and!; [done | done | done | by left | lia].
  - destruct (live_drop_insert placeholder c type' now w Hwf Hdrag)
      as (w' & E & Hlive).
    exists w'. split; [exact E|].
    destruct (step_heap (DropOnCanvas placeholder (Some (c :: type')) now) w _ Hwf E)
      as [Hwf' _].
    pose proof (draggedElement_drop _ _ _ _ _ E) as Hdrag'.
    assert (Hperm : live w' ≡ₚ createNewComponent (c :: type') now :: live w)
      by (rewrite Hlive; apply splice_insert_Permutation).
    assert (Hids : liveIds w' ≡ₚ now :: liveIds w).
    { unfold liveIds. rewrite Hperm. cbn. by rewrite id_createNewComponent. }
    assert (Hnd' : NoDup (liveIds w')).
    { rewrite Hids. apply NoDup_cons. split; [|done].
      intros Hin. apply (Hfresh _ Hin). by left. }
    assert (Hlen : length (live w') = S (length (live w)))
      by (by rewrite Hperm).
    split_and!; [done | done | done | | lia].
    intros i. rewrite Hids, elem_of_cons.
    intros [->|?]; [right; by left | by left].
  - exists (promptCanvas_click componentId w). split; [done|].
    destruct (click_heap componentId w Hwf) as (Hwf' & _).
    assert (Hids : liveIds (promptCanvas_click componentId w)
                   = filter (λ i, i ≠ componentId) (liveIds w)).
    { unfold liveIds. by rewrite live_click, filter_id_ids. }
    pose proof (filter_id_length componentId (live w) Hnd) as Hlen.
    rewrite <- live_click in Hlen. fold (liveIds w) in Hlen.
    split_and!; [done | by rewrite draggedElement_click | | | lia].
    + rewrite Hids. by apply NoDup_filter.
    + intros i. rewrite Hids. intros [_ ?]%list_elem_of_filter. by left.
  - exists (promptCanvas_input componentId property value w). split; [done|].
    destruct (input_heap componentId property value w Hwf) as (Hwf' & _).
    pose proof Hwf as (_ & Hndl & _).
    pose proof (live_input componentId property value w Hndl) as Hlive.
    assert (Hids : liveIds (promptCanvas_input componentId property value w)
                   = liveIds w).
    { unfold liveIds. rewrite Hlive. destruct (isContentProperty property); [|done].
      apply updateFirst_ids. intros c. apply id_setField. }
    assert (Hlen : length (live (promptCanvas_input componentId property value w))
                   = length (live w)).
    { rewrite Hlive. destruct (isContentProperty property); [|done].
      apply length_updateFirst. }
    split_and!; [done | by rewrite draggedElement_input | by rewrite Hids | | lia].
    rewrite Hids. by left.
Qed.

Lemma runOps (ops : list ListOp) :
  ∀ w, wellFormed w → draggedElement w = None → NoDup (liveIds w) →
       NoDup (clocks ops) → (∀ i, i ∈ liveIds w → i ∉ clocks ops) →
       ∃ w', runEvents (eventOf <$> ops) w = Done w'
             ∧ wellFormed w' ∧ draggedElement w' = None ∧ NoDup (liveIds w')
             ∧ length (live w') + matchedRemoves ops w
               = length (live w) + inserts ops.
Proof.
  induction ops as [|op ops IH]; intros w Hwf Hdrag Hnd Hclocks Hfresh.
  { exists w. cbn. split_and!; try done; unfold inserts; cbn; lia. }
  change (op :: ops) with ([op] ++ ops) in Hclocks, Hfresh.
  rewrite clocks_app in Hclocks, Hfresh.
  apply NoDup_app in Hclocks as (Hc1 & Hdisj & Hc2).
  destruct (runOp op w Hwf Hdrag Hnd) as (w1 & E & Hwf1 & Hdrag1 & Hnd1 & Hids & Hlen).
  { intros i Hi Hin. apply (Hfresh i Hi). apply elem_of_app. by left. }
  destruct (IH w1 Hwf1 Hdrag1 Hnd1 Hc2) as (w' & Hrun & Hwf' & Hdrag' & Hnd' & Hlen').
  { intros i Hi Hin. destruct (Hids i Hi) as [Hold | Hnew].
    - apply (Hfresh i Hold). apply elem_of_app. by right.
    - by apply (Hdisj i Hnew). }
  exists w'. cbn [fmap list_fmap runEvents]. rewrite E.
  split_and!; try done.
  assert (Hm : matchedRemoves (op :: ops) w
               = matchedRemoves [op] w + matchedRemoves ops w1).
  { cbn [matchedRemoves]. rewrite E. cbn [worldOf]. lia. }
  assert (Hi : inserts (op :: ops) = inserts [op] + inserts ops).
  { unfold inserts. change (op :: ops) with ([op] ++ ops).
    by rewrite clocks_app, length_app. }
  lia.
Qed.

Lemma parseTemplates_frame (saved : list SavedTemplate) :
  ∀ (w w' : World) (ts : list Template.t),
    parseTemplates saved w = (ts, w') →
    components w' = components w
    ∧ draggedElement w' = draggedElement w
    ∧ variables w' = variables w
    ∧ variableForm w' = variableForm w
    ∧ (∀ a, a ∈ dom (arrs w) → a ∈ dom (arrs w') ∧ arrs w' !! a = arrs w !! a).
Proof.
  induction saved as [|[[i n] cs] saved IH]; intros w w' ts; cbn.
  - by intros [= <- <-].
  - destruct (allocComponents cs w) as [a w1] eqn:E.
    destruct (parseTemplates saved w1) as [ts' w2] eqn:E'.
    intros [= <- <-].
    destruct (IH _ _ _ E') as (Hc & Hd & Hv & Hf & Ha).
    destruct (allocComponents_heap _ _ _ _ E) as (_ & _ & _ & Harrs & _).
    pose proof (allocComponents_spec _ _ _ _ E) as (ls & o & _ & _ & Hw1).
    rewrite Hc, Hd, Hv, Hf. subst w1. cbn. split_and!; try done.
    intros a' Ha'. destruct (Harrs a' Ha') as [Hin Heq].
    destruct (Ha a' Hin) as [Hin' Heq']. split; [done|]. by rewrite Heq'.
Qed.

Lemma init_empty (storage : option (list SavedTemplate)) :
  live (init storage) = [] ∧ draggedElement (init storage) = None.
Proof.
  unfold init, render. rewrite live_updatePreviewAndVariables, draggedElement_upd.
  unfold loadState. cbn [localStorage pageLoaded].
  destruct storage as [saved|]; [|done].
  destruct (parseTemplates saved _) as [ts w1] eqn:E.
  destruct (parseTemplates_frame _ _ _ _ E) as (Hc & Hd & _ & _ & Ha).
  unfold live, contents, elements. cbn. rewrite Hc, Hd. cbn.
  destruct (Ha 1%positive) as [_ Heq].
  { cbn. rewrite dom_singleton_L. set_solver. }
  rewrite lookup_total_alt, Heq. cbn. by rewrite lookup_singleton_eq.
Qed.

(** The claim C7 as it is worded fails: the id of a component is the clock
    reading at its creation, and two drops at one reading give one id twice;
    a remove by that id then takes both components away. *)
Lemma duplicate_ids_same_clock :
  ∃ w2 w3,
    runEvents (eventOf <$> [InsertAt None (js "heading") 1700000000000;
                            InsertAt None (js "text-block") 1700000000000])
      (init None) = Done w2
    ∧ liveIds w2 = [1700000000000; 1700000000000]%Z
    ∧ ¬ NoDup (liveIds w2)
    ∧ runEvents (eventOf <$> [InsertAt None (js "heading") 1700000000000;
                              InsertAt None (js "text-block") 1700000000000;
                              RemoveById 1700000000000])
        (init None) = Done w3
    ∧ length (live w3) = 0
    ∧ inserts [InsertAt None (js "heading") 1700000000000;
               InsertAt None (js "text-block") 1700000000000;
               RemoveById 1700000000000] = 2
    ∧ matchedRemoves [InsertAt None (js "heading") 1700000000000;
                      InsertAt None (js "text-block") 1700000000000;
                      RemoveById 1700000000000] (init None) = 1.
Proof.
  eexists _, _. split_and!.
  - by vm_compute.
  - by vm_compute.
  - intros H. vm_compute in H. apply NoDup_cons in H as [H _]. apply H. by left.
  - by vm_compute.
  - by vm_compute.
  - by vm_compute.
  - by vm_compute.
Qed.

(** C7, amended. When the clock readings of the inserts of a run are
    pairwise distinct, then after every prefix of the run, started on the
    empty list, the ids in the list are pairwise distinct and the length of
    the list is the number of inserts performed minus the number of removes
    that found their id. *)
Theorem ids_unique_along_run (storage : option (list SavedTemplate))
    (ops : list ListOp) (k : nat) :
  NoDup (clocks ops) →
  ∃ w, runEvents (eventOf <$> take k ops) (init storage) = Done w
       ∧ NoDup (liveIds w)
       ∧ length (live w) + matchedRemoves (take k ops) (init storage)
         = inserts (take k ops).
Proof.
  intros Hclocks.
  destruct (init_empty storage) as [Hlive Hdrag].
  assert (Hprefix : NoDup (clocks (take k ops))).
  { rewrite <- (take_drop k ops), clocks_app in Hclocks.
    by apply NoDup_app in Hclocks as (? & _). }
  destruct (runOps (take k ops) (init storage)) as (w & Hrun & _ & _ & Hnd & Hlen).
  - apply wellFormed_init.
  - done.
  - unfold liveIds. rewrite Hlive. apply NoDup_nil_2.
  - done.
  - unfold liveIds. rewrite Hlive. by intros i ?%elem_of_nil.
  - exists w. rewrite Hlive in Hlen. cbn in Hlen. done.
Qed.

Lemma ids_unique_along_run_witness :
  NoDup (clocks [InsertAt None (js "heading") 1; InsertAt (Some 0) (js "key-value") 2;
                 UpdateField 1 (js "content") (js "x"); RemoveById 1; RemoveById 7])
  ∧ ∃ w, runEvents (eventOf <$> take 5
                      [InsertAt None (js "heading") 1;
                       InsertAt (Some 0) (js "key-value") 2;
                       UpdateField 1 (js "content") (js "x");
                       RemoveById 1; RemoveById 7])
           (init None) = Done w
         ∧ NoDup (liveIds w)
         ∧ length (live w)
           + matchedRemoves (take 5
               [InsertAt None (js "heading") 1;
                InsertAt (Some 0) (js "key-value") 2;
                UpdateField 1 (js "content") (js "x");
                RemoveById 1; RemoveById 7]) (init None)
           = inserts (take 5
               [InsertAt None (js "heading") 1;
                InsertAt (Some 0) (js "key-value") 2;
                UpdateField 1 (js "content") (js "x");
                RemoveById 1; RemoveById 7]).
Proof.
  assert (H : NoDup (clocks [InsertAt None (js "heading") 1;
                             InsertAt (Some 0) (js "key-value") 2;
                             UpdateField 1 (js "content") (js "x");
                             RemoveById 1; RemoveById 7])).
  { cbn. apply NoDup_cons. split; [|apply NoDup_singleton].
    by intros ?%list_elem_of_singleton. }
  split; [exact H|]. exact (ids_unique_along_run None _ 5 H).
Defined.

(** ** Saving *)





Lemma topicWorld_reachable : reachable topicWorld.
Proof.
  apply (reachable_runEvents
           [DropOnCanvas None (Some (js "heading")) 1700000000000;
            ComponentInput 1700000000000 (js "content") (js "Topic: [TOPIC]");
            VariableInput (js "TOPIC") (js "Rust")] (init None));
    [apply reachable_init | by vm_compute].
Qed.


Lemma deep_copy_isolation_witness :
  reachable topicWorld
  ∧ Forall liveMutation
      [ComponentInput 1700000000000 (js "content") (js "changed");
       DeleteComponent 1700000000000]
  ∧ ∀ w', runEvents
            [ComponentInput 1700000000000 (js "content") (js "changed");
             DeleteComponent 1700000000000] topicWorld = Done w' →
          templates w' = templates topicWorld
          ∧ ∀ t, t ∈ templates topicWorld → stored w' t = stored topicWorld t.
Proof.
  assert (H : Forall liveMutation
                [ComponentInput 1700000000000 (js "content") (js "changed");
                 DeleteComponent 1700000000000])
    by (repeat constructor).
  split; [apply topicWorld_reachable|]. split; [exact H|].
  exact (proj1 (deep_copy_isolation topicWorld _ topicWorld_reachable H)).
Defined.

(** A template saved from the page of the example keeps its components
    when the live heading is edited and then deleted, and a list loaded
    from it can be edited without a trace in the template. *)
Example deep_copy_example :
  let w1 := worldOf (saveAttempt (js "topic") 1700000000001 true topicWorld) in
  let w2 := worldOf (runEvents
                       [ComponentInput 1700000000000 (js "content") (js "changed");
                        LoadTemplate 1700000000001;
                        ComponentInput 1700000000000 (js "content") (js "again");
                        DeleteComponent 1700000000000] w1) in
  (stored w1 <$> templates w1) = [live topicWorld]
  ∧ (stored w2 <$> templates w2) = [live topicWorld]
  ∧ live w2 = [].
Proof. split_and!; by vm_compute. Qed.

(** ** The keys of the variable mapping are names *)

Lemma variablesNamed_upd (w : World) :
  namesOnly (variables w) → variablesNamed (updatePreviewAndVariables w).
Proof.
  intros H. split.
  - by apply namesOnly_updatePreviewAndVariables.
  - rewrite variableForm_updatePreviewAndVariables. apply detectVariables_names.
Qed.

Lemma variablesNamed_ext (w w' : World) :
  variables w' = variables w → variableForm w' = variableForm w →
  variablesNamed w → variablesNamed w'.
Proof. unfold variablesNamed. by intros -> ->. Qed.

Lemma variables_allocComponents (cs : list Component.t) (w w1 : World) (a : loc) :
  allocComponents cs w = (a, w1) →
  variables w1 = variables w ∧ variableForm w1 = variableForm w.
Proof. by intros (ls & o & _ & _ & ->)%allocComponents_spec. Qed.

Lemma variables_saveState (ok : bool) (w : World) :
  variables (saveState ok w) = variables w
  ∧ variableForm (saveState ok w) = variableForm w.
Proof. by destruct ok. Qed.

Lemma step_variablesNamed (e : Event) (w w' : World) :
  variablesNamed w → step e w = Done w' → variablesNamed w'.
Proof.
  intros Hv. pose proof Hv as [Hvars Hform]. destruct e; cbn [step].
  - by destruct (_ <? _); intros [= <-].
  - by intros [= <-].
  - unfold promptCanvas_drop. destruct (draggedElement w).
    + destruct (moveWithinList _ _ _); [|done]. intros [= <-].
      by apply variablesNamed_upd.
    + destruct componentType as [[|c t]|]; intros [= <-];
        by apply variablesNamed_upd.
  - intros [= <-]. unfold promptCanvas_input.
    destruct (findComponent _ _); [|done].
    destruct (isContentProperty _); [|done]. by apply variablesNamed_upd.
  - intros [= <-]. unfold promptCanvas_click, allocArr.
    by apply variablesNamed_upd.
  - case_bool_decide as Hin; intros [= <-]; [|done].
    unfold variableForm_input. destruct varName as [|c varName]; [done|].
    apply variablesNamed_upd. cbn. apply namesOnly_setProperty; [done|].
    rewrite Forall_forall in Hform. by apply Hform.
  - intros [= <-]. unfold templateList_load, jsonClone.
    destruct (findTemplate _ _); [|done].
    destruct (allocComponents _ w) as [newArr w1] eqn:E.
    destruct (variables_allocComponents _ _ _ _ E) as [Hv1 _].
    apply variablesNamed_upd. cbn. by rewrite Hv1.
  - intros [= <-]. unfold templateList_delete. destruct confirmed; [|done].
    set (w2 := set_templates _ w).
    destruct (variables_saveState ok w2) as [Hv2 Hf2].
    by apply (variablesNamed_ext w).
  - intros [= <-]. unfold saveTemplateButton_click. by destruct (_ =? _).
  - intros [= <-].
    unfold saveTemplateForm_submit, jsonClone. destruct (trim input); [done|].
    destruct (allocComponents _ w) as [newArr w1] eqn:E.
    destruct (variables_allocComponents _ _ _ _ E) as [Hv1 Hf1].
    unfold closeModal. set (w2 := set_templates _ w1).
    destruct (variables_saveState ok w2) as [Hv2 Hf2].
    apply (variablesNamed_ext w); [by rewrite <- Hv1 | by rewrite <- Hf1 | done].
  - by intros [= <-].
Qed.

(** In every reachable world the keys of [state.variables] are variable
    names: the engine only ever adds detected names, and the form only has
    inputs for detected names. *)
Lemma reachable_variablesNamed (w : World) : reachable w → variablesNamed w.
Proof.
  induction 1 as [storage | w e w' _ IH Hstep].
  - unfold init, render. apply variablesNamed_upd.
    unfold loadState. cbn [localStorage pageLoaded].
    destruct storage as [saved|]; [|by constructor].
    destruct (parseTemplates saved _) as [ts w1] eqn:E.
    destruct (parseTemplates_frame _ _ _ _ E) as (_ & _ & Hv & _).
    cbn. rewrite Hv. by constructor.
  - by apply (step_variablesNamed e w w').
Qed.

(** * More of the page script *)

(** ** [escapeHTML] *)

Lemma escapeChar_safe (c : ascii) :
  Forall (λ x, x ≠ "<"%char ∧ x ≠ ">"%char ∧ x ≠ DQUOTE ∧ x ≠ "'"%char)
    (escapeChar c).
Proof.
  unfold escapeChar. repeat case_bool_decide; repeat constructor; done.
Qed.

Lemma escapeChar_prefix_inj (c d : ascii) (r r' : str) :
  escapeChar c ++ r = escapeChar d ++ r' → c = d ∧ r = r'.
Proof.
  unfold escapeChar. repeat case_bool_decide; subst; cbn; intros Heq;
    simplify_eq; done.
Qed.

Lemma escapeHTML_app (a b : str) :
  escapeHTML (a ++ b) = escapeHTML a ++ escapeHTML b.
Proof. unfold escapeHTML. by rewrite fmap_app, concat_app. Qed.

(** An entity starts with the only ampersand it has; a character that is
    not escaped is not an ampersand. *)
Lemma escapeChar_shape (c : ascii) :
  (∃ entity, entity ∈ [js "amp;"; js "lt;"; js "gt;"; js "quot;"; js "#39;"]
             ∧ escapeChar c = "&"%char :: entity ∧ "&"%char ∉ entity)
  ∨ (escapeChar c = [c] ∧ c ≠ "&"%char).
Proof.
  unfold escapeChar. repeat case_bool_decide; [left..|by right].
  - exists (js "amp;"). split_and!; [set_solver | done | set_solver].
  - exists (js "lt;"). split_and!; [set_solver | done | set_solver].
  - exists (js "gt;"). split_and!; [set_solver | done | set_solver].
  - exists (js "quot;"). split_and!; [set_solver | done | set_solver].
  - exists (js "#39;"). split_and!; [set_solver | done | set_solver].
Qed.

Lemma split_after_absent (x : ascii) (u rest pre post : str) :
  x ∉ u → u ++ rest = pre ++ x :: post →
  ∃ pre', pre = u ++ pre' ∧ rest = pre' ++ x :: post.
Proof.
  revert pre. induction u as [|y u IH]; intros pre Hx; cbn.
  - intros ->. by exists pre.
  - apply not_elem_of_cons in Hx as [Hxy Hx].
    destruct pre as [|p pre]; cbn; [congruence|].
    intros [= -> E]. destruct (IH _ Hx E) as (pre' & -> & ->). by exists pre'.
Qed.

(** X1. The text [escapeHTML] returns holds no angle bracket and no quote,
    every ampersand of it opens one of the five entities, and a text
    without the five characters is returned as it is. *)
Theorem escapeHTML_safe (s : str) :
  Forall (λ x, x ≠ "<"%char ∧ x ≠ ">"%char ∧ x ≠ DQUOTE ∧ x ≠ "'"%char)
    (escapeHTML s)
  ∧ (∀ pre post, escapeHTML s = pre ++ "&"%char :: post →
       ∃ entity post',
         entity ∈ [js "amp;"; js "lt;"; js "gt;"; js "quot;"; js "#39;"]
         ∧ post = entity ++ post')
  ∧ (Forall (λ x, x ≠ "&"%char ∧ x ≠ "<"%char ∧ x ≠ ">"%char
                  ∧ x ≠ DQUOTE ∧ x ≠ "'"%char) s →
     escapeHTML s = s).
Proof.
  split_and!.
  - unfold escapeHTML. induction s as [|c s IH]; [constructor|].
    cbn. apply Forall_app. split; [apply escapeChar_safe | done].
  - induction s as [|c s IH]; intros pre post.
    { by destruct pre. }
    change (escapeHTML (c :: s)) with (escapeChar c ++ escapeHTML s).
    destruct (escapeChar_shape c) as [(entity & Hin & -> & Habs) | [-> Hc]].
    + destruct pre as [|p pre]; cbn.
      * intros [= <-]. by exists entity, (escapeHTML s).
      * intros [= <- E].
        destruct (split_after_absent _ _ _ _ _ Habs E) as (pre' & _ & E').
        by apply (IH pre' post).
    + destruct pre as [|p pre]; cbn; [congruence|].
      intros [= <- E]. by apply (IH pre post).
  - induction 1 as [|c s (? & ? & ? & ? & ?) _ IH]; [done|].
    change (escapeHTML (c :: s)) with (escapeChar c ++ escapeHTML s).
    rewrite IH. unfold escapeChar. by rewrite !bool_decide_eq_false_2 by done.
Qed.

(** X2. [escapeHTML] loses nothing: two texts with the same escaped text
    are the same text. *)
Theorem escapeHTML_injective (a b : str) :
  escapeHTML a = escapeHTML b → a = b.
Proof.
  revert b. induction a as [|c a IH]; intros [|d b].
  - done.
  - change (escapeHTML (d :: b)) with (escapeChar d ++ escapeHTML b).
    unfold escapeChar. by repeat case_bool_decide.
  - change (escapeHTML (c :: a)) with (escapeChar c ++ escapeHTML a).
    unfold escapeChar. by repeat case_bool_decide.
  - change (escapeHTML (c :: a)) with (escapeChar c ++ escapeHTML a).
    change (escapeHTML (d :: b)) with (escapeChar d ++ escapeHTML b).
    intros [-> E]%escapeChar_prefix_inj. by rewrite (IH _ E).
Qed.

Lemma escapeHTML_injective_witness :
  escapeHTML (js "a<b") = escapeHTML (js "a<b") ∧ js "a<b" = js "a<b".
Proof.
  split; [reflexivity|].
  exact (escapeHTML_injective (js "a<b") (js "a<b") eq_refl).
Defined.

(** ** Deleting a component *)



(** ** Drops *)

Lemma moveWithinList_None {A} (arr : list A) (i j : nat) :
  moveWithinList arr i j = None ↔ length arr ≤ i ∧ normalizedIndex i j ≠ i.
Proof.
  unfold moveWithinList. cbv zeta.
  destruct (i =? normalizedIndex i j) eqn:E.
  - apply Nat.eqb_eq in E. split; [done | intros [_ ?]; congruence].
  - apply Nat.eqb_neq in E. unfold splice. cbn [fst snd].
    destruct (decide (i < length arr)) as [Hlt|Hge].
    + destruct (lookup_lt_is_Some_2 arr i Hlt) as [x Hx].
      replace (i `min` length arr) with i by lia.
      rewrite (drop_S arr x i Hx).
      replace (1 `min` (length arr - i)) with 1 by lia. cbn.
      split; [done | intros [? _]; lia].
    + replace (i `min` length arr) with (length arr) by lia.
      rewrite drop_all, take_nil. split; [intros _; split; [lia | congruence] | done].
Qed.

Lemma length_live (w : World) : length (live w) = length (elements w (components w)).
Proof. unfold live, contents. apply length_fmap. Qed.

Lemma promptCanvas_drop_Thrown (placeholder : option nat)
    (componentType : option str) (now : Z) (w : World) :
  promptCanvas_drop placeholder componentType now w = Thrown
  ↔ ∃ fromIndex,
      draggedElement w = Some fromIndex
      ∧ length (live w) ≤ fromIndex
      ∧ normalizedIndex fromIndex (default (length (live w)) placeholder)
        ≠ fromIndex.
Proof.
  rewrite length_live. unfold promptCanvas_drop.
  destruct (draggedElement w) as [fromIndex|].
  - destruct (moveWithinList _ _ _) as [arr'|] eqn:E.
    + split; [done|]. intros (i & [= <-] & Hlen & Hne).
      assert (moveWithinList (elements w (components w)) fromIndex
                (default (length (elements w (components w))) placeholder) = None)
        by (by apply moveWithinList_None).
      congruence.
    + split; [|done]. intros _. apply moveWithinList_None in E as [? ?].
      by exists fromIndex.
  - split; [by destruct componentType as [[|c t]|] | by intros (i & ? & _)].
Qed.

(** X4. The drop listener throws in one case only: an element is being
    dragged whose index is not below the length of the list, and the drop
    is not onto its own position.  The listener then has stored
    [undefined] in the list. *)
Theorem drop_throws_iff (placeholder : option nat) (componentType : option str)
    (now : Z) (w : World) :
  promptCanvas_drop placeholder componentType now w = Thrown
  ↔ ∃ fromIndex,
      draggedElement w = Some fromIndex
      ∧ length (live w) ≤ fromIndex
      ∧ normalizedIndex fromIndex (default (length (live w)) placeholder)
        ≠ fromIndex.
Proof. apply promptCanvas_drop_Thrown. Qed.



(** X6. A drop from the palette puts the new component at the position of
    the placeholder, or at the end of the list when there is no placeholder
    or its position is past the end (as it is on the empty canvas); the
    components that were there keep their order; the id of the new
    component is the clock reading and its type is the payload. *)
Theorem insert_position (placeholder : option nat) (c : ascii) (type' : str)
    (now : Z) (w : World) :
  wellFormed w → draggedElement w = None →
  let k := default (length (live w)) placeholder `min` length (live w) in
  let new := createNewComponent (c :: type') now in
  ∃ w',
    promptCanvas_drop placeholder (Some (c :: type')) now w = Done w'
    ∧ live w' = take k (live w) ++ new :: drop k (live w)
    ∧ live w' !! k = Some new
    ∧ delete k (live w') = live w
    ∧ length (live w') = S (length (live w))
    ∧ Component.id new = now
    ∧ Component.type new = c :: type'.
Proof.
  intros Hwf Hdrag k new.
  destruct (live_drop_insert placeholder c type' now w Hwf Hdrag)
    as (w' & E & Hlive).
  exists w'. split; [done|].
  assert (Hk : length (take k (live w)) = k)
    by (rewrite length_take; unfold k; lia).
  assert (Hshape : live w' = take k (live w) ++ new :: drop k (live w)).
  { rewrite Hlive. unfold splice. cbn [fst]. fold k.
    replace (0 `min` (length (live w) - k)) with 0 by lia.
    by rewrite Nat.add_0_r. }
  split_and!.
  - done.
  - rewrite Hshape. rewrite <- Hk at 1. apply list_lookup_middle. done.
  - rewrite Hshape. rewrite <- Hk at 1. by rewrite delete_middle, take_drop.
  - rewrite Hshape, length_app. cbn. rewrite length_take, length_drop. unfold k. lia.
  - apply id_createNewComponent.
  - unfold new, createNewComponent. by repeat case_bool_decide.
Qed.

Lemma insert_position_witness :
  wellFormed (init None) ∧ draggedElement (init None) = None
  ∧ ∃ w', promptCanvas_drop (Some 1) (Some (js "heading")) 7 (init None) = Done w'
          ∧ live w'
            = take (default (length (live (init None))) (Some 1)
                    `min` length (live (init None))) (live (init None))
              ++ createNewComponent (js "heading") 7
                 :: drop (default (length (live (init None))) (Some 1)
                          `min` length (live (init None))) (live (init None)).
Proof.
  split; [apply wellFormed_init|]. split; [reflexivity|].
  destruct (insert_position (Some 1) "h"%char (js "eading") 7 (init None)
              (wellFormed_init None) eq_refl) as (w' & E & Hlive & _).
  exists w'. by split.
Defined.

(** ** Edits through the rendered inputs *)

Lemma isPlainText_replaceHyphen (s : str) :
  isPlainText (replaceHyphen s) = isPlainText s.
Proof.
  unfold isPlainText.
  induction s as [|c s IH]; [done|]. cbn [replaceHyphen].
  case_bool_decide as Hc.
  - subst c. done.
  - cbn. by rewrite IH.
Qed.

Lemma isPlainText_Forall (s : str) :
  Forall (λ x, x ≠ "<"%char) s → isPlainText s = true.
Proof.
  unfold isPlainText.
  induction 1 as [|c s Hc _ IH]; [done|]. cbn.
  by rewrite bool_decide_eq_false_2, IH.
Qed.

Lemma componentInputs_valid (component : Component.t) (property shown : str) :
  (property, shown) ∈ componentInputs component →
  validField (Component.type component) property = true
  ∧ isContentProperty property = true.
Proof.
  unfold componentInputs, validField.
  destruct (decide (Component.type component = js "heading")) as [E1|E1].
  { rewrite !(bool_decide_eq_true_2 _ E1).
    by intros [= -> _]%list_elem_of_singleton. }
  rewrite !(bool_decide_eq_false_2 _ E1).
  destruct (decide (Component.type component = js "text-block")) as [E2|E2].
  { rewrite !(bool_decide_eq_true_2 _ E2).
    by intros [= -> _]%list_elem_of_singleton. }
  rewrite !(bool_decide_eq_false_2 _ E2).
  destruct (decide (Component.type component = js "key-value")) as [E3|E3].
  { rewrite !(bool_decide_eq_true_2 _ E3).
    intros [[= -> _] | [= -> _]%list_elem_of_singleton]%elem_of_cons; done. }
  rewrite !(bool_decide_eq_false_2 _ E3). by intros ?%elem_of_nil.
Qed.

Lemma updateFirst_at (f : Component.t → Component.t) (cs : list Component.t)
    (i : nat) (c : Component.t) :
  NoDup (Component.id <$> cs) → cs !! i = Some c →
  updateFirst (Component.id c) f cs = <[i := f c]> cs.
Proof.
  revert i. induction cs as [|x cs IH]; intros i; [done|].
  cbn [fmap list_fmap]. intros [Hx Hnd]%NoDup_cons. cbn [updateFirst].
  destruct i as [|i]; cbn.
  - intros [= ->]. by rewrite bool_decide_eq_true_2.
  - intros Hc. rewrite bool_decide_eq_false_2.
    + by rewrite (IH i Hnd Hc).
    + intros Heq. apply Hx. rewrite Heq.
      apply list_elem_of_fmap. exists c. split; [done|].
      by apply list_elem_of_lookup_2 in Hc.
Qed.

(** X7. Take an element that [renderCanvas] has put on the page for a
    component whose type holds no [<], so that the type, written into the
    element without escaping, adds no markup.  While the ids of the list
    are pairwise distinct, an edit made in an input of that element sets a
    field that belongs to the kind of the edited component, on that very
    component, and changes no other component. *)
Theorem rendered_input_edit (w : World) (el : CanvasElement.t)
    (ins : list (str * str)) (property shown value : str) :
  wellFormed w → NoDup (liveIds w) →
  el ∈ renderCanvas w →
  CanvasElement.inputs el = Some ins → (property, shown) ∈ ins →
  ∃ component,
    live w !! CanvasElement.index el = Some component
    ∧ Component.id component = CanvasElement.componentId el
    ∧ validField (Component.type component) property = true
    ∧ live (promptCanvas_input (CanvasElement.componentId el) property value w)
      = <[CanvasElement.index el := setField property value component]> (live w).
Proof.
  intros (_ & Hnd & _) Hids Hel Hins Hin. unfold renderCanvas in Hel.
  apply elem_of_lookup_imap in Hel as (i & component & -> & Hc).
  unfold CanvasElement.inputs, createComponentElement in Hins.
  cbn [CanvasElement.title CanvasElement.body] in Hins.
  destruct (isPlainText _); [|done]. apply (inj Some) in Hins. subst ins.
  cbn [createComponentElement CanvasElement.index CanvasElement.componentId].
  destruct (componentInputs_valid component property shown Hin) as [Hvalid Hprop].
  exists component. split_and!; [done..|].
  rewrite live_input by done. rewrite Hprop.
  by apply updateFirst_at.
Qed.

Lemma rendered_input_edit_witness :
  wellFormed headingWorld ∧ NoDup (liveIds headingWorld)
  ∧ createComponentElement
      (Component.mk 1700000000000 (js "heading") (Some (js "New Heading")) None None) 0
    ∈ renderCanvas headingWorld
  ∧ ∃ component,
      live headingWorld !! 0 = Some component
      ∧ Component.id component = 1700000000000%Z
      ∧ validField (Component.type component) (js "content") = true
      ∧ live (promptCanvas_input 1700000000000 (js "content") (js "Title")
                headingWorld)
        = <[0 := setField (js "content") (js "Title") component]> (live headingWorld).
Proof.
  assert (Hwf : wellFormed headingWorld).
  { apply reachable_wellFormed.
    apply (reachable_runEvents
             [DropOnCanvas None (Some (js "heading")) 1700000000000] (init None));
      [apply reachable_init | by vm_compute]. }
  assert (Hnd : NoDup (liveIds headingWorld))
    by (vm_compute; apply NoDup_singleton).
  assert (Hel : createComponentElement
                  (Component.mk 1700000000000 (js "heading")
                     (Some (js "New Heading")) None None) 0
                ∈ renderCanvas headingWorld)
    by (vm_compute; left).
  split_and!; [done..|].
  apply (rendered_input_edit headingWorld _
           [(js "content", js "New Heading")]
           (js "content") (js "New Heading") (js "Title") Hwf Hnd Hel).
  - by vm_compute.
  - left.
Defined.

(** ** The preview follows the components *)

Lemma inSync_upd (w : World) : inSync (updatePreviewAndVariables w).
Proof.
  unfold inSync. rewrite live_updatePreviewAndVariables. split_and!.
  - apply variableForm_updatePreviewAndVariables.
  - rewrite variables_updatePreviewAndVariables. apply hasOwnProperty_addMissing.
  - apply livePreview_updatePreviewAndVariables.
Qed.

Lemma inSync_ext (w w' : World) :
  live w' = live w → variables w' = variables w →
  variableForm w' = variableForm w → livePreview w' = livePreview w →
  inSync w → inSync w'.
Proof. unfold inSync. by intros -> -> -> ->. Qed.

Lemma submit_page (input : str) (now : Z) (ok : bool) (w : World) :
  variables (saveTemplateForm_submit input now ok w) = variables w
  ∧ variableForm (saveTemplateForm_submit input now ok w) = variableForm w
  ∧ livePreview (saveTemplateForm_submit input now ok w) = livePreview w.
Proof.
  unfold saveTemplateForm_submit, jsonClone. destruct (trim input); [done|].
  destruct (allocComponents _ w) as [newArr w1] eqn:E.
  apply allocComponents_spec in E as (ls & o & _ & _ & ->).
  by destruct ok.
Qed.

Lemma live_submit (input : str) (now : Z) (ok : bool) (w : World) :
  wellFormed w → live (saveTemplateForm_submit input now ok w) = live w.
Proof.
  intros Hwf. destruct (decide (trim input = [])) as [E|E].
  - unfold saveTemplateForm_submit. by rewrite E.
  - by destruct (submit_spec input now ok w Hwf E) as (a & _ & _ & _ & _ & ? & _).
Qed.

Lemma step_inSync (e : Event) (w w' : World) :
  wellFormed w → inSync w → step e w = Done w' → inSync w'.
Proof.
  intros Hwf Hs. destruct e; cbn [step].
  - destruct (_ <? _); intros [= <-]; [|done]. by apply (inSync_ext w).
  - intros [= <-]. by apply (inSync_ext w).
  - unfold promptCanvas_drop. destruct (draggedElement w).
    + destruct (moveWithinList _ _ _); [|done]. intros [= <-]. apply inSync_upd.
    + destruct componentType as [[|c t]|]; intros [= <-]; apply inSync_upd.
  - intros [= <-]. unfold promptCanvas_input.
    destruct (findComponent _ _); [|done].
    destruct (isContentProperty _); [|done]. apply inSync_upd.
  - intros [= <-]. unfold promptCanvas_click, allocArr. apply inSync_upd.
  - destruct (bool_decide _); intros [= <-]; [|done].
    unfold variableForm_input. destruct varName; [done|]. apply inSync_upd.
  - intros [= <-]. unfold templateList_load, jsonClone.
    destruct (findTemplate _ _); [|done].
    destruct (allocComponents _ w) as [newArr w1]. apply inSync_upd.
  - intros [= <-]. unfold templateList_delete. destruct confirmed; [|done].
    apply (inSync_ext w); [by destruct ok..|done].
  - intros [= <-]. unfold saveTemplateButton_click.
    destruct (_ =? _); by apply (inSync_ext w).
  - intros [= <-].
    destruct (submit_page input now ok w) as (? & ? & ?).
    apply (inSync_ext w); [by apply live_submit | done..].
  - intros [= <-]. by apply (inSync_ext w).
Qed.

Lemma reachable_inSync (w : World) : reachable w → inSync w.
Proof.
  induction 1 as [storage | w e w' Hw IH Hstep].
  - apply inSync_upd.
  - by apply (step_inSync e w w' (reachable_wellFormed w Hw)).
Qed.



(** ** Stored values *)

Lemma getProperty_upd (w : World) (name v : str) :
  getProperty (variables w) name = Some v →
  getProperty (variables (updatePreviewAndVariables w)) name = Some v.
Proof.
  intros H. rewrite variables_updatePreviewAndVariables.
  by apply getProperty_addMissing_Some.
Qed.

Lemma step_keeps_value (e : Event) (w w' : World) (name v : str) :
  step e w = Done w' →
  getProperty (variables w) name = Some v →
  (∀ value, e ≠ VariableInput name value) →
  getProperty (variables w') name = Some v.
Proof.
  intros Hstep Hget Hne. destruct e; cbn [step] in Hstep.
  - by destruct (_ <? _); injection Hstep as <-.
  - by injection Hstep as <-.
  - unfold promptCanvas_drop in Hstep. destruct (draggedElement w).
    + destruct (moveWithinList _ _ _); [|done]. injection Hstep as <-.
      by apply getProperty_upd.
    + destruct componentType as [[|c t]|]; injection Hstep as <-;
        by apply getProperty_upd.
  - injection Hstep as <-. unfold promptCanvas_input.
    destruct (findComponent _ _); [|done].
    destruct (isContentProperty _); [|done]. by apply getProperty_upd.
  - injection Hstep as <-. unfold promptCanvas_click, allocArr.
    by apply getProperty_upd.
  - destruct (bool_decide _); injection Hstep as <-; [|done].
    unfold variableForm_input. destruct varName as [|c varName]; [done|].
    apply getProperty_upd. cbn. rewrite getProperty_setProperty.
    rewrite bool_decide_eq_false_2; [done|].
    intros Heq. apply (Hne value). by rewrite Heq.
  - injection Hstep as <-. unfold templateList_load, jsonClone.
    destruct (findTemplate _ _); [|done].
    destruct (allocComponents _ w) as [newArr w1] eqn:E.
    destruct (variables_allocComponents _ _ _ _ E) as [Hv1 _].
    apply getProperty_upd. cbn. by rewrite Hv1.
  - injection Hstep as <-. unfold templateList_delete.
    destruct confirmed; [|done]. by destruct ok.
  - injection Hstep as <-. unfold saveTemplateButton_click. by destruct (_ =? _).
  - injection Hstep as <-.
    by destruct (submit_page input now ok w) as (-> & _).
  - by injection Hstep as <-.
Qed.

(** X9. No listener but the input listener of the variable form, on the
    input of that very name, changes or drops a stored value: edits,
    deletions, drops and template loads keep every entry, the entries of
    names that are no longer in the text included. *)
Theorem stored_values_kept (e : Event) (w w' : World) (name v : str) :
  step e w = Done w' →
  getProperty (variables w) name = Some v →
  (∀ value, e ≠ VariableInput name value) →
  getProperty (variables w') name = Some v.
Proof. apply step_keeps_value. Qed.

Lemma stored_values_kept_witness :
  step (DeleteComponent 1700000000000) topicWorld
  = Done (promptCanvas_click 1700000000000 topicWorld)
  ∧ getProperty (variables topicWorld) (js "TOPIC") = Some (js "Rust")
  ∧ getProperty (variables (promptCanvas_click 1700000000000 topicWorld))
      (js "TOPIC") = Some (js "Rust").
Proof.
  assert (H : getProperty (variables topicWorld) (js "TOPIC") = Some (js "Rust"))
    by (by vm_compute).
  split; [reflexivity|]. split; [exact H|].
  apply (stored_values_kept (DeleteComponent 1700000000000) topicWorld _
           (js "TOPIC") (js "Rust") eq_refl H).
  intros value. discriminate.
Defined.

Lemma hasOwnProperty_setProperty (obj : list (str * str)) (name v n : str) :
  hasOwnProperty obj n = true → hasOwnProperty (setProperty obj name v) n = true.
Proof.
  rewrite !hasOwnProperty_getProperty, getProperty_setProperty.
  case_bool_decide; [by eexists | done].
Qed.

(** X10. In a reachable world, typing into the input of a variable stores
    the typed text for that name, at the place the name has in the mapping,
    and changes no other entry and no component; the preview is
    recomputed with it. *)
Theorem variable_input_spec (varName value : str) (w w' : World) :
  reachable w → varName ∈ variableForm w →
  step (VariableInput varName value) w = Done w' →
  variables w' = setProperty (variables w) varName value
  ∧ getProperty (variables w') varName = Some value
  ∧ (∀ name, name ≠ varName →
             getProperty (variables w') name = getProperty (variables w) name)
  ∧ (variables w').*1 = (variables w).*1
  ∧ live w' = live w
  ∧ livePreview w' = trim (substitute (variables w') (fullText (live w))).
Proof.
  intros Hw Hin. pose proof (reachable_inSync w Hw) as (Hform & Hentries & _).
  pose proof (reachable_variablesNamed w Hw) as [_ Hnames].
  cbn [step]. rewrite bool_decide_eq_true_2 by done. intros [= <-].
  unfold variableForm_input.
  destruct varName as [|c varName].
  { rewrite Forall_forall in Hnames. by apply Hnames in Hin. }
  set (name := c :: varName) in *.
  assert (Hvars : variables (updatePreviewAndVariables
                    (set_variables (setProperty (variables w) name value) w))
                  = setProperty (variables w) name value).
  { rewrite variables_updatePreviewAndVariables. cbn.
    apply addMissing_present. change (live (set_variables _ w)) with (live w).
    eapply Forall_impl; [exact Hentries|].
    intros n Hn. by apply hasOwnProperty_setProperty. }
  assert (Hkey : hasOwnProperty (variables w) name = true).
  { rewrite Forall_forall in Hentries. apply Hentries. by rewrite <- Hform. }
  split_and!.
  - done.
  - rewrite Hvars, getProperty_setProperty. by rewrite bool_decide_eq_true_2.
  - intros n Hn. rewrite Hvars, getProperty_setProperty.
    by rewrite bool_decide_eq_false_2.
  - rewrite Hvars. unfold hasOwnProperty in Hkey.
    apply bool_decide_eq_true in Hkey. clear -Hkey.
    induction (variables w) as [|[k v] obj IH]; [by apply elem_of_nil in Hkey|].
    cbn. destruct (decide (k = name)) as [->|Hne].
    + by rewrite bool_decide_eq_true_2.
    + rewrite bool_decide_eq_false_2 by done. cbn. f_equal. apply IH.
      cbn in Hkey. apply elem_of_cons in Hkey as [?|?]; [congruence|done].
  - by rewrite live_updatePreviewAndVariables.
  - by rewrite livePreview_updatePreviewAndVariables.
Qed.

Lemma variable_input_spec_witness :
  reachable topicWorld ∧ js "TOPIC" ∈ variableForm topicWorld
  ∧ variables (variableForm_input (js "TOPIC") (js "Go") topicWorld)
    = setProperty (variables topicWorld) (js "TOPIC") (js "Go").
Proof.
  assert (Hin : js "TOPIC" ∈ variableForm topicWorld) by (vm_compute; left).
  split; [apply topicWorld_reachable|]. split; [exact Hin|].
  refine (proj1 (variable_input_spec (js "TOPIC") (js "Go") topicWorld _
                   topicWorld_reachable Hin _)).
  by vm_compute.
Defined.

(** ** Persistence *)

Lemma alloc_keeps (cs : list Component.t) (w w1 : World) (a a' : loc) :
  allocComponents cs w = (a, w1) → allocated w a' →
  allocated w1 a' ∧ contents w1 a' = contents w a'.
Proof.
  intros E [Ha' Hls].
  destruct (contents_alloc_frame _ _ _ _ a' E Ha' Hls) as [Hel Hc].
  destruct (allocComponents_heap _ _ _ _ E) as (_ & _ & _ & Harrs & Hobjs & _).
  split; [|done]. split; [by apply Harrs|].
  intros l. rewrite Hel. intros Hl. by apply Hobjs, Hls.
Qed.

Lemma alloc_new (cs : list Component.t) (w w1 : World) (a : loc) :
  allocComponents cs w = (a, w1) → allocated w1 a ∧ contents w1 a = cs.
Proof.
  intros E.
  destruct (allocComponents_heap _ _ _ _ E) as (_ & Ha & _ & _ & _ & _ & Hls & Hc).
  split; [|done]. split; [done|]. intros l Hl. by apply Hls.
Qed.

Lemma parseTemplates_contents (saved : list SavedTemplate) :
  ∀ (w w' : World) (ts : list Template.t),
    parseTemplates saved w = (ts, w') →
    (λ t, (Template.id t, Template.name t, contents w' (Template.components t)))
      <$> ts = saved
    ∧ (∀ a', allocated w a' → allocated w' a' ∧ contents w' a' = contents w a').
Proof.
  induction saved as [|[[i n] cs] saved IH]; intros w w' ts; cbn.
  - by intros [= <- <-].
  - destruct (allocComponents cs w) as [a w1] eqn:E.
    destruct (parseTemplates saved w1) as [ts' w2] eqn:E'.
    intros [= <- <-]. destruct (IH _ _ _ E') as [Hts Hframe].
    destruct (alloc_new _ _ _ _ E) as [Ha Hc].
    destruct (Hframe a Ha) as [_ Hc2]. split.
    + cbn [fmap list_fmap Template.id Template.name Template.components].
      by rewrite Hts, Hc2, Hc.
    + intros a' Ha'. destruct (alloc_keeps _ _ _ _ a' E Ha') as [Ha1 Hc1].
      destruct (Hframe a' Ha1) as [? ?]. split; [done | congruence].
Qed.

Lemma snapshot_ext (w w' : World) :
  objs w' = objs w → arrs w' = arrs w → templates w' = templates w →
  snapshot w' = snapshot w.
Proof. unfold snapshot, stored, contents, elements. by intros -> -> ->. Qed.

Lemma snapshot_init (saved : list SavedTemplate) :
  snapshot (init (Some saved)) = saved.
Proof.
  unfold init, render.
  rewrite (snapshot_ext (loadState (pageLoaded (Some saved))))
    by (by rewrite ?objs_upd, ?arrs_upd, ?templates_upd).
  unfold loadState. cbn [localStorage pageLoaded].
  destruct (parseTemplates saved _) as [ts w1] eqn:E.
  by destruct (parseTemplates_contents _ _ _ _ E) as [Hts _].
Qed.

(** X11. The template store survives a reload of the page: [init] on a
    stored record builds templates with the ids, the names and the
    components of the record, in its order, so the store written by
    [saveState] is the store read back; the component list and the variable
    mapping start empty. *)
Theorem reload_restores_templates (saved : list SavedTemplate) (w : World) :
  snapshot (init (Some saved)) = saved
  ∧ snapshot (init (localStorage (saveState true w))) = snapshot w
  ∧ live (init (Some saved)) = []
  ∧ variables (init (Some saved)) = []
  ∧ templates (init None) = [].
Proof.
  split_and!.
  - apply snapshot_init.
  - cbn. apply snapshot_init.
  - apply init_empty.
  - unfold init, render. rewrite variables_updatePreviewAndVariables.
    destruct (init_empty (Some saved)) as [Hlive _].
    unfold init, render in Hlive. rewrite live_updatePreviewAndVariables in Hlive.
    rewrite Hlive.
    assert (Hv : variables (loadState (pageLoaded (Some saved))) = []).
    { unfold loadState. cbn [localStorage pageLoaded].
      destruct (parseTemplates saved _) as [ts w1] eqn:E. cbn.
      by destruct (parseTemplates_frame _ _ _ _ E) as (_ & _ & -> & _). }
    by rewrite Hv.
  - done.
Qed.

Lemma localStorage_parseTemplates (saved : list SavedTemplate) :
  ∀ (w w' : World) (ts : list Template.t),
    parseTemplates saved w = (ts, w') → localStorage w' = localStorage w.
Proof.
  induction saved as [|[[i n] cs] saved IH]; intros w w' ts; cbn.
  - by intros [= <- <-].
  - destruct (allocComponents cs w) as [a w1] eqn:E.
    destruct (parseTemplates saved w1) as [ts' w2] eqn:E'.
    intros [= <- <-]. rewrite (IH _ _ _ E').
    by apply allocComponents_spec in E as (ls & o & _ & _ & ->).
Qed.

Lemma persisted_init (storage : option (list SavedTemplate)) :
  persisted (init storage) = snapshot (init storage).
Proof.
  destruct storage as [saved|]; [|done].
  rewrite snapshot_init. unfold persisted, init, render.
  rewrite localStorage_upd. unfold loadState. cbn [localStorage pageLoaded].
  destruct (parseTemplates saved _) as [ts w1] eqn:E. cbn.
  by rewrite (localStorage_parseTemplates _ _ _ _ E).
Qed.

Lemma snapshot_preserved (w w' : World) :
  wellFormed w → preserves w w' → templates w' = templates w →
  snapshot w' = snapshot w.
Proof.
  intros Hwf Hpres Hts. unfold snapshot. rewrite Hts.
  apply list_fmap_ext. intros i t Ht%list_elem_of_lookup_2.
  by destruct (stored_preserved w w' t Hwf Hpres Ht) as [_ ->].
Qed.

Lemma step_persisted (e : Event) (w w' : World) :
  wellFormed w → persisted w = snapshot w → writeSucceeds e →
  step e w = Done w' → persisted w' = snapshot w'.
Proof.
  intros Hwf Hp Hok Hstep.
  destruct (step_heap e w w' Hwf Hstep) as [_ Hpres].
  assert (Hsame : localStorage w' = localStorage w → templates w' = templates w →
                  persisted w' = snapshot w').
  { intros Hl Ht. rewrite (snapshot_preserved w w' Hwf Hpres Ht), <- Hp.
    unfold persisted. by rewrite Hl. }
  destruct e; cbn [step writeSucceeds] in Hstep, Hok.
  - destruct (_ <? _); injection Hstep as <-; by apply Hsame.
  - injection Hstep as <-. by apply Hsame.
  - apply Hsame; [|by destruct (drop_heap _ _ _ _ _ Hwf Hstep) as (_ & _ & ?)].
    unfold promptCanvas_drop in Hstep. destruct (draggedElement w).
    + destruct (moveWithinList _ _ _); [|done]. injection Hstep as <-.
      by world_simpl.
    + destruct componentType as [[|c t]|]; injection Hstep as <-; by world_simpl.
  - injection Hstep as <-.
    apply Hsame; [|by destruct (input_heap componentId property value w Hwf)
                       as (_ & _ & ?)].
    unfold promptCanvas_input. destruct (findComponent _ _); [|done].
    destruct (isContentProperty _); [|done]. by world_simpl.
  - injection Hstep as <-.
    apply Hsame; [|by destruct (click_heap componentId w Hwf) as (_ & _ & ?)].
    unfold promptCanvas_click, allocArr. by world_simpl.
  - destruct (bool_decide _); injection Hstep as <-; [|by apply Hsame].
    unfold variableForm_input in *. destruct varName; [by apply Hsame|].
    apply Hsame; by world_simpl.
  - injection Hstep as <-.
    apply Hsame; [|by destruct (load_heap templateId w Hwf) as (_ & _ & ?)].
    unfold templateList_load, jsonClone. destruct (findTemplate _ _); [|done].
    destruct (allocComponents _ w) as [newArr w1] eqn:E.
    apply allocComponents_spec in E as (ls & o & _ & _ & ->). by world_simpl.
  - injection Hstep as <-. unfold templateList_delete.
    destruct confirmed; [|done]. by subst ok.
  - injection Hstep as <-.
    apply Hsame; unfold saveTemplateButton_click; by destruct (_ =? _).
  - injection Hstep as <-.
    destruct (decide (trim input = [])) as [E|E].
    + unfold saveTemplateForm_submit. by rewrite E.
    + destruct (submit_spec input now ok w Hwf E)
        as (a & _ & _ & _ & _ & _ & _ & _ & _ & _ & Hstore).
      subst ok. unfold persisted. by rewrite Hstore.
  - injection Hstep as <-. by apply Hsame.
Qed.

Lemma run_persisted (es : list Event) :
  ∀ w w', wellFormed w → persisted w = snapshot w → Forall writeSucceeds es →
          runEvents es w = Done w' → persisted w' = snapshot w'.
Proof.
  induction es as [|e es IH]; intros w w' Hwf Hp Hes; cbn.
  - by intros [= <-].
  - apply Forall_cons in Hes as [He Hes].
    destruct (step e w) as [w1|] eqn:E; [|done].
    apply IH; [by destruct (step_heap e w w1 Hwf E) | | done].
    by apply (step_persisted e w w1).
Qed.

(** X12. As long as the writes to [localStorage] succeed, the stored record
    is the template store at every moment: after any run of events from
    [init], what a reload would read is what the page holds. *)
Theorem store_is_persisted (storage : option (list SavedTemplate))
    (es : list Event) (w : World) :
  Forall writeSucceeds es → runEvents es (init storage) = Done w →
  persisted w = snapshot w
  ∧ snapshot (init (Some (persisted w))) = snapshot w.
Proof.
  intros Hes Hrun.
  assert (Hp : persisted w = snapshot w).
  { apply (run_persisted es (init storage) w); [apply wellFormed_init| |done..].
    apply persisted_init. }
  split; [done|]. by rewrite snapshot_init.
Qed.

Lemma store_is_persisted_witness :
  Forall writeSucceeds
    [DropOnCanvas None (Some (js "heading")) 1; SaveButton;
     SaveSubmit (js "first") 2 true; DeleteComponent 1]
  ∧ ∀ w, runEvents [DropOnCanvas None (Some (js "heading")) 1; SaveButton;
                    SaveSubmit (js "first") 2 true; DeleteComponent 1]
           (init None) = Done w →
         persisted w = snapshot w.
Proof.
  assert (H : Forall writeSucceeds
                [DropOnCanvas None (Some (js "heading")) 1; SaveButton;
                 SaveSubmit (js "first") 2 true; DeleteComponent 1])
    by (repeat constructor).
  split; [exact H|]. intros w Hrun.
  exact (proj1 (store_is_persisted None _ w H Hrun)).
Defined.

(** ** The template list *)

Lemma filter_template_absent (templateId : Z) (ts : list Template.t) :
  templateId ∉ Template.id <$> ts →
  filter (λ t, Template.id t ≠ templateId) ts = ts.
Proof.
  induction ts as [|t ts IH]; [done|]. cbn [fmap list_fmap].
  rewrite not_elem_of_cons. intros [Hne Hin].
  rewrite filter_cons_True by done. by rewrite IH.
Qed.

(** X13. A click on the delete button of a template does nothing when the
    user does not confirm.  When the user confirms, every template with the
    id leaves the store and the others stay in their order (so the store is
    the same when no template has the id), the store is written to
    [localStorage] if the write succeeds, and the component list and the
    components of the templates are untouched. *)
Theorem deleteTemplate_spec (templateId : Z) (confirmed ok : bool) (w : World) :
  let w' := templateList_delete templateId confirmed ok w in
  (confirmed = false → w' = w)
  ∧ (confirmed = true →
     templates w' = filter (λ t, Template.id t ≠ templateId) (templates w)
     ∧ (templateId ∉ Template.id <$> templates w')
     ∧ (templateId ∉ Template.id <$> templates w → templates w' = templates w)
     ∧ localStorage w' = (if ok then Some (snapshot w') else localStorage w))
  ∧ live w' = live w
  ∧ (∀ t, stored w' t = stored w t).
Proof.
  intros w'. unfold w', templateList_delete. split_and!.
  - by intros ->.
  - intros ->. destruct ok; cbn; split_and!; try done.
    + intros (t & Hid & [Hne _]%list_elem_of_filter)%list_elem_of_fmap. congruence.
    + apply filter_template_absent.
    + intros (t & Hid & [Hne _]%list_elem_of_filter)%list_elem_of_fmap. congruence.
    + apply filter_template_absent.
  - by destruct confirmed, ok.
  - intros t. by destruct confirmed, ok.
Qed.

(** X14. A click on the load button of a template changes nothing when no
    template has the id.  Otherwise the first template with the id is
    loaded: the component list becomes a copy of its components, the
    variable form and the preview follow, the stored values of the
    variables are kept and the store is untouched. *)
Theorem loadTemplate_spec (templateId : Z) (w : World) :
  wellFormed w →
  let w' := templateList_load templateId w in
  (templateId ∉ Template.id <$> templates w → w' = w)
  ∧ (templateId ∈ Template.id <$> templates w →
     ∃ i t,
       templates w !! i = Some t ∧ Template.id t = templateId
       ∧ (∀ j t', templates w !! j = Some t' → j < i → Template.id t' ≠ templateId)
       ∧ live w' = stored w t
       ∧ variableForm w' = detectVariables (stored w t)
       ∧ livePreview w' = trim (substitute (variables w') (fullText (stored w t)))
       ∧ (∀ name v, getProperty (variables w) name = Some v →
                    getProperty (variables w') name = Some v)
       ∧ snapshot w' = snapshot w).
Proof.
  intros Hwf w'. split.
  - intros Habs. unfold w', templateList_load, findTemplate.
    destruct (list_find _ _) as [[i t]|] eqn:E; [|done].
    apply list_find_Some in E as (Hi & Hid & _). exfalso. apply Habs.
    apply list_elem_of_fmap. exists t. split; [done|].
    by apply list_elem_of_lookup_2 in Hi.
  - intros Hin.
    destruct (findTemplate w templateId) as [t|] eqn:Hfind.
    + pose proof Hfind as Hfind'. unfold findTemplate in Hfind'.
      destruct (list_find _ _) as [[i t']|] eqn:E; [|done].
      injection Hfind' as ->. apply list_find_Some in E as (Hi & Hid & Hfirst).
      destruct (load_spec templateId t w Hwf Hfind) as (_ & _ & Hlive & _).
      destruct (load_heap templateId w Hwf) as (_ & Hpres & Hts).
      pose proof (inSync_upd) as Hsync.
      assert (Hs : inSync w').
      { unfold w', templateList_load, jsonClone. rewrite Hfind.
        destruct (allocComponents _ w) as [newArr w1]. apply inSync_upd. }
      destruct Hs as (Hform & _ & Hprev). fold w' in Hlive. rewrite Hlive in *.
      exists i, t. split_and!; try done.
      * intros name v Hget.
        apply (step_keeps_value (LoadTemplate templateId) w w' name v);
          [done | done | discriminate].
      * by apply snapshot_preserved.
    + exfalso. unfold findTemplate in Hfind.
      destruct (list_find _ _) as [[i t']|] eqn:E; [done|].
      apply list_find_None in E. rewrite Forall_forall in E.
      apply list_elem_of_fmap in Hin as (t & Hid & Ht). by apply (E t Ht).
Qed.

Lemma savedWorld_reachable : reachable savedWorld.
Proof.
  apply (reachable_runEvents
           [SaveButton; SaveSubmit (js "topic") 1700000000001 true] topicWorld);
    [apply topicWorld_reachable | by vm_compute].
Qed.

Lemma loadTemplate_spec_witness :
  wellFormed savedWorld
  ∧ (7%Z ∉ Template.id <$> templates savedWorld →
     templateList_load 7 savedWorld = savedWorld).
Proof.
  assert (H : wellFormed savedWorld)
    by apply reachable_wellFormed, savedWorld_reachable.
  split; [exact H|]. exact (proj1 (loadTemplate_spec 7 savedWorld H)).
Defined.

(** ** Components of an unknown type *)

Lemma componentText_unrecognized (comp : Component.t) :
  Component.type comp ∉ recognizedKinds → componentText comp = [].
Proof.
  unfold recognizedKinds. rewrite !not_elem_of_cons. intros (? & ? & ? & _).
  unfold componentText. by rewrite !bool_decide_eq_false_2.
Qed.

Lemma fullText_recognized (comps : list Component.t) :
  fullText (filter (λ c, Component.type c ∈ recognizedKinds) comps)
  = fullText comps.
Proof.
  unfold fullText. induction comps as [|c comps IH]; [done|].
  rewrite filter_cons. destruct (decide (Component.type c ∈ recognizedKinds)).
  - cbn. by rewrite IH.
  - cbn. by rewrite IH, componentText_unrecognized.
Qed.

(** X15. A component whose type is none of the three kinds (a drop of any
    other text creates one) adds nothing to the prompt: the rendered text,
    the detected variables and the preview are those of the list without
    such components.  On the canvas its element has an empty body, and no
    input at all when the type holds no [<]; a type with a [<] is written
    into the element as markup, since the title is not escaped. *)
Theorem unknown_type_is_invisible (comps : list Component.t)
    (vars : list (str * str)) :
  let known := filter (λ c, Component.type c ∈ recognizedKinds) comps in
  fullText known = fullText comps
  ∧ detectVariables known = detectVariables comps
  ∧ trim (substitute vars (fullText known)) = trim (substitute vars (fullText comps))
  ∧ (∀ c index, Component.type c ∉ recognizedKinds →
       componentText c = []
       ∧ CanvasElement.body (createComponentElement c index) = []
       ∧ (Forall (λ x, x ≠ "<"%char) (Component.type c) →
          CanvasElement.inputs (createComponentElement c index) = Some [])).
Proof.
  intros known. subst known.
  pose proof (fullText_recognized comps) as Htext.
  split_and!.
  - done.
  - by rewrite !detectVariables_dedupe, Htext.
  - by rewrite Htext.
  - intros c index Hc. split; [by apply componentText_unrecognized|].
    assert (Hbody : componentInputs c = []).
    { revert Hc. unfold recognizedKinds. rewrite !not_elem_of_cons.
      intros (? & ? & ? & _). unfold componentInputs.
      by rewrite !bool_decide_eq_false_2. }
    split; [done|]. intros Hplain.
    unfold CanvasElement.inputs, createComponentElement.
    cbn [CanvasElement.title CanvasElement.body].
    by rewrite isPlainText_replaceHyphen, (isPlainText_Forall _ Hplain), Hbody.
Qed.

(** The type of a dropped component is any text.  One with a [<] gives an
    element whose inputs are those its title makes, whatever the body
    holds. *)
Example markup_in_type :
  ∃ w',
    promptCanvas_drop None
      (Some (js "<input class=component-input data-property=content>")) 1
      (init None) = Done w'
    ∧ (CanvasElement.body <$> renderCanvas w') = [[]]
    ∧ (CanvasElement.inputs <$> renderCanvas w') = [None].
Proof. eexists. split_and!; [reflexivity | by vm_compute..]. Qed.

(** ** The submit listener and the empty list *)

(** X16. The submit listener does not look at the component list: with a
    name that is not blank it stores a template even when the list is
    empty (the check for an empty prompt is in the listener of the save
    button only), and the template then has no component. *)
Theorem submit_stores_empty_list (input : str) (now : Z) (ok : bool) (w : World) :
  wellFormed w → trim input ≠ [] → live w = [] →
  ∃ a,
    templates (saveTemplateForm_submit input now ok w)
    = templates w ++ [Template.mk now (trim input) a]
    ∧ stored (saveTemplateForm_submit input now ok w)
        (Template.mk now (trim input) a) = []
    ∧ alerts (saveTemplateForm_submit input now ok w) = alerts w.
Proof.
  intros Hwf Hname Hlive.
  destruct (submit_spec input now ok w Hwf Hname)
    as (a & _ & Hts & Hst & _ & _ & _ & _ & Hal & _).
  exists a. by rewrite Hts, Hst, Hlive.
Qed.

Lemma submit_stores_empty_list_witness :
  wellFormed (init None) ∧ trim (js " x ") ≠ [] ∧ live (init None) = []
  ∧ ∃ a,
      templates (saveTemplateForm_submit (js " x ") 5 true (init None))
      = templates (init None) ++ [Template.mk 5 (trim (js " x ")) a]
      ∧ stored (saveTemplateForm_submit (js " x ") 5 true (init None))
          (Template.mk 5 (trim (js " x ")) a) = []
      ∧ alerts (saveTemplateForm_submit (js " x ") 5 true (init None))
        = alerts (init None).
Proof.
  assert (Hname : trim (js " x ") ≠ []).
  { intros H. vm_compute in H. discriminate H. }
  split; [apply wellFormed_init|]. split; [exact Hname|]. split; [reflexivity|].
  exact (submit_stores_empty_list (js " x ") 5 true (init None)
           (wellFormed_init None) Hname eq_refl).
Defined.

(** ** Invariants of the reachable worlds *)

(** X17. In every reachable world the keys of [state.variables], and the
    names of the inputs of the variable form, are variable names: non-empty
    runs of uppercase letters and underscores.  So the pattern
    [new RegExp('\\[' + key + '\\]', 'g')] is built from a key without any
    character that is special in a regular expression. *)
Theorem variable_keys_are_names (w : World) :
  reachable w →
  (∀ key value, (key, value) ∈ variables w →
                key ≠ [] ∧ Forall (λ c, isNameChar c = true) key)
  ∧ (∀ name, name ∈ variableForm w →
             name ≠ [] ∧ Forall (λ c, isNameChar c = true) name).
Proof.
  intros [Hvars Hform]%reachable_variablesNamed.
  unfold namesOnly in Hvars.
  rewrite Forall_forall in Hvars. rewrite Forall_forall in Hform.
  split.
  - intros key value Hin. specialize (Hvars _ Hin). cbn in Hvars.
    split; [by intros -> | by apply isName_chars].
  - intros name Hin. specialize (Hform _ Hin).
    split; [by intros -> | by apply isName_chars].
Qed.

Lemma variable_keys_are_names_witness :
  reachable topicWorld
  ∧ ∀ key value, (key, value) ∈ variables topicWorld →
                 key ≠ [] ∧ Forall (λ c, isNameChar c = true) key.
Proof.
  split; [apply topicWorld_reachable|].
  exact (proj1 (variable_keys_are_names topicWorld topicWorld_reachable)).
Defined.



(** ** Text without tokens *)

Lemma substitute_no_open (vars : list (str * str)) (text : str) :
  Forall (λ c, c ≠ "["%char) text → substitute vars text = text.
Proof.
  intros Htext. unfold substitute.
  induction vars as [|[key value] vars IH]; [done|].
  cbn [foldl]. unfold substituteOne, replacePlaceholder.
  rewrite <- (app_nil_r text) at 1.
  rewrite replaceFrom_no_open by done. cbn [replaceFrom].
  by rewrite app_nil_r.
Qed.

(** X19. A rendered text without an opening bracket is previewed as it is,
    trimmed, whatever the variable mapping holds: the substitution touches
    nothing but bracketed tokens. *)
Theorem text_without_brackets_is_kept (w : World) :
  Forall (λ c, c ≠ "["%char) (fullText (live w)) →
  detectVariables (live w) = []
  ∧ variables (updatePreviewAndVariables w) = variables w
  ∧ livePreview (updatePreviewAndVariables w) = trim (fullText (live w)).
Proof.
  intros Htext.
  assert (Hnone : detectVariables (live w) = []).
  { rewrite detectVariables_dedupe, (execAll_tokens _ 0).
    rewrite <- (app_nil_r (fullText (live w))), tokensFrom_skip by done. done. }
  split_and!.
  - done.
  - by rewrite variables_updatePreviewAndVariables, Hnone.
  - rewrite livePreview_updatePreviewAndVariables. by rewrite substitute_no_open.
Qed.

Lemma text_without_brackets_is_kept_witness :
  Forall (λ c, c ≠ "["%char) (fullText (live headingWorld))
  ∧ livePreview (updatePreviewAndVariables headingWorld)
    = trim (fullText (live headingWorld)).
Proof.
  assert (H : Forall (λ c, c ≠ "["%char) (fullText (live headingWorld))).
  { vm_compute. repeat constructor; discriminate. }
  split; [exact H|].
  exact (proj2 (proj2 (text_without_brackets_is_kept headingWorld H))).
Defined.
